(** * ahofa: payload extraction, state labelling, label files, option
      checking and evaluation metrics

    Shallow embedding of
    - [src/reduction/src/pcap_reader.h]  ([process_payload], [get_payload],
                                          [print_readable]),
    - [src/src/exe/reduce.cpp]           ([label_states], [read_state_labels],
                                          [check_float], [main]),
    - [src/src/exe/par_test.cpp]         (the sweep and the derived metrics
                                          of [main]).

    Unsigned machine integers ([size_t], [bpf_u_int32], [unsigned]) are
    values of [N]; where the code can wrap, the reduction modulo [2^64] is
    written out.  The floating-point arithmetic of [par_test.cpp] is that of
    IEEE 754 binary32 and binary64. *)

From Stdlib Require Import NArith ZArith QArith Qpower Lia Lqa List Bool Ascii
  String.
From Stdlib Require Floats.SpecFloat.
From Stdlib.Strings Require Import Byte.
From stdpp Require Import base option list gmap strings pretty.

Open Scope N_scope.

(** ** Machine integers *)

Definition SIZE_MAX1 : N := 2 ^ 64.

(** [size_t] arithmetic: results are reduced modulo [2^64]. *)
Definition size_add (a b : N) : N := (a + b) mod SIZE_MAX1.
Definition size_sub (a b : N) : N := (a + SIZE_MAX1 - b mod SIZE_MAX1) mod SIZE_MAX1.

(** The numeric value of one byte of a buffer. *)
Definition u8 (b : byte) : N := Byte.to_N b.

(** ** Header layouts used by [get_payload]

    Sizes, field offsets and protocol numbers are those of the system headers
    the source includes ([net/ethernet.h], [netinet/ip.h], [netinet/ip6.h],
    [netinet/tcp.h], [netinet/udp.h], [netinet/ip_icmp.h], [netinet/icmp6.h],
    [netinet/in.h]); [vlan_ethhdr] is the packed struct of [pcap_reader.h]. *)

Definition ETHERTYPE_IP    : N := 0x0800.
Definition ETHERTYPE_VLAN  : N := 0x8100.
Definition ETHERTYPE_IPV6  : N := 0x86dd.

Definition IPPROTO_ICMP     : N := 1.
Definition IPPROTO_IPIP     : N := 4.
Definition IPPROTO_TCP      : N := 6.
Definition IPPROTO_UDP      : N := 17.
Definition IPPROTO_IPV6     : N := 41.
Definition IPPROTO_FRAGMENT : N := 44.
Definition IPPROTO_ESP      : N := 50.
Definition IPPROTO_ICMPV6   : N := 58.

Definition sizeof_ether_header : N := 14.
Definition sizeof_vlan_ethhdr  : N := 18.
Definition sizeof_ip           : N := 20.
Definition sizeof_ip6_hdr      : N := 40.
Definition sizeof_udphdr       : N := 8.
Definition sizeof_icmphdr      : N := 8.
Definition sizeof_icmp6_hdr    : N := 8.
Definition sizeof_ip6_frag     : N := 8.

(** Byte offsets of the fields the function reads. *)
Definition off_ether_type      : N := 12.  (* ether_header.ether_type, 2 bytes *)
Definition off_vlan_ether_type : N := 16.  (* vlan_ethhdr.ether_type, 2 bytes  *)
Definition off_ip_p            : N := 9.   (* ip.ip_p                          *)
Definition off_ip6_nxt         : N := 6.   (* ip6_hdr.ip6_nxt                  *)
Definition off_th_off          : N := 12.  (* tcphdr: th_off is the high nibble *)
Definition off_ip6f_nxt        : N := 0.   (* ip6_frag.ip6f_nxt                *)

Create HintDb hdr.
#[global] Hint Unfold
  ETHERTYPE_IP ETHERTYPE_VLAN ETHERTYPE_IPV6
  IPPROTO_ICMP IPPROTO_IPIP IPPROTO_TCP IPPROTO_UDP IPPROTO_IPV6
  IPPROTO_FRAGMENT IPPROTO_ESP IPPROTO_ICMPV6
  sizeof_ether_header sizeof_vlan_ethhdr sizeof_ip sizeof_ip6_hdr
  sizeof_udphdr sizeof_icmphdr sizeof_icmp6_hdr sizeof_ip6_frag
  off_ether_type off_vlan_ether_type off_ip_p off_ip6_nxt off_th_off
  off_ip6f_nxt : hdr.

(** ** Memory reads

    [packet] is modelled by the bytes that can be read starting at the
    address the pointer holds: the captured frame comes first, and whatever
    the capture library's buffer holds behind it follows.  [caplen] is a
    separate field of the header and plays no part in a read.  A read at an
    index that is not in the list is an access outside readable memory: the
    run ends in [Fault].  Every byte index touched is recorded, in program
    order. *)

Inductive result (A : Type) : Type :=
| Ok (a : A)
| Fault        (* a read outside readable memory *)
| OutOfFuel.   (* the loop was cut by the iteration budget of the model *)
Arguments Ok {A} a.
Arguments Fault {A}.
Arguments OutOfFuel {A}.

(** A computation yields the byte indices it read and how it ended. *)
Definition M (A : Type) : Type := (list N * result A)%type.

Definition reads {A} (m : M A) : list N := fst m.
Definition outcome {A} (m : M A) : result A := snd m.

#[global] Instance M_ret : MRet M := fun A (a : A) => ([], Ok a).

#[global] Instance M_bind : MBind M := fun A B (k : A -> M B) (m : M A) =>
  match m with
  | (t, Ok a) => let r := k a in (t ++ fst r, snd r)
  | (t, Fault) => (t, Fault)
  | (t, OutOfFuel) => (t, OutOfFuel)
  end.

(** [*(packet + i)] for one byte. *)
Definition load8 (packet : list byte) (i : N) : M N :=
  ([i], match packet !! N.to_nat i with
        | Some b => Ok (u8 b)
        | None => Fault
        end).

(** [ntohs] of a 16-bit field stored at [packet + i]: the field is in network
    byte order, so its value is [256 * packet[i] + packet[i+1]]. *)
Definition load16_ntohs (packet : list byte) (i : N) : M N :=
  hi ← load8 packet i;
  lo ← load8 packet (i + 1);
  mret (256 * hi + lo).

(** ** [struct pcap_pkthdr] *)

Record pcap_pkthdr : Type := {
  ts_sec  : N;
  ts_usec : N;
  caplen  : N;   (* length of portion present *)
  len     : N    (* length of this packet (off wire) *)
}.

(** ** [get_payload] (pcap_reader.h, lines 80-172)

    Pointers into the frame are represented by their distance from [packet]:
    the function's result [k] stands for the pointer [packet + k]. *)

(** Lines 85-93: the Ethernet header, with the VLAN variant.  Yields
    [(offset, ether_type)]. *)
Definition link_layer (packet : list byte) : M (N * N) :=
  let offset := sizeof_ether_header in
  ether_type ← load16_ntohs packet off_ether_type;
  if ETHERTYPE_VLAN =? ether_type then
    let offset := sizeof_vlan_ethhdr in
    ether_type ← load16_ntohs packet off_vlan_ether_type;
    mret (offset, ether_type)
  else mret (offset, ether_type).

(** Lines 95-112: the network header.  [None] is the [return packet_end] of
    the last branch; otherwise the new offset and [l4_proto]. *)
Definition network_layer (packet : list byte) (offset ether_type : N)
  : M (option (N * N)) :=
  if ETHERTYPE_IP =? ether_type then
    l4_proto ← load8 packet (offset + off_ip_p);
    mret (Some (size_add offset sizeof_ip, l4_proto))
  else if ETHERTYPE_IPV6 =? ether_type then
    l4_proto ← load8 packet (offset + off_ip6_nxt);
    mret (Some (size_add offset sizeof_ip6_hdr, l4_proto))
  else mret None.

(** One pass through the body of the [do ... while (cond)] loop, lines
    116-162. *)
Inductive pass : Type :=
| Again (offset l4_proto : N)     (* the body ended with [cond == true]  *)
| Leave (offset l4_proto : N)     (* the body ended with [cond == false] *)
| ReturnEnd.                      (* [return packet + header->caplen]    *)

Definition l4_body (packet : list byte) (offset l4_proto : N) : M pass :=
  if IPPROTO_TCP =? l4_proto then
    b ← load8 packet (offset + off_th_off);
    let th_off := b / 16 in
    let tcp_hdr_size := th_off * 4 in
    mret (Leave (size_add offset tcp_hdr_size) l4_proto)
  else if IPPROTO_UDP =? l4_proto then
    mret (Leave (size_add offset sizeof_udphdr) l4_proto)
  else if IPPROTO_IPIP =? l4_proto then
    p ← load8 packet (offset + off_ip_p);
    mret (Again (size_add offset sizeof_ip) p)
  else if IPPROTO_ESP =? l4_proto then
    mret (Leave (size_add offset 8) l4_proto)
  else if IPPROTO_ICMP =? l4_proto then
    mret (Leave (size_add offset sizeof_icmphdr) l4_proto)
  else if IPPROTO_ICMPV6 =? l4_proto then
    mret (Leave (size_add offset sizeof_icmp6_hdr) l4_proto)
  else if IPPROTO_FRAGMENT =? l4_proto then
    p ← load8 packet (offset + off_ip6f_nxt);
    mret (Again (size_add offset sizeof_ip6_frag) p)
  else if IPPROTO_IPV6 =? l4_proto then
    p ← load8 packet (offset + off_ip6_nxt);
    mret (Leave (size_add offset sizeof_ip6_hdr) p)
  else
    mret ReturnEnd.

(** The loop.  [None] is the early [return packet + header->caplen]; [Some
    offset] is the offset with which control reaches line 165. *)
Fixpoint l4_loop (fuel : nat) (packet : list byte) (offset l4_proto : N)
  : M (option N) :=
  match fuel with
  | O => ([], OutOfFuel)
  | S fuel =>
      r ← l4_body packet offset l4_proto;
      match r with
      | Again offset l4_proto => l4_loop fuel packet offset l4_proto
      | Leave offset _ => mret (Some offset)
      | ReturnEnd => mret None
      end
  end.

(** Lines 84-163: everything before the final comparison.  [None] stands for
    the two early returns of [packet_end], [Some offset] for the offset with
    which control reaches line 165. *)
Definition skip_headers (fuel : nat) (packet : list byte) : M (option N) :=
  '(offset, ether_type) ← link_layer packet;
  nl ← network_layer packet offset ether_type;
  match nl with
  | None => mret None
  | Some (offset, l4_proto) => l4_loop fuel packet offset l4_proto
  end.

Definition get_payload_fuel (fuel : nat) (packet : list byte)
    (header : pcap_pkthdr) : M N :=
  let packet_end := caplen header in
  r ← skip_headers fuel packet;
  match r with
  | None => mret packet_end
  | Some offset =>
      if caplen header <? offset then mret (caplen header)
      else mret offset
  end.

(** Every pass that asks for another one has read a byte of [packet], and
    a buffer has fewer passes than bytes: [length packet] passes and one more
    are enough for every buffer that fits the address space. *)
Definition get_payload (packet : list byte) (header : pcap_pkthdr) : M N :=
  get_payload_fuel (S (length packet)) packet header.

(** ** Exceptions and floating-point values of [reduce.cpp] *)

(** A computation that may [throw runtime_error(what)]. *)
Inductive except (A : Type) : Type :=
| Value (a : A)
| Throw (what : string).
Arguments Value {A} a.
Arguments Throw {A} what.

#[global] Instance except_ret : MRet except := fun A (a : A) => Value a.
#[global] Instance except_bind : MBind except :=
  fun A B (k : A -> except B) (m : except A) =>
    match m with
    | Value a => k a
    | Throw what => Throw what
    end.

(** The value of a [float] or [double] variable: the real number it stands
    for, or one of the special values; comparisons are the IEEE ones (every
    ordered comparison with NaN is false). *)
Inductive float : Type :=
| Finite (q : Q)
| PInf
| NInf
| NaN.

Definition Qlt_bool (x y : Q) : bool := negb (Qle_bool y x).

Definition float_lt (a b : float) : bool :=
  match a, b with
  | NaN, _ | _, NaN => false
  | Finite x, Finite y => Qlt_bool x y
  | NInf, NInf => false
  | NInf, _ => true
  | _, NInf => false
  | PInf, _ => false
  | Finite _, PInf => true
  end.

Definition float_gt (a b : float) : bool := float_lt b a.

(** ** IEEE 754 arithmetic

    The arithmetic of [par_test.cpp] is done on [float]s and [double]s:
    IEEE 754 binary32 and binary64 numbers.  Their operations are those of
    the standard library's specification of IEEE arithmetic ([SpecFloat]),
    which rounds to nearest, ties to even. *)

Definition binary32 (m e : Z) : SpecFloat.spec_float :=
  SpecFloat.binary_normalize 24 128 m e false.
Definition binary64 (m e : Z) : SpecFloat.spec_float :=
  SpecFloat.binary_normalize 53 1024 m e false.

(** The [double] literal with the decimal digits [n] and [k] of them behind
    the point: the [double] next to [n / 10^k]. *)
Definition double_literal (n k : Z) : SpecFloat.spec_float :=
  SpecFloat.SFdiv 53 1024 (binary64 n 0) (binary64 (10 ^ k) 0).

(** Storing a [double] in a [float] rounds it; reading a [float] as a
    [double] keeps its value. *)
Definition double_to_float (x : SpecFloat.spec_float) : SpecFloat.spec_float :=
  match x with
  | SpecFloat.S754_finite s m e =>
      SpecFloat.binary_normalize 24 128 (SpecFloat.cond_Zopp s (Z.pos m)) e s
  | _ => x
  end.
Definition float_to_double (x : SpecFloat.spec_float) : SpecFloat.spec_float :=
  match x with
  | SpecFloat.S754_finite s m e =>
      SpecFloat.binary_normalize 53 1024 (SpecFloat.cond_Zopp s (Z.pos m)) e s
  | _ => x
  end.

(** Conversion of a [size_t] to [double]: the [double] next to it. *)
Definition size_t_to_double (n : N) : SpecFloat.spec_float :=
  binary64 (Z.of_N n) 0.

(** Division of two [double]s. *)
Definition float_div (a b : SpecFloat.spec_float) : SpecFloat.spec_float :=
  SpecFloat.SFdiv 53 1024 a b.

(** [float x = n * 1.0 / d] for two [size_t] values [n] and [d]: [n] becomes
    a [double] and is multiplied by the literal, [d] becomes a [double], the
    quotient is a [double] and is stored in a [float]. *)
Definition quotient (n d : N) : SpecFloat.spec_float :=
  double_to_float
    (float_div (SpecFloat.SFmul 53 1024 (size_t_to_double n) (binary64 1 0))
               (size_t_to_double d)).

(** The value of an IEEE number. *)
Definition float_value (x : SpecFloat.spec_float) : float :=
  match x with
  | SpecFloat.S754_zero _ => Finite 0
  | SpecFloat.S754_infinity false => PInf
  | SpecFloat.S754_infinity true => NInf
  | SpecFloat.S754_nan => NaN
  | SpecFloat.S754_finite s m e =>
      Finite (inject_Z (SpecFloat.cond_Zopp s (Z.pos m)) * 2 ^ e)
  end.

(** ** What [reduce.cpp] takes from the rest of the program

    [nfa.hpp], [reduction.hpp] and [pcap_reader.hpp] are not among the
    sources, and the C++ and C libraries are outside the repository; the
    functions of [reduce.cpp] are embedded over this interface. *)
Record env : Type := {
  (** Modelled from the spec: the automaton type [FastNfa] (used as [Nfa] by
      [read_state_labels]); states are dense zero-based unsigned
      identifiers. *)
  FastNfa : Type;
  (** Modelled from the spec: [state_count()]. *)
  state_count : FastNfa -> N;
  (** Modelled from the spec: [get_initial_state_idx()], the index of the
      one initial state. *)
  get_initial_state_idx : FastNfa -> N;
  (** Modelled from the spec: [parse_word(payload, len, visitor)] replays the
      payload and calls [visitor(state)] on active states; it reads the
      automaton and does not change it.  The value is the sequence of states
      the visitor is called with. *)
  parse_word : FastNfa -> list byte -> list N;
  (** Modelled from the spec: [is_state(id)]. *)
  is_state : FastNfa -> N -> bool;
  (** Modelled from the spec: [read_from_file] builds the automaton from its
      textual description or fails. *)
  read_from_file : string -> except FastNfa;
  (** [ifstream in{fname}]: the contents of the file, [None] when it cannot
      be opened. *)
  file_contents : string -> option string;
  (** [ofstream out{outfile}; out.is_open()]. *)
  can_open_output : string -> bool;
  (** [iss >> s] for the state type and [iss >> l] for [unsigned long]: the
      value extracted and the unread rest of the stream, [None] when the
      extraction fails. *)
  extract_state : string -> option (N * string);
  extract_ulong : string -> option (N * string);
  (** [stod(optarg)] assigned to a [float] variable; it throws on text that
      is no number. *)
  stod : string -> except float;
  (** [to_string] of a float. *)
  float_to_string : float -> string
}.

(** ** [label_states] (reduce.cpp, lines 33-44)

    An index outside a vector is undefined behaviour in the source
    ([operator[]] does not check): the embedding returns [None] there.  The
    automaton is passed by reference next to the frequency vector, so both
    are threaded through. *)

(** [bm[s] = 1]. *)
Definition set_bit (bm : option (list bool)) (s : N) : option (list bool) :=
  bm ← bm;
  if decide (N.to_nat s < length bm)%nat then Some (<[N.to_nat s := true]> bm)
  else None.

Definition bit (b : bool) : N := if b then 1 else 0.

(** [state_freq[i] += bm[i]]. *)
Definition add_bit (bm : list bool) (state_freq : option (list N)) (i : nat)
  : option (list N) :=
  state_freq ← state_freq;
  b ← bm !! i;
  f ← state_freq !! i;
  Some (<[i := size_add f (bit b)]> state_freq).

(** [state_freq[k]++]. *)
Definition incr (state_freq : list N) (k : N) : option (list N) :=
  f ← state_freq !! N.to_nat k;
  Some (<[N.to_nat k := size_add f 1]> state_freq).

Definition label_states (E : env) (nfa : FastNfa E) (state_freq : list N)
    (payload : list byte) : option (FastNfa E * list N) :=
  let bm0 := replicate (N.to_nat (state_count E nfa)) false in
  bm ← foldl set_bit (Some bm0) (parse_word E nfa payload);
  state_freq ← foldl (add_bit bm) (Some state_freq)
                     (seq 0 (length state_freq));
  state_freq ← incr state_freq (get_initial_state_idx E nfa);
  Some (nfa, state_freq).

(** ** [read_state_labels] (reduce.cpp, lines 46-75) *)

Definition newline : ascii := "010"%char.
Definition hash : ascii := "#"%char.

(** The lines successive [getline(in, buf)] calls deliver: characters up to
    the next newline, which is dropped; the text after the last newline is a
    line only when it is not empty. *)
Fixpoint getlines_from (buf : string) (s : string) : list string :=
  match s with
  | EmptyString => if decide (buf = EmptyString) then [] else [buf]
  | String c s =>
      if decide (c = newline) then buf :: getlines_from EmptyString s
      else getlines_from (buf +:+ String c EmptyString) s
  end.

Definition getlines (s : string) : list string := getlines_from EmptyString s.

(** [buf.substr(0, buf.find("#"))]: the text before the first [#], the whole
    line when there is none. *)
Fixpoint remove_comment (buf : string) : string :=
  match buf with
  | EmptyString => EmptyString
  | String c s => if decide (c = hash) then EmptyString
                  else String c (remove_comment s)
  end.

(** [to_string(s)] for an unsigned integer. *)
Definition to_string (s : N) : string := pretty s.

(** [iss >> s >> l]. *)
Definition extract_label (E : env) (buf : string) : option (N * N) :=
  '(s, rest) ← extract_state E buf;
  '(l, _) ← extract_ulong E rest;
  Some (s, l).

(** The body of the [while (getline(in, buf))] loop, run over the lines. *)
Fixpoint read_lines (E : env) (nfa : FastNfa E) (lines : list string)
    (ret : gmap N N) : except (gmap N N) :=
  match lines with
  | [] => Value ret
  | buf :: lines =>
      let buf := remove_comment buf in
      if decide (buf = EmptyString) then read_lines E nfa lines ret
      else
        match extract_label E buf with
        | None => Throw "invalid state labels syntax"
        | Some (s, l) =>
            if negb (is_state E nfa s)
            then Throw ("invalid NFA state: " +:+ to_string s)
            else read_lines E nfa lines (<[s := l]> ret)
        end
  end.

Definition read_state_labels (E : env) (nfa : FastNfa E) (fname : string)
  : except (gmap N N) :=
  match file_contents E fname with
  | None => Throw "error loading NFA"
  | Some text => read_lines E nfa (getlines text) ∅
  end.

(** ** [check_float] (reduce.cpp, lines 77-85) *)

Definition dquote : string := String "034"%char EmptyString.

Definition check_float (E : env) (x max_val min_val : float) : except unit :=
  if float_gt x max_val || float_lt x min_val then
    Throw ("invalid float value: " +:+ dquote +:+ float_to_string E x +:+
           dquote +:+ ", should be in range (" +:+ float_to_string E min_val
           +:+ "," +:+ float_to_string E max_val +:+ ")")
  else Value tt.

(** The default arguments [max_val = 1], [min_val = 0]. *)
Definition check_float_default (E : env) (x : float) : except unit :=
  check_float E x (Finite 1) (Finite 0).

(** ** [main] of [reduce.cpp] (lines 87-215) *)

(** The local variables the option loop works on. *)
Record options : Type := {
  freq_opt : bool;
  eps : float;
  pct : float;
  outfile : string;
  red_type : string;
  opt_cnt : Z
}.

Definition initial_options : options :=
  {| freq_opt := false; eps := Finite (-1); pct := Finite (-1);
     outfile := "reduced-nfa.fa"; red_type := "prune"; opt_cnt := 1 |}.

(** Inside the [try] block a statement goes on, returns from [main], or
    throws. *)
Inductive flow (A : Type) : Type :=
| Next (a : A)
| Return (code : Z)
| Raise (what : string).
Arguments Next {A} a.
Arguments Return {A} code.
Arguments Raise {A} what.

#[global] Instance flow_ret : MRet flow := fun A (a : A) => Next a.
#[global] Instance flow_bind : MBind flow :=
  fun A B (k : A -> flow B) (m : flow A) =>
    match m with
    | Next a => k a
    | Return code => Return code
    | Raise what => Raise what
    end.

Definition lift {A} (m : except A) : flow A :=
  match m with
  | Value a => Next a
  | Throw what => Raise what
  end.

(** One iteration of [while ((c = getopt(argc, argv, "ho:fe:p:t:")) != -1)]:
    [c] is the option character [getopt] returned and [optarg] its
    argument. *)
Definition option_case (E : env) (o : options) (c : ascii) (optarg : string)
  : flow options :=
  let o := {| freq_opt := freq_opt o; eps := eps o; pct := pct o;
              outfile := outfile o; red_type := red_type o;
              opt_cnt := opt_cnt o + 1 |} in
  if decide (c = "h"%char) then Return 0
  else if decide (c = "o"%char) then
    Next {| freq_opt := freq_opt o; eps := eps o; pct := pct o;
            outfile := optarg; red_type := red_type o;
            opt_cnt := opt_cnt o + 1 |}
  else if decide (c = "f"%char) then
    Next {| freq_opt := true; eps := eps o; pct := pct o;
            outfile := outfile o; red_type := red_type o;
            opt_cnt := opt_cnt o |}
  else if decide (c = "e"%char) then
    x ← lift (stod E optarg);
    _ ← lift (check_float_default E x);
    Next {| freq_opt := freq_opt o; eps := x; pct := pct o;
            outfile := outfile o; red_type := red_type o;
            opt_cnt := opt_cnt o + 1 |}
  else if decide (c = "p"%char) then
    x ← lift (stod E optarg);
    _ ← lift (check_float_default E x);
    Next {| freq_opt := freq_opt o; eps := eps o; pct := x;
            outfile := outfile o; red_type := red_type o;
            opt_cnt := opt_cnt o + 1 |}
  else if decide (c = "t"%char) then
    Next {| freq_opt := freq_opt o; eps := eps o; pct := pct o;
            outfile := outfile o; red_type := optarg;
            opt_cnt := opt_cnt o + 1 |}
  else Return 1.

Fixpoint option_loop (E : env) (o : options) (opts : list (ascii * string))
  : flow options :=
  match opts with
  | [] => Next o
  | (c, optarg) :: opts =>
      o ← option_case E o c optarg;
      option_loop E o opts
  end.

(** The reducer that [main] calls, with the numeric arguments it passes. *)
Inductive reducer_call : Type :=
| call_prune (pct eps : float)
| call_merge_and_prune (pct : float).

(** How far [main] gets: it returns before the automaton is touched, an
    exception reaches the [catch] block (the message is printed and [main]
    returns 1), it enters the frequency branch, or it calls a reducer on the
    loaded automaton and labels. *)
Inductive main_run (E : env) : Type :=
| Exits (code : Z)
| Caught (what : string)
| Frequencies (nfa : FastNfa E) (pcap : string)
| Reduces (nfa : FastNfa E) (labels : gmap N N) (call : reducer_call).
Arguments Exits {E} code.
Arguments Caught {E} what.
Arguments Frequencies {E} nfa pcap.
Arguments Reduces {E} nfa labels call.

(** [argv] is the argument vector and [opts] the sequence of results of the
    [getopt] calls. *)
Definition main_try (E : env) (argv : list string)
    (opts : list (ascii * string)) : flow (main_run E) :=
  let argc := Z.of_nat (length argv) in
  if (argc <? 2)%Z then Return 1 else
  o ← option_loop E initial_options opts;
  if (argc - opt_cnt o <? 2)%Z then Raise "invalid positional arguments" else
  let nfa_str := default EmptyString (argv !! Z.to_nat (opt_cnt o)) in
  let pcap := default EmptyString (argv !! Z.to_nat (opt_cnt o + 1)) in
  nfa ← lift (read_from_file E nfa_str);
  if negb (can_open_output E (outfile o)) then Raise "cannot open output file"
  else if freq_opt o then Next (Frequencies nfa pcap)
  else
    labels ← lift (read_state_labels E nfa pcap);
    if decide (red_type o = "prune") then
      Next (Reduces nfa labels (call_prune (pct o) (eps o)))
    else if decide (red_type o = "merge") then
      Next (Reduces nfa labels (call_merge_and_prune (pct o)))
    else Raise ("invalid reduction type: '" +:+ red_type o +:+ "'").

Definition main (E : env) (argv : list string) (opts : list (ascii * string))
  : main_run E :=
  match main_try E argv opts with
  | Next r => r
  | Return code => Exits code
  | Raise what => Caught what
  end.

(** ** The derived metrics of [par_test.cpp] (lines 58-63) *)

(** Modelled from the spec: the counters of [ErrorStats] ([nfa_error.hpp] is
    not among the sources): total payloads examined, count accepted by the
    target automaton, count accepted by the reduced automaton, count where
    the classifications disagree, count where they agree.  They are unsigned
    counters of the width of [size_t], the type of the variable their
    difference is assigned to. *)
Record ErrorStats : Type := {
  total : N;
  accepted_target : N;
  accepted_reduced : N;
  wrongly_classified : N;
  correctly_classified : N
}.

Definition wrong_acceptances (aggr : ErrorStats) : N :=
  size_sub (accepted_reduced aggr) (accepted_target aggr).

Definition pe (aggr : ErrorStats) : float :=
  float_value (quotient (wrong_acceptances aggr) (total aggr)).

Definition ce (aggr : ErrorStats) : float :=
  float_value (quotient (wrongly_classified aggr) (total aggr)).

Definition cls_ratio (aggr : ErrorStats) : float :=
  float_value (quotient (correctly_classified aggr)
                        (size_add (correctly_classified aggr)
                                  (wrongly_classified aggr))).

(** ** Vocabulary of the statements *)

(** *** Payload extraction *)

(** Index [i] is inside the readable bytes of [packet]. *)
Definition in_memory (packet : list byte) (i : N) : Prop :=
  i < N.of_nat (length packet).

(** The readable bytes fit a 64-bit address space, with room for one more
    header behind them. *)
Definition addressable (packet : list byte) : Prop :=
  N.of_nat (length packet) + 64 <= SIZE_MAX1.

(** A computation is [honest] when a [Fault] is always explained by a
    recorded read outside the readable bytes. *)
Definition honest {A} (packet : list byte) (m : M A) : Prop :=
  outcome m = Fault -> Exists (fun i => ¬ in_memory packet i) (reads m).

(** The protocol numbers for which the loop body has a branch. *)
Definition supported_l4 (p : N) : bool :=
  bool_decide (p ∈ [IPPROTO_TCP; IPPROTO_UDP; IPPROTO_IPIP; IPPROTO_ESP;
                    IPPROTO_ICMP; IPPROTO_ICMPV6; IPPROTO_FRAGMENT;
                    IPPROTO_IPV6]).

(** [loop_at packet o p o' p']: a loop entered with offset [o] and protocol
    [p] starts some pass with offset [o'] and protocol [p']. *)
Inductive loop_at (packet : list byte) (o p : N) : N -> N -> Prop :=
| loop_entry : loop_at packet o p o p
| loop_again o1 p1 o2 p2 :
    loop_at packet o p o1 p1 ->
    outcome (l4_body packet o1 p1) = Ok (Again o2 p2) ->
    loop_at packet o p o2 p2.

(** *** Label files *)

(** The lines of a label file that are not ignored, with their comments
    removed. *)
Definition kept_lines (ls : list string) : list string :=
  filter (fun l => l <> EmptyString) (remove_comment <$> ls).

Definition label_lines (text : string) : list string :=
  kept_lines (getlines text).

(** A line that reads as a state of the automaton followed by a value. *)
Definition well_formed_line (E : env) (nfa : FastNfa E) (l : string) : Prop :=
  match extract_label E l with
  | Some (s, _) => is_state E nfa s = true
  | None => False
  end.

(** [ret[s] = l] for one entry. *)
Definition store_label (m : gmap N N) (e : N * N) : gmap N N :=
  <[e.1 := e.2]> m.

(** *** Numeric options *)

(** A value [check_float] lets through with its default bounds, or the
    initial value of [eps] and [pct]. *)
Definition accepted (x : float) : Prop :=
  x = NaN \/ exists q, x = Finite q /\ (0 <= q)%Q /\ (q <= 1)%Q.

Definition accepted_or_unset (x : float) : Prop :=
  x = Finite (-1) \/ accepted x.

(** A value of the open interval from 0 to 1. *)
Definition in_open_unit (x : float) : Prop :=
  exists q, x = Finite q /\ (0 < q)%Q /\ (q < 1)%Q.

(** What the option loop keeps true of the two numeric variables. *)
Definition checked (o : options) : Prop :=
  accepted_or_unset (pct o) /\ accepted_or_unset (eps o).

(** *** Metrics *)

(** The counters are [size_t] values. *)
Definition counters_fit (aggr : ErrorStats) : Prop :=
  total aggr < SIZE_MAX1 /\ accepted_target aggr < SIZE_MAX1 /\
  accepted_reduced aggr < SIZE_MAX1 /\ wrongly_classified aggr < SIZE_MAX1 /\
  correctly_classified aggr < SIZE_MAX1.

(** [near q x]: [q] lies within [2^-23] of [x], relatively. *)
Definition near (q x : Q) : Prop :=
  (x * (1 - (1 # 8388608)) <= q /\ q <= x * (1 + (1 # 8388608)))%Q.

(** *** Rounding *)

Definition pow2 (e : Z) : Q := (2 ^ e)%Q.

(** [locates t mrs]: the shift record [mrs] stands for the number [t]: its
    mantissa is the integer part of [t], and its two bits say where [t] lies
    between the mantissa and its successor. *)
Definition locates (t : Q) (mrs : SpecFloat.shr_record) : Prop :=
  let m := inject_Z (SpecFloat.shr_m mrs) in
  match SpecFloat.shr_r mrs, SpecFloat.shr_s mrs with
  | false, false => (t == m)%Q
  | false, true => (m < t /\ t < m + (1 # 2))%Q
  | true, false => (t == m + (1 # 2))%Q
  | true, true => (m + (1 # 2) < t /\ t < m + 1)%Q
  end.

(** ** Concrete inputs for the examples *)

(** *** Frames *)

Definition B (n : N) : byte := default x00 (Byte.of_N n).
Definition zeros (n : nat) : list byte := replicate n x00.

Definition eth (ty : N) : list byte :=
  zeros 12 ++ [B (ty / 256); B (ty mod 256)].
Definition vlan (ty : N) : list byte :=
  zeros 12 ++ [B 0x81; B 0x00; B 0; B 1; B (ty / 256); B (ty mod 256)].
Definition ip4 (proto : N) : list byte := zeros 9 ++ [B proto] ++ zeros 10.
Definition ip6 (nxt : N) : list byte := zeros 6 ++ [B nxt] ++ zeros 33.
Definition tcp (th_off : N) : list byte :=
  zeros 12 ++ [B (th_off * 16)] ++ zeros 7.
Definition frag (nxt : N) : list byte := [B nxt] ++ zeros 7.

Definition hdr (cap wire : N) : pcap_pkthdr :=
  {| ts_sec := 0; ts_usec := 0; caplen := cap; len := wire |}.

(** The spec's scenario: Ethernet + VLAN + IPv4 + TCP with a 20-byte TCP
    header and 8 bytes behind it. *)
Definition vlan_tcp_frame : list byte :=
  vlan ETHERTYPE_IP ++ ip4 IPPROTO_TCP ++ tcp 5 ++ zeros 8.

(** A frame captured with a snapshot length of 14: only the Ethernet header
    is part of the capture, the bytes behind it are what the buffer holds. *)
Definition snap14_frame : list byte :=
  eth ETHERTYPE_IP ++ ip4 IPPROTO_TCP ++ tcp 5 ++ zeros 8.

(** The same frame in a buffer that ends with the 14 captured bytes. *)
Definition truncated_frame : list byte := take 14 snap14_frame.

(** Ethernet + IPv6 + IPv6 + TCP (20-byte header) + 8 bytes. *)
Definition ip6_in_ip6_frame : list byte :=
  eth ETHERTYPE_IPV6 ++ ip6 IPPROTO_IPV6 ++ ip6 IPPROTO_TCP ++ tcp 5
  ++ zeros 8.

(** Ethernet + IPv6 + IPv6 with the next-header number 99, which has no
    branch in the loop, + 28 bytes. *)
Definition ip6_in_ip6_unknown_frame : list byte :=
  eth ETHERTYPE_IPV6 ++ ip6 IPPROTO_IPV6 ++ ip6 99 ++ zeros 28.

(** The same nesting over IPv4, which the loop follows. *)
Definition ip4_in_ip4_frame : list byte :=
  eth ETHERTYPE_IP ++ ip4 IPPROTO_IPIP ++ ip4 IPPROTO_TCP ++ tcp 5
  ++ zeros 8.

(** Three nested IPv4 headers in front of UDP. *)
Definition nested_frame : list byte :=
  eth ETHERTYPE_IP ++ ip4 IPPROTO_IPIP ++ ip4 IPPROTO_IPIP
  ++ ip4 IPPROTO_UDP ++ zeros 8 ++ zeros 8.

(** Ethernet + IPv6 + fragment header + UDP + 8 bytes. *)
Definition fragment_frame : list byte :=
  eth ETHERTYPE_IPV6 ++ ip6 IPPROTO_FRAGMENT ++ frag IPPROTO_UDP ++ zeros 8
  ++ zeros 8.

(** *** An environment *)

(** Unsigned decimal extraction, for the examples: white space is skipped,
    then at least one digit is read. *)
Definition is_space (c : ascii) : bool :=
  let n := N_of_ascii c in (n =? 32) || ((9 <=? n) && (n <=? 13)).

Definition digit (c : ascii) : option N :=
  let n := N_of_ascii c in
  if (48 <=? n) && (n <=? 57) then Some (n - 48) else None.

Fixpoint skip_space (s : string) : string :=
  match s with
  | String c s' => if is_space c then skip_space s' else s
  | EmptyString => s
  end.

Fixpoint read_digits (acc : N) (s : string) : N * string :=
  match s with
  | String c s' =>
      match digit c with
      | Some d => read_digits (10 * acc + d) s'
      | None => (acc, s)
      end
  | EmptyString => (acc, s)
  end.

Definition read_unsigned (s : string) : option (N * string) :=
  match skip_space s with
  | String c s' =>
      match digit c with
      | Some d => Some (read_digits d s')
      | None => None
      end
  | EmptyString => None
  end.

(** An automaton for the examples: [sample_states] states, and a replay that
    calls the visitor on state [b mod sample_states] for every byte [b]. *)
Record sample_nfa : Type := { sample_states : N; sample_initial : N }.

Definition nl : string := String newline EmptyString.

Definition sample_labels : string :=
  "0 10" +:+ nl +:+ "1 5 # seen five times" +:+ nl +:+ nl +:+
  "# a comment" +:+ nl +:+ "2 7 3" +:+ nl +:+ "1 6".

Definition sample_env : env := {|
  FastNfa := sample_nfa;
  state_count := sample_states;
  get_initial_state_idx := sample_initial;
  parse_word := fun a payload => (fun b => u8 b mod sample_states a) <$> payload;
  is_state := fun a s => s <? sample_states a;
  read_from_file := fun name =>
    if decide (name = "sample.fa")
    then Value {| sample_states := 3; sample_initial := 0 |}
    else Throw "cannot open NFA file";
  file_contents := fun name =>
    if decide (name = "labels") then Some sample_labels
    else if decide (name = "indented") then Some "  # comment"
    else None;
  can_open_output := fun _ => true;
  extract_state := read_unsigned;
  extract_ulong := read_unsigned;
  stod := fun s =>
    if decide (s = "0") then Value (Finite 0)
    else if decide (s = "0.5") then Value (Finite (1 # 2))
    else if decide (s = "1") then Value (Finite 1)
    else if decide (s = "1.5") then Value (Finite (3 # 2))
    else if decide (s = "nan") then Value NaN
    else Throw "stod";
  float_to_string := fun _ => "x"
|}.

Definition sample : sample_nfa := {| sample_states := 3; sample_initial := 0 |}.

(** *** Aggregated statistics *)

Definition sample_stats : ErrorStats :=
  {| total := 1000; accepted_target := 40; accepted_reduced := 55;
     wrongly_classified := 15; correctly_classified := 985 |}.

Definition wrapped_stats : ErrorStats :=
  {| total := 1000; accepted_target := 55; accepted_reduced := 40;
     wrongly_classified := 15; correctly_classified := 985 |}.

(** ** [process_payload] (pcap_reader.h, lines 54-78) *)

(** What one successful [pcap_next_ex] hands out: the header and the
    packet pointer. *)
Record frame : Type := {
  frame_header : pcap_pkthdr;
  frame_packet : list byte
}.

(** Conversion of a [long] to [int]: the value is reduced modulo [2^32] into
    the range of a 32-bit signed integer. *)
Definition to_int (z : Z) : Z := ((z + 2 ^ 31) mod 2 ^ 32 - 2 ^ 31)%Z.

(** One call [func(payload, len)]; [payload] is [call_packet + call_offset]. *)
Record call : Type := {
  call_packet : list byte;
  call_offset : N;
  call_len : Z
}.

(** [int len = header->caplen - (payload - packet)]. *)
Definition payload_len (header : pcap_pkthdr) (payload : N) : Z :=
  to_int (Z.of_N (caplen header) - Z.of_N payload).

(** The [while] loop over the frames that [pcap_next_ex] delivers.  The
    calls of [func] are collected in program order; the run ends normally
    or in a read outside readable memory. *)
Fixpoint process_frames (frames : list frame) (count : N)
  : list call * result unit :=
  match frames with
  | [] => ([], Ok tt)
  | f :: frames =>
      if count =? 0 then ([], Ok tt)
      else
        match outcome (get_payload (frame_packet f) (frame_header f)) with
        | Ok payload =>
            let len := payload_len (frame_header f) payload in
            if (0 <? len)%Z then
              let r := process_frames frames (count - 1) in
              ({| call_packet := frame_packet f; call_offset := payload;
                  call_len := len |} :: fst r, snd r)
            else process_frames frames count
        | Fault => ([], Fault)
        | OutOfFuel => ([], OutOfFuel)
        end
  end.

(** [pcap_open_offline] is the capture library's: the frames of the file, or
    [None] when it cannot be opened. *)
Definition process_payload (pcap_open_offline : string -> option (list frame))
    (capturefile : string) (count : N) : except (list call * result unit) :=
  match pcap_open_offline capturefile with
  | None => Throw ("cannot open pcap file '" +:+ capturefile +:+ "'")
  | Some frames => Value (process_frames frames count)
  end.

(** The call a frame gives rise to, if any. *)
Definition call_of (f : frame) : option call :=
  match outcome (get_payload (frame_packet f) (frame_header f)) with
  | Ok payload =>
      let len := payload_len (frame_header f) payload in
      if (0 <? len)%Z
      then Some {| call_packet := frame_packet f; call_offset := payload;
                   call_len := len |}
      else None
  | _ => None
  end.

(** The header of a frame as the capture library fills it:
    [caplen] is a [bpf_u_int32]. *)
Definition u32_caplen (f : frame) : Prop := caplen (frame_header f) < 2 ^ 32.

(** A call made for one of [frames]: the payload is not empty, its length
    fits an [int], and it ends at the captured length of its frame. *)
Definition delivered_from (frames : list frame) (c : call) : Prop :=
  (0 < call_len c < 2 ^ 31)%Z /\
  exists f, f ∈ frames /\ call_packet c = frame_packet f /\
    (Z.of_N (call_offset c) + call_len c
     = Z.of_N (caplen (frame_header f)))%Z.

(** A capture file for the examples: a VLAN frame with 8 payload bytes, a
    frame cut after its Ethernet header, nested IPv4 with 8 payload bytes
    and an IPv6 fragment with 8 payload bytes. *)
Definition sample_frames : list frame :=
  [ {| frame_header := hdr 66 66; frame_packet := vlan_tcp_frame |};
    {| frame_header := hdr 14 62; frame_packet := snap14_frame |};
    {| frame_header := hdr 90 90; frame_packet := nested_frame |};
    {| frame_header := hdr 78 78; frame_packet := fragment_frame |} ].

Definition sample_capture (name : string) : option (list frame) :=
  if decide (name = "sample.pcap") then Some sample_frames else None.

(** ** [print_readable] (pcap_reader.h, lines 174-184) *)

(** [isprint] in the "C" locale, which is in effect in a program that does
    not call [setlocale]: the characters from space to tilde. *)
Definition isprint (c : N) : bool := (32 <=? c) && (c <=? 126).

(** The character [printf] writes for one hexadecimal digit under [%x]. *)
Definition hex_digit (d : N) : byte :=
  if d <? 10 then B (48 + d) else B (87 + d).

(** What the body of the loop writes for the byte value [c]: [%c], or
    [\x] followed by two hexadecimal digits ([%.2x]). *)
Definition print_byte (c : N) : list byte :=
  if isprint c then [B c]
  else ["\"%byte; "x"%byte; hex_digit (c / 16); hex_digit (c mod 16)].

(** [for (unsigned i = 0; i < length; i++)] with [n] iterations left; the
    value is what the iterations write to the standard output. *)
Fixpoint print_loop (n : nat) (payload : list byte) (i : N) : M (list byte) :=
  match n with
  | O => mret []
  | S n =>
      c ← load8 payload i;
      rest ← print_loop n payload (i + 1);
      mret (print_byte c ++ rest)
  end.

Definition print_readable (payload : list byte) (length : N) : M (list byte) :=
  out ← print_loop (N.to_nat length) payload 0;
  mret (out ++ ["010"%byte]).

(** The characters written for a sequence of bytes. *)
Definition rendering (l : list byte) : list byte :=
  concat ((fun b => print_byte (u8 b)) <$> l).

(** ** The frequency branch of [main] (reduce.cpp, lines 159-168) *)

(** The lambda that is called on every payload:
    [total++; label_states(nfa, state_freq, payload, len)].  [None] is an
    index outside a vector, as for [label_states]. *)
Definition count_payload (E : env)
    (st : option (N * FastNfa E * list N)) (payload : list byte)
  : option (N * FastNfa E * list N) :=
  '(total, nfa, state_freq) ← st;
  '(nfa, state_freq) ← label_states E nfa state_freq payload;
  Some (size_add total 1, nfa, state_freq).

(** [size_t total = 0; vector<size_t> state_freq(nfa.state_count());]
    followed by the calls of the lambda on the payloads of the capture. *)
Definition count_frequencies (E : env) (nfa : FastNfa E)
    (payloads : list (list byte)) : option (N * FastNfa E * list N) :=
  foldl (count_payload E)
        (Some (0, nfa, replicate (N.to_nat (state_count E nfa)) 0))
        payloads.

(** In how many of the payloads the visitor is called on state [i]. *)
Definition visits (E : env) (nfa : FastNfa E) (i : nat)
    (payloads : list (list byte)) : N :=
  N.of_nat (length (filter (fun p => N.of_nat i ∈ parse_word E nfa p)
                           payloads)).

(** ** The option loop of [main] (reduce.cpp, lines 104-135) *)

(** The argument of the last occurrence of option [c]. *)
Fixpoint last_arg (c : ascii) (opts : list (ascii * string)) : option string :=
  match opts with
  | [] => None
  | (c', optarg) :: opts =>
      match last_arg c opts with
      | Some a => Some a
      | None => if decide (c' = c) then Some optarg else None
      end
  end.

(** By how much an option moves [opt_cnt]. *)
Definition option_weight (c : ascii) : Z :=
  if bool_decide (c ∈ ["o"; "e"; "p"; "t"]%char) then 2 else 1.

(** An option the loop goes past: [-o], [-f], [-t], or [-e] and [-p] with an
    argument that converts to a value [check_float] lets through. *)
Definition passable (E : env) (opt : ascii * string) : Prop :=
  opt.1 ∈ ["o"; "f"; "t"]%char \/
  (opt.1 ∈ ["e"; "p"]%char /\
   exists x, stod E opt.2 = Value x /\ accepted x).

(** ** The frequency file (reduce.cpp, lines 170-178)

    [state_map] stands for [nfa.get_reversed_state_map()] and [state_depth]
    for [nfa.state_depth()]; both belong to the automaton class, which is
    not among the sources.  [None] is an index outside [state_freq]. *)

(** [out << state_map[i] << " " << state_freq[i] << " "
         << state_depth[state_map[i]] << "\n"]. *)
Definition frequency_line (state_map state_depth : N -> N)
    (state_freq : list N) (out : option string) (i : nat) : option string :=
  out ← out;
  f ← state_freq !! i;
  Some (out +:+ to_string (state_map (N.of_nat i)) +:+ " " +:+ to_string f
        +:+ " " +:+ to_string (state_depth (state_map (N.of_nat i))) +:+ nl).

Definition write_frequencies (E : env) (nfa : FastNfa E)
    (state_map state_depth : N -> N) (total : N) (state_freq : list N)
  : option string :=
  foldl (frequency_line state_map state_depth state_freq)
        (Some ("# Total packets : " +:+ to_string total +:+ nl))
        (seq 0 (N.to_nat (state_count E nfa))).

(** Every character of a string satisfies [P]. *)
Fixpoint all_chars (P : ascii -> Prop) (s : string) : Prop :=
  match s with
  | EmptyString => True
  | String c s => P c /\ all_chars P s
  end.

(** The text of lines that each end in a newline. *)
Definition unlines (ls : list string) : string :=
  foldr (fun l acc => l +:+ nl +:+ acc) "" ls.

(** A character that is neither a newline nor a [#]. *)
Definition plain (c : ascii) : Prop := c <> newline /\ c <> hash.

(** One row of the frequency file, without its newline, and the rows for a
    list of state indices. *)
Definition row (state_map state_depth : N -> N) (state_freq : list N)
    (i : nat) : string :=
  to_string (state_map (N.of_nat i)) +:+ " " +:+
  to_string (default 0 (state_freq !! i)) +:+ " " +:+
  to_string (state_depth (state_map (N.of_nat i))).

(** The label that a row stands for. *)
Definition entry (state_map : N -> N) (state_freq : list N) (i : nat)
  : N * N :=
  (state_map (N.of_nat i), default 0 (state_freq !! i)).

(** The text starts with a decimal digit. *)
Definition head_digit (s : string) : Prop :=
  match s with
  | String c _ => is_Some (digit c)
  | EmptyString => False
  end.

(** The stream extraction reads back what [to_string] writes for a value of
    the 64-bit type it extracts into: a number at the start of the text, or
    behind one space, when a space follows it. *)
Definition reads_back (extract : string -> option (N * string)) : Prop :=
  forall n rest,
    n < SIZE_MAX1 ->
    extract (to_string n +:+ " " +:+ rest) = Some (n, " " +:+ rest) /\
    extract (" " +:+ to_string n +:+ " " +:+ rest) = Some (n, " " +:+ rest).

(** An environment whose file ["freq"] holds the frequencies written for
    the sample automaton. *)
Definition written_env : env := {|
  FastNfa := sample_nfa;
  state_count := sample_states;
  get_initial_state_idx := sample_initial;
  parse_word := parse_word sample_env;
  is_state := is_state sample_env;
  read_from_file := read_from_file sample_env;
  file_contents := fun name =>
    if decide (name = "freq")
    then write_frequencies sample_env sample (fun s => s) (fun s => s + 1) 3
           [4; 2; 1]
    else None;
  can_open_output := fun _ => true;
  extract_state := read_unsigned;
  extract_ulong := read_unsigned;
  stod := stod sample_env;
  float_to_string := float_to_string sample_env
|}.


(** ** Frames with a header taken out *)

(** [cut a c packet]: the buffer without the [c] bytes that start at index
    [a]. *)
Definition cut (a c : nat) (packet : list byte) : list byte :=
  take a packet ++ drop (a + c) packet.

(** The frame without its 802.1Q tag (bytes 12-15), and an untagged frame
    without the IPv4 header that follows the Ethernet header (bytes
    14-33). *)
Definition untag (packet : list byte) : list byte := cut 12 4 packet.
Definition decapsulate (packet : list byte) : list byte := cut 14 20 packet.

(** A result [c] bytes further into the buffer. *)
Definition moved (c : N) (r : result N) : result N :=
  match r with
  | Ok k => Ok (k + c)
  | Fault => Fault
  | OutOfFuel => OutOfFuel
  end.

(** ** The sweep of [par_test.cpp] (lines 35-74)

    [threshold] is a [float] and the literals [0.975] and [0.005] are
    [double]s. *)

(** [float threshold = 0.975], [threshold < 1] (the [int] becomes a
    [float]) and [threshold += 0.005] (the sum is a [double], stored in a
    [float]). *)
Definition threshold_init : SpecFloat.spec_float :=
  double_to_float (double_literal 975 3).
Definition threshold_test (threshold : SpecFloat.spec_float) : bool :=
  SpecFloat.SFltb threshold (binary32 1 0).
Definition threshold_step (threshold : SpecFloat.spec_float)
  : SpecFloat.spec_float :=
  double_to_float
    (SpecFloat.SFadd 53 1024 (float_to_double threshold) (double_literal 5 3)).

(** The inner loop, lines 40-73.  A pass reduces, measures and prints one
    row, which starts with [iter] and [threshold]; the value is the list of
    these pairs, for passes that all come to their end.  [None]: the budget
    of passes is used up. *)
Fixpoint threshold_loop (fuel : nat) (iter : Z)
    (threshold : SpecFloat.spec_float)
  : option (list (Z * SpecFloat.spec_float)) :=
  match fuel with
  | O => None
  | S fuel =>
      if threshold_test threshold then
        if (iter =? 0)%Z then Some [(iter, threshold)]
        else
          rows ← threshold_loop fuel iter (threshold_step threshold);
          Some ((iter, threshold) :: rows)
      else Some []
  end.

(** [for (int iter = 0; iter < 11; iter += 1)], lines 35-74. *)
Definition sweep (fuel : nat) : option (list (Z * SpecFloat.spec_float)) :=
  rows ← mapM (fun iter => threshold_loop fuel iter threshold_init)
              (seqZ 0 11);
  Some (concat rows).

(** The binary32 number [(16357786 + 83886 k) / 2^24]. *)
Definition threshold_value (k : Z) : SpecFloat.spec_float :=
  SpecFloat.S754_finite false (Z.to_pos (16357786 + 83886 * k)) (-24).
(** * Payload extraction: reads, faults and the iteration budget *)

Section Reads.
Context {A B : Type}.

Lemma outcome_bind (m : M A) (k : A -> M B) :
  outcome (m ≫= k) =
  match outcome m with
  | Ok a => outcome (k a)
  | Fault => Fault
  | OutOfFuel => OutOfFuel
  end.
Proof. destruct m as [t [a| |]]; reflexivity. Qed.

Lemma reads_bind (m : M A) (k : A -> M B) :
  reads (m ≫= k) =
  reads m ++ match outcome m with
             | Ok a => reads (k a)
             | _ => []
             end.
Proof.
  destruct m as [t [a| |]]; cbn; try reflexivity;
    symmetry; apply app_nil_r.
Qed.

Lemma outcome_ret (a : A) : outcome (mret a : M A) = Ok a.
Proof. reflexivity. Qed.

Lemma reads_ret (a : A) : reads (mret a : M A) = [].
Proof. reflexivity. Qed.
End Reads.

Lemma honest_ret {A} packet (a : A) : honest packet (mret a : M A).
Proof. intros H; discriminate H. Qed.

Lemma honest_bind {A B} packet (m : M A) (k : A -> M B) :
  honest packet m -> (forall a, honest packet (k a)) ->
  honest packet (m ≫= k).
Proof.
  intros Hm Hk. unfold honest. rewrite outcome_bind, reads_bind.
  destruct (outcome m) as [a| |] eqn:Em; intros Hf; try discriminate Hf.
  - apply Exists_app. right. by apply Hk.
  - apply Exists_app. left. by apply Hm.
Qed.

Lemma load8_ok packet i v :
  outcome (load8 packet i) = Ok v -> in_memory packet i /\ v < 256.
Proof.
  unfold load8, outcome, in_memory; cbn.
  destruct (packet !! N.to_nat i) as [b|] eqn:Eb; intros H; [|discriminate H].
  injection H as <-. split.
  - apply lookup_lt_Some in Eb. lia.
  - unfold u8. pose proof (Byte.to_N_bounded b). lia.
Qed.

Lemma load8_in_memory packet i :
  in_memory packet i -> exists v, outcome (load8 packet i) = Ok v.
Proof.
  unfold load8, outcome, in_memory; cbn. intros Hi.
  destruct (packet !! N.to_nat i) as [b|] eqn:Eb; [eauto|].
  apply lookup_ge_None in Eb. lia.
Qed.

Lemma load8_reads packet i : reads (load8 packet i) = [i].
Proof. reflexivity. Qed.

Lemma load8_never_out_of_fuel packet i : outcome (load8 packet i) <> OutOfFuel.
Proof. unfold load8, outcome; cbn. by destruct (packet !! N.to_nat i). Qed.

Lemma honest_load8 packet i : honest packet (load8 packet i).
Proof.
  unfold honest, load8, outcome, reads, in_memory; cbn.
  destruct (packet !! N.to_nat i) as [b|] eqn:Eb; intros H; [discriminate H|].
  apply lookup_ge_None in Eb. constructor. lia.
Qed.

Ltac honesty :=
  repeat first
    [ apply honest_ret
    | apply honest_load8
    | apply honest_bind; [|intros ?]
    | match goal with
      | |- honest _ (if ?c then _ else _) => destruct c
      | |- honest _ (match ?x with _ => _ end) => destruct x
      end ].

Lemma honest_load16 packet i : honest packet (load16_ntohs packet i).
Proof. unfold load16_ntohs. honesty. Qed.

Lemma honest_link_layer packet : honest packet (link_layer packet).
Proof. unfold link_layer. repeat first [apply honest_load16 | honesty]. Qed.

Lemma honest_network_layer packet offset ty :
  honest packet (network_layer packet offset ty).
Proof. unfold network_layer. honesty. Qed.

Lemma honest_l4_body packet offset p : honest packet (l4_body packet offset p).
Proof. unfold l4_body. honesty. Qed.

Lemma honest_l4_loop fuel packet : forall offset p,
  honest packet (l4_loop fuel packet offset p).
Proof.
  induction fuel as [|fuel IH]; intros offset p; cbn [l4_loop].
  - intros H; discriminate H.
  - apply honest_bind; [apply honest_l4_body|].
    intros [o l|o l|]; [apply IH|apply honest_ret..].
Qed.

Lemma honest_skip_headers fuel packet : honest packet (skip_headers fuel packet).
Proof.
  unfold skip_headers. apply honest_bind; [apply honest_link_layer|].
  intros [offset ty]. apply honest_bind; [apply honest_network_layer|].
  intros [[o p]|]; [apply honest_l4_loop|apply honest_ret].
Qed.

Lemma honest_get_payload_fuel fuel packet header :
  honest packet (get_payload_fuel fuel packet header).
Proof.
  unfold get_payload_fuel. apply honest_bind; [apply honest_skip_headers|].
  intros [o|]; honesty.
Qed.

(** ** One pass of the loop *)

Lemma size_add_small a b : a + b < SIZE_MAX1 -> size_add a b = a + b.
Proof. intros H. unfold size_add. by apply N.mod_small. Qed.

Lemma size_add_bounded a b : size_add a b < SIZE_MAX1.
Proof. unfold size_add. apply N.mod_lt. unfold SIZE_MAX1. lia. Qed.

(** Computations built from reads and returns never report [OutOfFuel]. *)
Lemma finishes_ret {A} (a : A) : outcome (mret a : M A) <> OutOfFuel.
Proof. discriminate. Qed.

Lemma finishes_bind {A B} (m : M A) (k : A -> M B) :
  outcome m <> OutOfFuel -> (forall a, outcome (k a) <> OutOfFuel) ->
  outcome (m ≫= k) <> OutOfFuel.
Proof.
  intros Hm Hk. rewrite outcome_bind.
  destruct (outcome m) as [a| |]; [apply Hk|discriminate|done].
Qed.

Ltac finishing :=
  repeat first
    [ apply finishes_ret
    | apply load8_never_out_of_fuel
    | apply finishes_bind; [|intros ?]
    | match goal with
      | |- outcome (if ?c then _ else _) <> _ => destruct c
      | |- outcome (match ?x with _ => _ end) <> _ => destruct x
      end ].

Ltac split_protocol :=
  match goal with
  | |- context [N.eqb ?a ?b] => destruct (N.eqb_spec a b)
  | H : context [N.eqb ?a ?b] |- _ => destruct (N.eqb_spec a b)
  end.

Ltac read_ok H :=
  rewrite outcome_bind in H;
  match type of H with
  | context [outcome (load8 ?p ?i)] =>
      let v := fresh "v" in
      let Ev := fresh "Ev" in
      destruct (outcome (load8 p i)) as [v| |] eqn:Ev;
      [apply load8_ok in Ev | discriminate H | discriminate H]
  end.

(** A pass that asks for another one belongs to IP-in-IP or to the IPv6
    fragment header, has read a byte at or behind its offset, and has moved
    the offset forward by that header's size. *)
Lemma l4_body_again packet offset p offset' p' :
  addressable packet ->
  outcome (l4_body packet offset p) = Ok (Again offset' p') ->
  in_memory packet offset /\
  ((p = IPPROTO_IPIP /\ offset' = offset + sizeof_ip) \/
   (p = IPPROTO_FRAGMENT /\ offset' = offset + sizeof_ip6_frag)).
Proof.
  unfold addressable, in_memory, l4_body. intros Ha H.
  repeat split_protocol; try (read_ok H); cbn in H; try discriminate H;
    injection H as <- <-; destruct Ev as [Hm _]; unfold in_memory in Hm;
    autounfold with hdr in *.
  - split; [lia|]. left. split; [done|]. apply size_add_small. lia.
  - split; [lia|]. right. split; [done|]. apply size_add_small. lia.
Qed.

Lemma l4_body_never_out_of_fuel packet offset p :
  outcome (l4_body packet offset p) <> OutOfFuel.
Proof. unfold l4_body. finishing. Qed.

(** An unsupported protocol number makes the pass return the end of the
    capture, and nothing else does. *)
Lemma l4_body_unsupported packet offset p :
  supported_l4 p = false -> l4_body packet offset p = mret ReturnEnd.
Proof.
  unfold supported_l4. intros H. apply bool_decide_eq_false in H.
  unfold l4_body.
  repeat split_protocol; try reflexivity; exfalso; apply H; subst p;
    set_solver.
Qed.

Lemma l4_body_return_end packet offset p :
  outcome (l4_body packet offset p) = Ok ReturnEnd -> supported_l4 p = false.
Proof.
  unfold l4_body. intros H.
  repeat split_protocol; try (read_ok H); cbn in H; try discriminate H.
  unfold supported_l4. apply bool_decide_eq_false.
  rewrite !elem_of_cons, elem_of_nil. intuition congruence.
Qed.

(** ** The iteration budget *)

Lemma bind_pair {A B} (t : list N) (r : result A) (k : A -> M B) :
  ((t, r) : M A) ≫= k =
  match r with
  | Ok a => (t ++ reads (k a), outcome (k a))
  | Fault => (t, Fault)
  | OutOfFuel => (t, OutOfFuel)
  end.
Proof. by destruct r. Qed.

(** More fuel does not change a run that did not run out of it. *)
Lemma l4_loop_more_fuel packet : forall fuel fuel' offset p,
  (fuel <= fuel')%nat ->
  outcome (l4_loop fuel packet offset p) <> OutOfFuel ->
  l4_loop fuel' packet offset p = l4_loop fuel packet offset p.
Proof.
  induction fuel as [|fuel IH]; intros fuel' offset p Hle Hne.
  - by destruct Hne.
  - destruct fuel' as [|fuel']; [lia|]. cbn [l4_loop] in *.
    destruct (l4_body packet offset p) as [t [[o l|o l|]| |]] eqn:Eb;
      rewrite !bind_pair in *; try reflexivity.
    rewrite IH; [done|lia|]. exact Hne.
Qed.

(** With more fuel than bytes between the offset and the end of the readable
    bytes, the loop does not run out of fuel. *)
Lemma l4_loop_enough_fuel packet : forall fuel offset p,
  addressable packet ->
  (N.to_nat (N.of_nat (length packet) - offset) < fuel)%nat ->
  outcome (l4_loop fuel packet offset p) <> OutOfFuel.
Proof.
  induction fuel as [|fuel IH]; intros offset p Ha Hfuel; [lia|].
  cbn [l4_loop]. rewrite outcome_bind.
  destruct (outcome (l4_body packet offset p)) as [[o l|o l|]| |] eqn:Eb;
    try discriminate.
  - apply l4_body_again in Eb as [Hm Hstep]; [|done].
    unfold in_memory in Hm. apply IH; [done|].
    autounfold with hdr in Hstep. destruct Hstep as [[_ ->]|[_ ->]]; lia.
  - by apply l4_body_never_out_of_fuel in Eb.
Qed.

Lemma skip_headers_more_fuel packet fuel :
  addressable packet -> (length packet < fuel)%nat ->
  skip_headers fuel packet = skip_headers (S (length packet)) packet.
Proof.
  intros Ha Hf. unfold skip_headers.
  destruct (link_layer packet) as [t [[offset ty]| |]]; rewrite !bind_pair;
    try reflexivity.
  destruct (network_layer packet offset ty) as [t' [[[o p]|]| |]];
    rewrite !bind_pair; try reflexivity.
  rewrite (l4_loop_more_fuel packet (S (length packet)) fuel); [done|lia|].
  apply l4_loop_enough_fuel; [done|lia].
Qed.

Lemma link_layer_never_out_of_fuel packet :
  outcome (link_layer packet) <> OutOfFuel.
Proof. unfold link_layer, load16_ntohs. finishing. Qed.

Lemma network_layer_never_out_of_fuel packet offset ty :
  outcome (network_layer packet offset ty) <> OutOfFuel.
Proof. unfold network_layer. finishing. Qed.

Lemma skip_headers_never_out_of_fuel packet :
  addressable packet ->
  outcome (skip_headers (S (length packet)) packet) <> OutOfFuel.
Proof.
  intros Ha. unfold skip_headers. rewrite outcome_bind.
  destruct (outcome (link_layer packet)) as [[offset ty]| |] eqn:El;
    [|discriminate|by apply link_layer_never_out_of_fuel in El].
  rewrite outcome_bind.
  destruct (outcome (network_layer packet offset ty)) as [[[o p]|]| |] eqn:En;
    [| |discriminate|by apply network_layer_never_out_of_fuel in En].
  - apply l4_loop_enough_fuel; [done|lia].
  - cbn. discriminate.
Qed.

(** ** The result of [get_payload] *)

Lemma get_payload_outcome packet header :
  outcome (get_payload packet header) =
  match outcome (skip_headers (S (length packet)) packet) with
  | Ok None => Ok (caplen header)
  | Ok (Some offset) =>
      Ok (if caplen header <? offset then caplen header else offset)
  | Fault => Fault
  | OutOfFuel => OutOfFuel
  end.
Proof.
  unfold get_payload, get_payload_fuel. rewrite outcome_bind.
  destruct (outcome (skip_headers _ packet)) as [[offset|]| |]; try done.
  by destruct (caplen header <? offset).
Qed.

Lemma get_payload_reads packet header :
  reads (get_payload packet header) =
  reads (skip_headers (S (length packet)) packet).
Proof.
  unfold get_payload, get_payload_fuel. rewrite reads_bind.
  destruct (outcome (skip_headers _ packet)) as [[offset|]| |];
    rewrite ?app_nil_r; try done.
  destruct (caplen header <? offset); cbn; by rewrite app_nil_r.
Qed.

Lemma skip_headers_outcome fuel packet :
  outcome (skip_headers fuel packet) =
  match outcome (link_layer packet) with
  | Ok (offset, ty) =>
      match outcome (network_layer packet offset ty) with
      | Ok None => Ok None
      | Ok (Some (o, p)) => outcome (l4_loop fuel packet o p)
      | Fault => Fault
      | OutOfFuel => OutOfFuel
      end
  | Fault => Fault
  | OutOfFuel => OutOfFuel
  end.
Proof.
  unfold skip_headers. rewrite outcome_bind.
  destruct (outcome (link_layer packet)) as [[offset ty]| |]; try done.
  rewrite outcome_bind.
  by destruct (outcome (network_layer packet offset ty)) as [[[o p]|]| |].
Qed.

(** A loop that ends with a result ends with the same result when it is
    entered at any state one of its passes starts with. *)
Lemma loop_at_result packet o p o' p' :
  loop_at packet o p o' p' ->
  forall fuel r,
    outcome (l4_loop fuel packet o p) = Ok r ->
    exists fuel', outcome (l4_loop fuel' packet o' p') = Ok r.
Proof.
  induction 1 as [|o1 p1 o2 p2 _ IH Hb]; intros fuel r Hr; [eauto|].
  destruct (IH fuel r Hr) as [[|fuel'] Hf]; [discriminate Hf|].
  cbn [l4_loop] in Hf. rewrite outcome_bind, Hb in Hf. eauto.
Qed.

Lemma l4_loop_unsupported fuel packet o p r :
  supported_l4 p = false ->
  outcome (l4_loop fuel packet o p) = Ok r -> r = None.
Proof.
  intros Hp. destruct fuel as [|fuel]; [discriminate|].
  cbn [l4_loop]. rewrite (l4_body_unsupported _ _ _ Hp).
  cbn. congruence.
Qed.

Lemma no_fault packet {A} (m : M A) :
  honest packet m -> Forall (in_memory packet) (reads m) ->
  outcome m <> Fault.
Proof.
  intros Hh Hall Hf. apply Hh in Hf.
  apply Exists_exists in Hf as (i & Hi & Hout).
  rewrite Forall_forall in Hall. auto.
Qed.

(** The claim as written fails on two frames.  The first is a frame of
    which only the Ethernet header was captured, in a buffer that ends with
    it: the protocol field at byte 23 is read behind the buffer, and the run
    ends in that read, not with a pointer.  The second is IPv6 in IPv6 with
    an inner next-header number that has no branch: the result is
    [packet + 94], not the end of the 122 captured bytes. *)
Lemma get_payload_outside_claim :
  length truncated_frame = 14%nat /\
  get_payload truncated_frame (hdr 14 62) = ([12; 13; 23], Fault) /\
  supported_l4 99 = false /\
  outcome (get_payload ip6_in_ip6_unknown_frame (hdr 122 122)) = Ok 94.
Proof. repeat split; reflexivity. Qed.

(** C1.  [get_payload] has no throwing path, and in a buffer that fits the
    address space a run ends in one of two ways: in a header read outside
    readable memory, or with a pointer [packet + k] with [k <= caplen].  The
    result is [packet + caplen] whenever the network-layer type is neither
    IPv4 nor IPv6, whenever some pass of the loop starts with a protocol
    number that has no branch, and whenever the offset after the loop exceeds
    [caplen]; otherwise it is [packet + offset]. *)
Theorem get_payload_within_capture packet header :
  addressable packet ->
  match outcome (get_payload packet header) with
  | Ok k =>
      k <= caplen header /\
      (forall offset ty,
          outcome (link_layer packet) = Ok (offset, ty) ->
          ty <> ETHERTYPE_IP -> ty <> ETHERTYPE_IPV6 ->
          k = caplen header) /\
      (forall offset ty o p o' p',
          outcome (link_layer packet) = Ok (offset, ty) ->
          outcome (network_layer packet offset ty) = Ok (Some (o, p)) ->
          loop_at packet o p o' p' ->
          supported_l4 p' = false ->
          k = caplen header) /\
      (forall offset,
          outcome (skip_headers (S (length packet)) packet)
            = Ok (Some offset) ->
          (caplen header < offset -> k = caplen header) /\
          (offset <= caplen header -> k = offset))
  | Fault =>
      Exists (fun i => ¬ in_memory packet i)
             (reads (get_payload packet header))
  | OutOfFuel => False
  end.
Proof.
  intros Ha.
  pose proof (skip_headers_never_out_of_fuel packet Ha) as Hfuel.
  destruct (outcome (get_payload packet header)) as [k| |] eqn:Ek.
  - rewrite get_payload_outcome in Ek.
    destruct (outcome (skip_headers (S (length packet)) packet))
      as [r| |] eqn:Es; [|done|done].
    assert (Hk : k = match r with
                     | None => caplen header
                     | Some offset =>
                         if caplen header <? offset then caplen header
                         else offset
                     end) by (destruct r; congruence).
    clear Ek. subst k. split.
    { destruct r as [offset|]; [|lia].
      destruct (N.ltb_spec (caplen header) offset); lia. }
    split; [|split].
    + intros offset ty El Hip Hip6.
      rewrite skip_headers_outcome, El in Es. unfold network_layer in Es.
      destruct (N.eqb_spec ETHERTYPE_IP ty); [congruence|].
      destruct (N.eqb_spec ETHERTYPE_IPV6 ty); [congruence|].
      cbn in Es. by injection Es as <-.
    + intros offset ty o p o' p' El En Hat Hp.
      rewrite skip_headers_outcome, El, En in Es.
      destruct (loop_at_result _ _ _ _ _ Hat _ _ Es) as [fuel' Hf].
      by rewrite (l4_loop_unsupported _ _ _ _ _ Hp Hf).
    + intros offset [= ->]. split; intros Hc.
      * apply N.ltb_lt in Hc. by rewrite Hc.
      * destruct (N.ltb_spec (caplen header) offset); [lia|done].
  - exact (honest_get_payload_fuel _ packet header Ek).
  - rewrite get_payload_outcome in Ek.
    destruct (outcome (skip_headers (S (length packet)) packet))
      as [r| |]; [by destruct r|done|done].
Qed.

Lemma get_payload_within_capture_witness :
  addressable vlan_tcp_frame /\ addressable truncated_frame /\
  (exists k,
     outcome (get_payload vlan_tcp_frame (hdr 66 66)) = Ok k /\
     k <= caplen (hdr 66 66)) /\
  Exists (fun i => ¬ in_memory truncated_frame i)
         (reads (get_payload truncated_frame (hdr 14 62))).
Proof.
  assert (Ha : addressable vlan_tcp_frame) by (vm_compute; discriminate).
  assert (Ht : addressable truncated_frame) by (vm_compute; discriminate).
  split; [exact Ha|]. split; [exact Ht|].
  pose proof (get_payload_within_capture vlan_tcp_frame (hdr 66 66) Ha) as H.
  pose proof (get_payload_within_capture truncated_frame (hdr 14 62) Ht)
    as H'.
  change (outcome (get_payload vlan_tcp_frame (hdr 66 66))) with (Ok 58 : result N)
    in H.
  change (outcome (get_payload truncated_frame (hdr 14 62)))
    with (Fault : result N) in H'.
  split; [|exact H'].
  exists 58. split; [reflexivity|]. exact (proj1 H).
Defined.

(** The payload of the VLAN frame has 8 bytes; cut at the end of the TCP
    header it has none.  The fragment header is skipped and the loop goes on
    to UDP. *)
Example vlan_tcp_payload :
  outcome (get_payload vlan_tcp_frame (hdr 66 66)) = Ok 58 /\
  outcome (get_payload (take 58 vlan_tcp_frame) (hdr 58 66)) = Ok 58 /\
  outcome (get_payload fragment_frame (hdr 78 78)) = Ok 70.
Proof. repeat split; reflexivity. Qed.

(** ** Reads and the captured length *)

(** C2, counterexample.  On a capture of 14 bytes the function reads the
    IPv4 protocol field at byte 23 and the TCP data offset at byte 46, both
    behind the captured length, and decodes the TCP header at offset 34. *)
Lemma reads_behind_caplen :
  reads (get_payload snap14_frame (hdr 14 62)) = [12; 13; 23; 46] /\
  outcome (get_payload snap14_frame (hdr 14 62)) = Ok 14 /\
  ¬ Forall (fun i => i < caplen (hdr 14 62))
           (reads (get_payload snap14_frame (hdr 14 62))) /\
  loop_at snap14_frame 34 IPPROTO_TCP 34 IPPROTO_TCP /\
  caplen (hdr 14 62) < 34.
Proof.
  split; [reflexivity|]. split; [reflexivity|]. split; [|split].
  - intros H. vm_compute in H.
    do 2 apply Forall_inv_tail in H. apply Forall_inv in H.
    discriminate H.
  - constructor.
  - reflexivity.
Qed.

(** C2, as amended.  No read depends on the captured length: the byte offsets
    read are the same whatever [caplen] and [len] are, the first of them is
    the Ethernet type at offset 12 even when nothing was captured, and the
    captured length bounds only the pointer that is returned. *)
Theorem reads_ignore_caplen packet header header' :
  reads (get_payload packet header) = reads (get_payload packet header') /\
  (exists t, reads (get_payload packet header) = off_ether_type :: t) /\
  (forall k, outcome (get_payload packet header) = Ok k -> k <= caplen header).
Proof.
  split; [by rewrite !get_payload_reads|]. split.
  - rewrite get_payload_reads. unfold skip_headers, link_layer, load16_ntohs.
    rewrite !reads_bind, load8_reads. cbn [app]. eauto.
  - intros k. rewrite get_payload_outcome.
    destruct (outcome (skip_headers _ packet)) as [[offset|]| |];
      intros [= <-]; [|lia].
    destruct (N.ltb_spec (caplen header) offset); lia.
Qed.

Lemma reads_ignore_caplen_witness :
  outcome (get_payload snap14_frame (hdr 60 62)) = Ok 54 /\
  54 <= caplen (hdr 60 62) /\
  reads (get_payload snap14_frame (hdr 60 62)) =
  reads (get_payload snap14_frame (hdr 14 62)).
Proof.
  destruct (reads_ignore_caplen snap14_frame (hdr 60 62) (hdr 14 62))
    as (Hreads & _ & Hk).
  split; [reflexivity|]. split; [apply Hk; reflexivity|exact Hreads].
Defined.

(** ** IPv6 in IPv6 *)

(** C3.  A pass that starts with [IPPROTO_IPV6] reads the inner next-header
    field and advances by the IPv6 header length, but never asks for another
    pass: the loop ends there.  On Ethernet + IPv6 + IPv6 + TCP the function
    returns offset 94, the start of the TCP header, where the same nesting
    over IPv4 is followed to the end of the TCP header. *)
Theorem ipv6_in_ipv6_leaves_loop :
  (forall packet offset,
      match outcome (l4_body packet offset IPPROTO_IPV6) with
      | Ok (Leave offset' p') =>
          offset' = size_add offset sizeof_ip6_hdr /\
          outcome (load8 packet (offset + off_ip6_nxt)) = Ok p'
      | Ok (Again _ _) | Ok ReturnEnd | OutOfFuel => False
      | Fault => ¬ in_memory packet (offset + off_ip6_nxt)
      end) /\
  outcome (get_payload ip6_in_ip6_frame (hdr 122 122)) = Ok 94 /\
  outcome (get_payload ip4_in_ip4_frame (hdr 82 82)) = Ok 74.
Proof.
  split; [|split; reflexivity].
  intros packet offset. unfold l4_body. cbn [N.eqb IPPROTO_IPV6 IPPROTO_TCP
    IPPROTO_UDP IPPROTO_IPIP IPPROTO_ESP IPPROTO_ICMP IPPROTO_ICMPV6
    IPPROTO_FRAGMENT Pos.eqb].
  rewrite outcome_bind.
  destruct (outcome (load8 packet (offset + off_ip6_nxt))) as [v| |] eqn:Ev.
  - cbn. done.
  - intros Hm. apply load8_in_memory in Hm as [v Hv]. congruence.
  - by apply load8_never_out_of_fuel in Ev.
Qed.

(** ** The on-wire length *)



(** ** Termination *)

(** C10.  For every buffer that fits the address space the run of
    [get_payload] ends: the iteration budget of the model is never used up,
    and any larger budget gives the same run.  A pass either ends the loop or
    belongs to IP-in-IP or to the IPv6 fragment header, and then it moves the
    offset forward by 20 or by 8. *)
Theorem get_payload_terminates packet header :
  addressable packet ->
  outcome (get_payload packet header) <> OutOfFuel /\
  (forall fuel, (length packet < fuel)%nat ->
     get_payload_fuel fuel packet header = get_payload packet header) /\
  (forall offset p,
     match outcome (l4_body packet offset p) with
     | Ok (Again offset' _) =>
         offset < offset' /\
         ((p = IPPROTO_IPIP /\ offset' = offset + 20) \/
          (p = IPPROTO_FRAGMENT /\ offset' = offset + 8))
     | Ok (Leave _ _) | Ok ReturnEnd | Fault => True
     | OutOfFuel => False
     end).
Proof.
  intros Ha. split; [|split].
  - rewrite get_payload_outcome.
    pose proof (skip_headers_never_out_of_fuel packet Ha) as H.
    by destruct (outcome (skip_headers _ packet)) as [[o|]| |].
  - intros fuel Hf. unfold get_payload, get_payload_fuel.
    by rewrite (skip_headers_more_fuel packet fuel Ha Hf).
  - intros offset p.
    destruct (outcome (l4_body packet offset p)) as [[o' p'|o' p'|]| |] eqn:Eb;
      try done.
    + apply l4_body_again in Eb as [_ Hstep]; [|done].
      autounfold with hdr in Hstep.
      destruct Hstep as [[-> ->]|[-> ->]]; split; try lia; auto.
    + by apply l4_body_never_out_of_fuel in Eb.
Qed.

Lemma get_payload_terminates_witness :
  addressable nested_frame /\
  outcome (get_payload nested_frame (hdr 90 90)) <> OutOfFuel /\
  get_payload_fuel 1000 nested_frame (hdr 90 90) =
  get_payload nested_frame (hdr 90 90).
Proof.
  split; [vm_compute; discriminate|].
  destruct (get_payload_terminates nested_frame (hdr 90 90))
    as (Hne & Hfuel & _).
  - vm_compute; discriminate.
  - split; [exact Hne|]. apply Hfuel. vm_compute. lia.
Defined.

(** * State labelling *)

Lemma set_bit_foldl (visited : list N) : forall bm : list bool,
  Forall (fun s => (N.to_nat s < length bm)%nat) visited ->
  exists bm',
    foldl set_bit (Some bm) visited = Some bm' /\
    length bm' = length bm /\
    forall i : nat,
      bm' !! i =
      (fun b => b || bool_decide (N.of_nat i ∈ visited)) <$> bm !! i.
Proof.
  induction visited as [|s visited IH]; intros bm Hall.
  - exists bm. split; [done|]. split; [done|]. intros i.
    destruct (bm !! i) as [b|]; [|done]. cbn.
    rewrite bool_decide_eq_false_2; [by rewrite orb_false_r|].
    apply not_elem_of_nil.
  - apply Forall_cons in Hall as [Hs Hall]. cbn [foldl].
    unfold set_bit at 2. cbn. rewrite decide_True by done.
    destruct (IH (<[N.to_nat s := true]> bm)) as (bm' & Hf & Hlen & Hbits).
    { by rewrite length_insert. }
    exists bm'. split; [done|]. split; [by rewrite Hlen, length_insert|].
    intros i. rewrite Hbits.
    destruct (decide (i = N.to_nat s)) as [->|Hne].
    + rewrite list_lookup_insert_eq by done.
      destruct (lookup_lt_is_Some_2 bm (N.to_nat s) Hs) as [b ->]. cbn.
      f_equal. rewrite (bool_decide_eq_true_2 (_ ∈ s :: _)).
      * by rewrite orb_true_r.
      * rewrite N2Nat.id. apply list_elem_of_here.
    + rewrite list_lookup_insert_ne by done.
      destruct (bm !! i) as [b|]; [|done]. cbn. do 2 f_equal.
      apply bool_decide_ext. rewrite elem_of_cons. split; [tauto|].
      intros [He|H]; [|done]. lia.
Qed.

Lemma add_bit_foldl (bm : list bool) : forall (n a : nat) (state_freq : list N),
  (a + n <= length state_freq)%nat ->
  (length state_freq <= length bm)%nat ->
  exists state_freq',
    foldl (add_bit bm) (Some state_freq) (seq a n) = Some state_freq' /\
    length state_freq' = length state_freq /\
    forall i : nat,
      state_freq' !! i =
      if decide (a <= i < a + n)%nat
      then (fun f => size_add f (bit (default false (bm !! i))))
             <$> state_freq !! i
      else state_freq !! i.
Proof.
  induction n as [|n IH]; intros a state_freq Ha Hbm.
  - exists state_freq. split; [done|]. split; [done|]. intros i.
    rewrite decide_False by lia. done.
  - cbn [seq foldl]. unfold add_bit at 2. cbn.
    destruct (lookup_lt_is_Some_2 bm a) as [b Hb]; [lia|].
    destruct (lookup_lt_is_Some_2 state_freq a) as [f Hf]; [lia|].
    rewrite Hb, Hf. cbn.
    destruct (IH (S a) (<[a := size_add f (bit b)]> state_freq))
      as (sf' & Hfold & Hlen & Hsf').
    { rewrite length_insert. lia. }
    { by rewrite length_insert. }
    exists sf'. split; [done|]. split; [by rewrite Hlen, length_insert|].
    intros i. rewrite Hsf'.
    destruct (decide (i = a)) as [->|Hne].
    + rewrite decide_False by lia. rewrite decide_True by lia.
      rewrite list_lookup_insert_eq by lia. by rewrite Hf, Hb.
    + rewrite list_lookup_insert_ne by done.
      destruct (decide (S a <= i < S a + n)%nat);
        [rewrite decide_True by lia|rewrite decide_False by lia]; done.
Qed.

Lemma size_add_assoc a b c :
  size_add (size_add a b) c = (a + b + c) mod SIZE_MAX1.
Proof.
  unfold size_add.
  rewrite N.Div0.add_mod_idemp_l. done.
Qed.

(** C4.  One call of [label_states] adds to the counter of every state 1 if
    the visitor was called on that state at least once during the replay of
    this payload and 0 otherwise, and 1 more to the counter of the initial
    state; additions are those of [size_t].  The vector keeps its length and
    the automaton is handed back unchanged. *)
Theorem label_states_counts (E : env) (nfa : FastNfa E) (state_freq : list N)
    (payload : list byte) :
  Forall (fun s => s < state_count E nfa) (parse_word E nfa payload) ->
  (length state_freq <= N.to_nat (state_count E nfa))%nat ->
  (N.to_nat (get_initial_state_idx E nfa) < length state_freq)%nat ->
  exists state_freq',
    label_states E nfa state_freq payload = Some (nfa, state_freq') /\
    length state_freq' = length state_freq /\
    forall (i : nat) (f : N),
      state_freq !! i = Some f ->
      let visited := bit (bool_decide (N.of_nat i ∈ parse_word E nfa payload)) in
      let initial :=
        bit (bool_decide (N.of_nat i = get_initial_state_idx E nfa)) in
      state_freq' !! i = Some ((f + visited + initial) mod SIZE_MAX1) /\
      (f + 2 < SIZE_MAX1 -> state_freq' !! i = Some (f + visited + initial)).
Proof.
  intros Hvis Hlen Hinit. unfold label_states.
  destruct (set_bit_foldl (parse_word E nfa payload)
              (replicate (N.to_nat (state_count E nfa)) false))
    as (bm & -> & Hbmlen & Hbm).
  { rewrite length_replicate. eapply Forall_impl; [exact Hvis|].
    cbn. intros s Hs. lia. }
  rewrite length_replicate in Hbmlen. cbn.
  destruct (add_bit_foldl bm (length state_freq) 0 state_freq)
    as (sf1 & -> & Hlen1 & Hsf1); [lia|lia|]. cbn.
  unfold incr.
  destruct (lookup_lt_is_Some_2 sf1 (N.to_nat (get_initial_state_idx E nfa)))
    as [f0 Hf0]; [lia|].
  rewrite Hf0. cbn. eexists. split; [reflexivity|].
  split; [by rewrite length_insert|].
  intros i f Hi. cbv zeta.
  set (visited := bit (bool_decide (N.of_nat i ∈ parse_word E nfa payload))).
  set (initial := bit (bool_decide (N.of_nat i = get_initial_state_idx E nfa))).
  assert (Hil : (i < length state_freq)%nat) by (by eapply lookup_lt_Some).
  assert (Hi1 : sf1 !! i = Some (size_add f visited)).
  { rewrite Hsf1, decide_True by lia. rewrite Hi. cbn. do 2 f_equal.
    rewrite Hbm, lookup_replicate_2 by lia. done. }
  assert (Hmod : <[N.to_nat (get_initial_state_idx E nfa) := size_add f0 1]>
                   sf1 !! i = Some ((f + visited + initial) mod SIZE_MAX1)).
  { subst initial.
    destruct (decide (N.of_nat i = get_initial_state_idx E nfa)) as [He|Hne].
    - rewrite <- He, Nat2N.id in *. rewrite list_lookup_insert_eq by lia.
      rewrite bool_decide_eq_true_2 by done.
      rewrite Hi1 in Hf0. injection Hf0 as <-.
      by rewrite size_add_assoc.
    - rewrite list_lookup_insert_ne by lia.
      rewrite bool_decide_eq_false_2 by done. rewrite Hi1. cbn.
      unfold size_add. by rewrite N.add_0_r. }
  split; [exact Hmod|].
  intros Hsmall. rewrite Hmod. f_equal. apply N.mod_small.
  subst visited initial. unfold bit.
  repeat case_bool_decide; lia.
Qed.

Lemma label_states_counts_witness :
  Forall (fun s => s < state_count sample_env sample)
         (parse_word sample_env sample [B 1; B 4; B 7]) /\
  (length [4; 0; 9] <= N.to_nat (state_count sample_env sample))%nat /\
  (N.to_nat (get_initial_state_idx sample_env sample) < length [4; 0; 9])%nat /\
  exists state_freq',
    label_states sample_env sample [4; 0; 9] [B 1; B 4; B 7] =
      Some (sample, state_freq') /\
    state_freq' !! 0%nat = Some 5 /\
    state_freq' !! 1%nat = Some 1 /\
    state_freq' !! 2%nat = Some 9.
Proof.
  split; [vm_compute; repeat constructor|].
  split; [vm_compute; lia|]. split; [vm_compute; lia|].
  destruct (label_states_counts sample_env sample [4; 0; 9] [B 1; B 4; B 7])
    as (sf & Hrun & Hlen & Hsf).
  - vm_compute; repeat constructor.
  - vm_compute; lia.
  - vm_compute; lia.
  - exists sf. split; [exact Hrun|].
    destruct (Hsf 0%nat 4 eq_refl) as [H0 _].
    destruct (Hsf 1%nat 0 eq_refl) as [H1 _].
    destruct (Hsf 2%nat 9 eq_refl) as [H2 _].
    vm_compute in H0, H1, H2. auto.
Defined.


(** * Label files *)

Section Labels.
Context (E : env) (nfa : FastNfa E).

Lemma kept_lines_ignored buf ls :
  remove_comment buf = EmptyString -> kept_lines (buf :: ls) = kept_lines ls.
Proof.
  intros H. unfold kept_lines. rewrite fmap_cons, filter_cons_False; [done|].
  intros Hne. by apply Hne.
Qed.

Lemma kept_lines_kept buf ls :
  remove_comment buf <> EmptyString ->
  kept_lines (buf :: ls) = remove_comment buf :: kept_lines ls.
Proof.
  intros H. unfold kept_lines. by rewrite fmap_cons, filter_cons_True.
Qed.



Lemma read_lines_value : forall ls ret,
  Forall (well_formed_line E nfa) (kept_lines ls) ->
  read_lines E nfa ls ret =
  Value (foldl store_label ret (omap (extract_label E) (kept_lines ls))).
Proof.
  induction ls as [|buf ls IH]; intros ret Hall; [done|].
  cbn [read_lines].
  destruct (decide (remove_comment buf = EmptyString)) as [He|Hne].
  - rewrite (kept_lines_ignored _ _ He) in Hall |- *. by apply IH.
  - rewrite (kept_lines_kept _ _ Hne) in Hall |- *.
    apply Forall_cons in Hall as [Hx Hall]. unfold well_formed_line in Hx.
    cbn.
    destruct (extract_label E (remove_comment buf)) as [[s v]|]; [|done].
    rewrite Hx. cbn. by rewrite IH.
Qed.


Lemma foldl_store_label (entries : list (N * N)) : forall ret,
  foldl store_label ret entries = list_to_map (reverse entries) ∪ ret.
Proof.
  induction entries as [|[s v] entries IH]; intros ret.
  - cbn. by rewrite (left_id_L ∅ (∪)).
  - cbn [foldl]. rewrite IH, reverse_cons, list_to_map_app.
    unfold store_label. cbn [list_to_map foldr fst snd].
    rewrite <- (assoc_L (∪)). f_equal.
    by rewrite insert_union_singleton_l, insert_empty.
Qed.


End Labels.



Example read_state_labels_errors :
  read_state_labels sample_env sample "missing" = Throw "error loading NFA" /\
  read_state_labels sample_env sample "indented" =
    Throw "invalid state labels syntax" /\
  read_lines sample_env sample ["0 1"; "7 2"] ∅ = Throw "invalid NFA state: 7" /\
  read_lines sample_env sample ["0 1"; ""; "#x"; "2 5#y"] ∅ =
    Value (<[2 := 5]> (<[0 := 1]> ∅)).
Proof. repeat split; reflexivity. Qed.

(** * Option checking in [reduce.cpp] *)

Lemma Qlt_bool_false x y : Qlt_bool x y = false <-> (y <= x)%Q.
Proof.
  unfold Qlt_bool. rewrite negb_false_iff. apply Qle_bool_iff.
Qed.

Lemma check_float_passes (E : env) (x : float) :
  check_float_default E x = Value tt <-> accepted x.
Proof.
  unfold check_float_default, check_float, accepted, float_gt.
  destruct x as [q| | |]; cbn [float_lt orb].
  - destruct (Qlt_bool 1 q) eqn:E1; cbn [orb].
    + split; [discriminate|]. intros [?|(q' & [= <-] & H0 & H1)]; [done|].
      apply Qlt_bool_false in H1. congruence.
    + destruct (Qlt_bool q 0) eqn:E0.
      * split; [discriminate|]. intros [?|(q' & [= <-] & H0 & H1)]; [done|].
        apply Qlt_bool_false in H0. congruence.
      * split; [|done]. intros _. right. exists q.
        apply Qlt_bool_false in E1, E0. done.
  - split; [discriminate|]. by intros [?|(q' & ? & _)].
  - split; [discriminate|]. by intros [?|(q' & ? & _)].
  - split; [|done]. by left.
Qed.

Lemma check_float_rejects (E : env) (x : float) :
  ¬ accepted x -> exists what, check_float_default E x = Throw what.
Proof.
  intros Hx. destruct (check_float_default E x) as [[]|what] eqn:Ec; [|eauto].
  by apply check_float_passes in Ec.
Qed.

Section Options.
Context (E : env).

Lemma checked_initial : checked initial_options.
Proof. split; by left. Qed.

Lemma option_case_next o c optarg o' :
  option_case E o c optarg = Next o' ->
  checked o ->
  checked o' /\
  (c = "p"%char \/ c = "e"%char ->
   exists x, stod E optarg = Value x /\ accepted x).
Proof.
  unfold option_case, checked. intros H [Hp He].
  repeat case_decide; subst; try discriminate H;
    try (injection H as <-; cbn; split; [done|];
         intros [?|?]; discriminate).
  - destruct (stod E optarg) as [x|] eqn:Ex; [|discriminate H].
    cbn in H.
    destruct (check_float_default E x) as [[]|] eqn:Ec; [|discriminate H].
    cbn in H. injection H as <-. cbn.
    apply check_float_passes in Ec.
    split; [split; [done|by right]|]. intros _. eauto.
  - destruct (stod E optarg) as [x|] eqn:Ex; [|discriminate H].
    cbn in H.
    destruct (check_float_default E x) as [[]|] eqn:Ec; [|discriminate H].
    cbn in H. injection H as <-. cbn.
    apply check_float_passes in Ec.
    split; [split; [by right|done]|]. intros _. eauto.
Qed.

Lemma option_loop_next : forall opts o o',
  option_loop E o opts = Next o' ->
  checked o ->
  checked o' /\
  forall c optarg,
    (c, optarg) ∈ opts -> c = "p"%char \/ c = "e"%char ->
    exists x, stod E optarg = Value x /\ accepted x.
Proof.
  induction opts as [|[c optarg] opts IH]; intros o o' H Ho.
  - injection H as <-. split; [done|]. intros c optarg Hin.
    by apply elem_of_nil in Hin.
  - cbn [option_loop] in H.
    destruct (option_case E o c optarg) as [o1| |] eqn:Ec;
      try discriminate H.
    cbn in H. apply option_case_next in Ec as [Ho1 Hc]; [|done].
    destruct (IH _ _ H Ho1) as [Ho' Hrest]. split; [done|].
    intros c' optarg' Hin Hpe. apply elem_of_cons in Hin as [[= -> ->]|Hin].
    + by apply Hc.
    + by eapply Hrest.
Qed.

Lemma main_try_reduces argv opts nfa labels call :
  main_try E argv opts = Next (Reduces nfa labels call) ->
  exists o,
    option_loop E initial_options opts = Next o /\
    (call = call_prune (pct o) (eps o) \/
     call = call_merge_and_prune (pct o)).
Proof.
  unfold main_try. intros H.
  destruct (Z.of_nat (length argv) <? 2)%Z; [discriminate H|].
  destruct (option_loop E initial_options opts) as [o| |];
    try discriminate H.
  exists o. split; [done|]. cbn in H.
  destruct (Z.of_nat (length argv) - opt_cnt o <? 2)%Z; [discriminate H|].
  destruct (read_from_file E _) as [nfa'|]; [|discriminate H]. cbn in H.
  destruct (can_open_output E (outfile o)); [|discriminate H]. cbn in H.
  destruct (freq_opt o); [discriminate H|].
  destruct (read_state_labels E nfa' _) as [labels'|]; [|discriminate H].
  cbn in H. repeat case_decide; try discriminate H;
    injection H as _ _ <-; auto.
Qed.
End Options.

(** C7, counterexample.  Without [-p] and [-e] the reducer runs with the
    initial values [pct = -1] and [eps = -1]; with [-p 1 -e 0] the values
    pass [check_float] and the reducer runs with [pct = 1] and [eps = 0].
    None of these lies in the open interval. *)
Lemma reducer_runs_outside_open_interval :
  match main sample_env ["reduce"; "sample.fa"; "labels"] [] with
  | Reduces _ _ (call_prune p e) =>
      p = Finite (-1) /\ e = Finite (-1) /\
      ¬ in_open_unit p /\ ¬ in_open_unit e
  | _ => False
  end /\
  match main sample_env
          ["reduce"; "-p"; "1"; "-e"; "0"; "sample.fa"; "labels"]
          [("p"%char, "1"); ("e"%char, "0")] with
  | Reduces _ _ (call_prune p e) =>
      p = Finite 1 /\ e = Finite 0 /\ ¬ in_open_unit p /\ ¬ in_open_unit e
  | _ => False
  end.
Proof.
  split; vm_compute; (split; [reflexivity|]); (split; [reflexivity|]);
    split; intros (q & [= <-] & H0 & H1); vm_compute in H0, H1;
    congruence.
Qed.

(** C7, as amended.  [check_float] lets a value through exactly when it is
    NaN or lies in the closed interval from 0 to 1, and throws otherwise.
    Whenever [main] calls a reducer, every [-p] and [-e] argument has passed
    that check, and [pct] and [eps] are either such a value or the initial
    [-1] of an option that was not given. *)
Theorem reducer_arguments_checked (E : env) :
  (forall x, check_float_default E x = Value tt <-> accepted x) /\
  (forall x, ¬ accepted x -> exists what, check_float_default E x = Throw what) /\
  (forall argv opts nfa labels call,
      main E argv opts = Reduces nfa labels call ->
      match call with
      | call_prune p e => accepted_or_unset p /\ accepted_or_unset e
      | call_merge_and_prune p => accepted_or_unset p
      end /\
      forall c optarg,
        (c, optarg) ∈ opts -> c = "p"%char \/ c = "e"%char ->
        exists x, stod E optarg = Value x /\ accepted x).
Proof.
  split; [apply check_float_passes|]. split; [apply check_float_rejects|].
  intros argv opts nfa labels call H. unfold main in H.
  destruct (main_try E argv opts) as [r| |] eqn:Et; try discriminate H.
  subst r. apply main_try_reduces in Et as (o & Hloop & Hcall).
  apply option_loop_next in Hloop as [[Hp He] Hopts]; [|apply checked_initial].
  split; [|done]. by destruct Hcall as [-> | ->].
Qed.

Lemma reducer_arguments_checked_witness :
  (exists labels,
      main sample_env ["reduce"; "-p"; "0.5"; "sample.fa"; "labels"]
           [("p"%char, "0.5")] =
      Reduces (E := sample_env) sample labels
        (call_prune (Finite (1 # 2)) (Finite (-1)))) /\
  accepted_or_unset (Finite (1 # 2)) /\
  exists x, stod sample_env "0.5" = Value x /\ accepted x.
Proof.
  assert (Hrun : exists labels,
      main sample_env ["reduce"; "-p"; "0.5"; "sample.fa"; "labels"]
           [("p"%char, "0.5")] =
      Reduces (E := sample_env) sample labels
        (call_prune (Finite (1 # 2)) (Finite (-1)))).
  { eexists. vm_compute. reflexivity. }
  split; [exact Hrun|]. destruct Hrun as [labels Hrun].
  destruct (reducer_arguments_checked sample_env) as (_ & _ & Hmain).
  destruct (Hmain _ _ _ _ _ Hrun) as [[Hp _] Hopts].
  split; [exact Hp|].
  apply (Hopts "p"%char "0.5"); [apply list_elem_of_here|by left].
Defined.

Example check_float_examples :
  check_float_default sample_env (Finite 0) = Value tt /\
  check_float_default sample_env (Finite 1) = Value tt /\
  check_float_default sample_env NaN = Value tt /\
  (exists what, check_float_default sample_env (Finite (3 # 2)) = Throw what) /\
  (exists what,
      main sample_env ["reduce"; "-p"; "1.5"; "sample.fa"; "labels"]
           [("p"%char, "1.5")] = Caught what).
Proof. repeat split; try reflexivity; eexists; reflexivity. Qed.

(** * The derived metrics of [par_test.cpp] *)

Lemma size_sub_Z a b :
  Z.of_N (size_sub a b) = ((Z.of_N a - Z.of_N b) mod 2 ^ 64)%Z.
Proof.
  unfold size_sub, SIZE_MAX1.
  assert (Hb : b mod 2 ^ 64 < 2 ^ 64) by (apply N.mod_lt; lia).
  rewrite N2Z.inj_mod, N2Z.inj_sub by lia.
  rewrite N2Z.inj_add, N2Z.inj_mod.
  change (Z.of_N (2 ^ 64)) with (2 ^ 64)%Z.
  rewrite Zminus_mod_idemp_r.
  replace (Z.of_N a + 2 ^ 64 - Z.of_N b)%Z
    with (Z.of_N a - Z.of_N b + 1 * 2 ^ 64)%Z by lia.
  by rewrite Z_mod_plus_full.
Qed.

Lemma size_sub_no_wrap a b : b <= a -> a < SIZE_MAX1 -> size_sub a b = a - b.
Proof.
  unfold SIZE_MAX1. intros Hle Ha. apply N2Z.inj. rewrite size_sub_Z.
  rewrite N2Z.inj_sub by done. apply Z.mod_small. lia.
Qed.

Lemma size_sub_wrap a b :
  a < b -> b < SIZE_MAX1 -> size_sub a b = SIZE_MAX1 - (b - a).
Proof.
  unfold SIZE_MAX1. intros Hlt Hb. apply N2Z.inj. rewrite size_sub_Z.
  rewrite N2Z.inj_sub, N2Z.inj_sub by lia.
  change (Z.of_N (2 ^ 64)) with (2 ^ 64)%Z.
  replace (Z.of_N a - Z.of_N b)%Z
    with (2 ^ 64 - (Z.of_N b - Z.of_N a) + (-1) * 2 ^ 64)%Z by lia.
  rewrite Z_mod_plus_full. apply Z.mod_small. lia.
Qed.

Lemma size_sub_bounded a b : size_sub a b < SIZE_MAX1.
Proof. unfold size_sub. apply N.mod_lt. unfold SIZE_MAX1. lia. Qed.

(** ** IEEE arithmetic: what a rounded operation returns *)

Lemma pow2_pos e : (0 < pow2 e)%Q.
Proof. unfold pow2. apply Qpower_0_lt. reflexivity. Qed.

Lemma pow2_add a b : (pow2 (a + b) == pow2 a * pow2 b)%Q.
Proof. unfold pow2. apply Qpower_plus. discriminate. Qed.

Lemma pow2_Z e : (0 <= e)%Z -> (pow2 e == inject_Z (2 ^ e))%Q.
Proof.
  intros He. unfold pow2. by rewrite (Zpower_Qpower 2 e He).
Qed.

Lemma digits2_pos_spec (p : positive) :
  (2 ^ (Z.pos (SpecFloat.digits2_pos p) - 1) <= Z.pos p
   < 2 ^ Z.pos (SpecFloat.digits2_pos p))%Z.
Proof.
  induction p as [p IH|p IH|]; cbn [SpecFloat.digits2_pos].
  - rewrite Pos2Z.inj_succ.
    replace (Z.succ (Z.pos (SpecFloat.digits2_pos p)) - 1)%Z
      with (Z.succ (Z.pos (SpecFloat.digits2_pos p) - 1))%Z by lia.
    rewrite !Z.pow_succ_r by lia. lia.
  - rewrite Pos2Z.inj_succ.
    replace (Z.succ (Z.pos (SpecFloat.digits2_pos p)) - 1)%Z
      with (Z.succ (Z.pos (SpecFloat.digits2_pos p) - 1))%Z by lia.
    rewrite !Z.pow_succ_r by lia. lia.
  - cbn. lia.
Qed.

(** The number of digits is decided by the interval of powers of two. *)
Lemma digits2_pos_unique (p : positive) (d : Z) :
  (2 ^ (d - 1) <= Z.pos p < 2 ^ d)%Z -> (0 < d)%Z ->
  Z.pos (SpecFloat.digits2_pos p) = d.
Proof.
  intros [Hlo Hhi] Hd. pose proof (digits2_pos_spec p) as [Hlo' Hhi'].
  set (d' := Z.pos (SpecFloat.digits2_pos p)) in *.
  assert (Hd' : (0 < d')%Z) by (unfold d'; lia).
  destruct (Z.lt_trichotomy d' d) as [Hlt|[Heq|Hgt]]; [|done|].
  - assert (2 ^ d' <= 2 ^ (d - 1))%Z by (apply Z.pow_le_mono_r; lia). lia.
  - assert (2 ^ d <= 2 ^ (d' - 1))%Z by (apply Z.pow_le_mono_r; lia). lia.
Qed.

Lemma inject_Z_xO p : (inject_Z (Z.pos p~0) == 2 * inject_Z (Z.pos p))%Q.
Proof. change (Z.pos p~0) with (2 * Z.pos p)%Z. by rewrite inject_Z_mult. Qed.

Lemma inject_Z_xI p : (inject_Z (Z.pos p~1) == 2 * inject_Z (Z.pos p) + 1)%Q.
Proof.
  change (Z.pos p~1) with (2 * Z.pos p + 1)%Z.
  by rewrite inject_Z_plus, inject_Z_mult.
Qed.

(** One shift to the right halves the number the record stands for. *)
Lemma shr_1_locates (t : Q) (mrs : SpecFloat.shr_record) :
  (0 <= SpecFloat.shr_m mrs)%Z -> locates t mrs ->
  locates (t * (1 # 2)) (SpecFloat.shr_1 mrs) /\
  SpecFloat.shr_m (SpecFloat.shr_1 mrs) = (SpecFloat.shr_m mrs / 2)%Z.
Proof.
  destruct mrs as [m r s]. cbn [SpecFloat.shr_m]. intros Hm.
  unfold locates. cbn [SpecFloat.shr_m SpecFloat.shr_r SpecFloat.shr_s].
  destruct m as [|[p|p|]|p]; [| | | |lia]; cbn [SpecFloat.shr_1].
  - destruct r, s; cbn [orb SpecFloat.shr_m SpecFloat.shr_r SpecFloat.shr_s];
      intros H; (split; [|reflexivity]);
      change (inject_Z 0) with 0%Q in *; lra.
  - pose proof (inject_Z_xI p) as E.
    destruct r, s; cbn [orb SpecFloat.shr_m SpecFloat.shr_r SpecFloat.shr_s];
      intros H; (split; [lra|]);
      apply (Z.div_unique _ 2 _ 1); lia.
  - pose proof (inject_Z_xO p) as E.
    destruct r, s; cbn [orb SpecFloat.shr_m SpecFloat.shr_r SpecFloat.shr_s];
      intros H; (split; [lra|]);
      apply (Z.div_unique _ 2 _ 0); lia.
  - destruct r, s; cbn [orb SpecFloat.shr_m SpecFloat.shr_r SpecFloat.shr_s];
      intros H; (split; [|reflexivity]);
      change (inject_Z 0) with 0%Q in *; change (inject_Z 1) with 1%Q in *;
      lra.
Qed.

Lemma locates_proper (t t' : Q) (mrs : SpecFloat.shr_record) :
  (t == t')%Q -> locates t mrs -> locates t' mrs.
Proof.
  destruct mrs as [m r s]. unfold locates.
  cbn [SpecFloat.shr_m SpecFloat.shr_r SpecFloat.shr_s].
  intros E. destruct r, s; intros H; lra.
Qed.

Lemma pow2_opp_1 : (pow2 (-1) == 1 # 2)%Q.
Proof. reflexivity. Qed.

(** [n] shifts divide by [2^n]. *)
Lemma iter_shr_1_locates (n : positive) :
  forall (t : Q) (mrs : SpecFloat.shr_record),
    (0 <= SpecFloat.shr_m mrs)%Z -> locates t mrs ->
    locates (t * pow2 (- Z.pos n))
            (SpecFloat.iter_pos SpecFloat.shr_1 n mrs) /\
    SpecFloat.shr_m (SpecFloat.iter_pos SpecFloat.shr_1 n mrs) =
    (SpecFloat.shr_m mrs / 2 ^ Z.pos n)%Z.
Proof.
  induction n as [n IH|n IH|]; intros t mrs Hm Ht;
    cbn [SpecFloat.iter_pos].
  - destruct (shr_1_locates t mrs Hm Ht) as [H1 E1].
    assert (Hm1 : (0 <= SpecFloat.shr_m (SpecFloat.shr_1 mrs))%Z).
    { rewrite E1. apply Z.div_pos; lia. }
    destruct (IH _ _ Hm1 H1) as [H2 E2].
    assert (Hm2 : (0 <= SpecFloat.shr_m
                     (SpecFloat.iter_pos SpecFloat.shr_1 n
                        (SpecFloat.shr_1 mrs)))%Z).
    { rewrite E2. apply Z.div_pos; lia. }
    destruct (IH _ _ Hm2 H2) as [H3 E3]. split.
    + eapply locates_proper; [|exact H3].
      replace (- Z.pos n~1)%Z with (-1 + (- Z.pos n + - Z.pos n))%Z by lia.
      rewrite !pow2_add, pow2_opp_1. ring.
    + rewrite E3, E2, E1, !Z.div_div by lia. f_equal.
      replace (Z.pos n~1) with (1 + Z.pos n + Z.pos n)%Z by lia.
      rewrite !Z.pow_add_r by lia. lia.
  - destruct (IH _ _ Hm Ht) as [H2 E2].
    assert (Hm2 : (0 <= SpecFloat.shr_m
                     (SpecFloat.iter_pos SpecFloat.shr_1 n mrs))%Z).
    { rewrite E2. apply Z.div_pos; lia. }
    destruct (IH _ _ Hm2 H2) as [H3 E3]. split.
    + eapply locates_proper; [|exact H3].
      replace (- Z.pos n~0)%Z with (- Z.pos n + - Z.pos n)%Z by lia.
      rewrite !pow2_add. ring.
    + rewrite E3, E2, !Z.div_div by lia. f_equal.
      replace (Z.pos n~0) with (Z.pos n + Z.pos n)%Z by lia.
      rewrite !Z.pow_add_r by lia. lia.
  - destruct (shr_1_locates t mrs Hm Ht) as [H1 E1]. split.
    + eapply locates_proper; [|exact H1]. reflexivity.
    + by rewrite E1.
Qed.

Lemma pow2_0 : (pow2 0 == 1)%Q.
Proof. reflexivity. Qed.

Lemma pow2_cancel e : (pow2 (- e) * pow2 e == 1)%Q.
Proof. rewrite <- pow2_add. replace (- e + e)%Z with 0%Z by lia. reflexivity. Qed.

(** [shr] by a number of places that is not negative. *)
Lemma shr_locates (mrs : SpecFloat.shr_record) (e n : Z) (t : Q) :
  (0 <= SpecFloat.shr_m mrs)%Z -> (0 <= n)%Z -> locates t mrs ->
  locates (t * pow2 (- n)) (fst (SpecFloat.shr mrs e n)) /\
  SpecFloat.shr_m (fst (SpecFloat.shr mrs e n)) =
    (SpecFloat.shr_m mrs / 2 ^ n)%Z /\
  snd (SpecFloat.shr mrs e n) = (e + n)%Z.
Proof.
  intros Hm Hn Ht. destruct n as [|n|n]; [| |lia]; cbn [SpecFloat.shr fst snd].
  - split; [|split; [|lia]].
    + eapply locates_proper; [|exact Ht]. change (pow2 (- 0)) with (pow2 0).
      rewrite pow2_0. ring.
    + by rewrite Z.pow_0_r, Z.div_1_r.
  - destruct (iter_shr_1_locates n t mrs Hm Ht) as [H E]. done.
Qed.

(** Rounding to nearest moves the mantissa by at most one half. *)
Lemma round_nearest_even_locates (t : Q) (mrs : SpecFloat.shr_record) :
  locates t mrs ->
  let mr := SpecFloat.round_nearest_even (SpecFloat.shr_m mrs)
              (SpecFloat.loc_of_shr_record mrs) in
  (SpecFloat.shr_m mrs <= mr <= SpecFloat.shr_m mrs + 1)%Z /\
  (inject_Z mr - (1 # 2) <= t /\ t <= inject_Z mr + (1 # 2))%Q /\
  (inject_Z (SpecFloat.shr_m mrs) <= t)%Q.
Proof.
  destruct mrs as [m r s]. unfold locates.
  cbn [SpecFloat.shr_m SpecFloat.shr_r SpecFloat.shr_s
       SpecFloat.loc_of_shr_record].
  assert (E : (inject_Z (m + 1) == inject_Z m + 1)%Q)
    by (by rewrite inject_Z_plus).
  destruct r, s; cbn [SpecFloat.round_nearest_even]; intros H;
    try destruct (Z.even m); (split; [lia|]); lra.
Qed.

(** The leading [prec] digits of a mantissa of [d] digits. *)
Lemma leading_digits (m d prec : Z) :
  (0 < prec <= d)%Z -> (2 ^ (d - 1) <= m < 2 ^ d)%Z ->
  (2 ^ (prec - 1) <= m / 2 ^ (d - prec) < 2 ^ prec)%Z.
Proof.
  intros Hp [Hlo Hhi].
  assert (H2 : (0 < 2 ^ (d - prec))%Z) by (apply Z.pow_pos_nonneg; lia).
  split.
  - apply Z.div_le_lower_bound; [done|].
    rewrite <- Z.pow_add_r by lia.
    replace (d - prec + (prec - 1))%Z with (d - 1)%Z by lia. done.
  - apply Z.div_lt_upper_bound; [done|].
    rewrite <- Z.pow_add_r by lia.
    replace (d - prec + prec)%Z with d by lia. done.
Qed.

Lemma shr_m_of_loc (m : Z) (l : SpecFloat.location) :
  SpecFloat.shr_m (SpecFloat.shr_record_of_loc m l) = m.
Proof. by destruct l as [|[]]. Qed.

Lemma locates_exact (m : Z) :
  locates (inject_Z m) (SpecFloat.shr_record_of_loc m SpecFloat.loc_Exact).
Proof. unfold locates. cbn. reflexivity. Qed.

Section Rounding.
Variables prec emax : Z.
Hypothesis Hprec : (0 < prec)%Z.

Lemma fexp_normal (k : Z) :
  (3 - emax - prec <= k - prec)%Z ->
  SpecFloat.fexp prec emax k = (k - prec)%Z.
Proof. unfold SpecFloat.fexp, SpecFloat.emin. lia. Qed.

(** The second shift of [binary_round_aux]: a rounded mantissa of [prec]
    digits, or the power of two behind them, is brought to [prec] digits
    without a change of value. *)
Lemma renormalize (mr e1 : Z) :
  (2 ^ (prec - 1) <= mr <= 2 ^ prec)%Z ->
  (3 - emax - prec <= e1)%Z ->
  exists (m : positive) (e : Z),
    SpecFloat.shr_m
      (fst (SpecFloat.shr_fexp prec emax mr e1 SpecFloat.loc_Exact))
      = Z.pos m /\
    snd (SpecFloat.shr_fexp prec emax mr e1 SpecFloat.loc_Exact) = e /\
    Z.pos (SpecFloat.digits2_pos m) = prec /\
    (e1 <= e <= e1 + 1)%Z /\
    (inject_Z (Z.pos m) * pow2 e == inject_Z mr * pow2 e1)%Q /\
    ((mr < 2 ^ prec)%Z -> Z.pos m = mr /\ e = e1).
Proof.
  intros [Hlo Hhi] He1.
  assert (Hpos : (0 < 2 ^ (prec - 1))%Z) by (apply Z.pow_pos_nonneg; lia).
  assert (Hpow : (2 ^ prec = 2 * 2 ^ (prec - 1))%Z).
  { rewrite <- Z.pow_succ_r by lia. f_equal. lia. }
  destruct mr as [|q|q]; try lia.
  unfold SpecFloat.shr_fexp. cbn [SpecFloat.Zdigits2].
  destruct (Z.eq_dec (Z.pos q) (2 ^ prec)%Z) as [Heq|Hne].
  - assert (Hd : Z.pos (SpecFloat.digits2_pos q) = (prec + 1)%Z).
    { apply digits2_pos_unique; [|lia].
      replace (prec + 1 - 1)%Z with prec by lia.
      rewrite Z.pow_add_r by lia. lia. }
    rewrite Hd, fexp_normal by lia.
    replace (prec + 1 + e1 - prec - e1)%Z with 1%Z by lia.
    destruct (shr_locates
                (SpecFloat.shr_record_of_loc (Z.pos q) SpecFloat.loc_Exact)
                e1 1 (inject_Z (Z.pos q))) as (_ & Em & Ee).
    { cbn. lia. } { lia. } { apply locates_exact. }
    assert (Hhalf : (Z.pos q / 2 ^ 1 = 2 ^ (prec - 1))%Z).
    { rewrite Heq, Hpow, Z.pow_1_r, Z.mul_comm, Z.div_mul by lia. done. }
    rewrite shr_m_of_loc, Hhalf in Em.
    destruct (2 ^ (prec - 1))%Z as [|m|m] eqn:Em'; try lia.
    exists m, (e1 + 1)%Z. split; [exact Em|]. split; [exact Ee|].
    split; [|split; [lia|split; [|lia]]].
    + apply digits2_pos_unique; [|lia]. rewrite <- Em', Hpow. lia.
    + rewrite Heq, Hpow, pow2_add, inject_Z_mult.
      change (pow2 1) with 2%Q. change (inject_Z 2) with 2%Q. ring.
  - assert (Hd : Z.pos (SpecFloat.digits2_pos q) = prec).
    { apply digits2_pos_unique; lia. }
    rewrite Hd, fexp_normal by lia.
    replace (prec + e1 - prec - e1)%Z with 0%Z by lia.
    cbn [SpecFloat.shr fst snd SpecFloat.shr_record_of_loc SpecFloat.shr_m].
    exists q, e1. repeat split; try done; lia.
Qed.

(** What [binary_round_aux] returns for a positive number [x] given by a
    mantissa of at least [prec] digits, an exponent and a location, in the
    range of normal numbers: a mantissa of [prec] digits whose value lies
    within [2^-prec] of [x], relatively, or infinity when the exponent is
    too large. *)
Lemma binary_round_aux_value (mx ex : Z) (lx : SpecFloat.location) (x : Q) :
  (0 < mx)%Z ->
  locates (x * pow2 (- ex)) (SpecFloat.shr_record_of_loc mx lx) ->
  (prec <= SpecFloat.Zdigits2 mx)%Z ->
  (3 - emax - prec <= SpecFloat.Zdigits2 mx + ex - prec)%Z ->
  exists (m : positive) (e : Z),
    SpecFloat.binary_round_aux prec emax false mx ex lx =
      (if (e <=? emax - prec)%Z then SpecFloat.S754_finite false m e
       else SpecFloat.S754_infinity false) /\
    Z.pos (SpecFloat.digits2_pos m) = prec /\
    (SpecFloat.Zdigits2 mx + ex - prec <= e
     <= SpecFloat.Zdigits2 mx + ex - prec + 1)%Z /\
    (x * (1 - pow2 (- prec)) <= inject_Z (Z.pos m) * pow2 e /\
     inject_Z (Z.pos m) * pow2 e <= x * (1 + pow2 (- prec)))%Q.
Proof.
  intros Hmx Hloc Hd Hnorm.
  destruct mx as [|p|p]; try lia. cbn [SpecFloat.Zdigits2] in *.
  pose proof (digits2_pos_spec p) as Hp.
  set (d := Z.pos (SpecFloat.digits2_pos p)) in *.
  set (e1 := (d + ex - prec)%Z) in *.
  unfold SpecFloat.binary_round_aux.
  unfold SpecFloat.shr_fexp at 1. cbn [SpecFloat.Zdigits2]. fold d.
  rewrite fexp_normal by (fold e1; lia).
  replace (d + ex - prec - ex)%Z with (d - prec)%Z by lia.
  destruct (shr_locates (SpecFloat.shr_record_of_loc (Z.pos p) lx) ex
              (d - prec) (x * pow2 (- ex))) as (H1 & Em & Ee).
  { by rewrite shr_m_of_loc. } { lia. } { exact Hloc. }
  destruct (SpecFloat.shr (SpecFloat.shr_record_of_loc (Z.pos p) lx) ex
              (d - prec)) as [mrs' e'].
  cbn [fst snd] in H1, Em, Ee. subst e'.
  replace (ex + (d - prec))%Z with e1 by (unfold e1; lia).
  rewrite shr_m_of_loc in Em.
  pose proof (leading_digits (Z.pos p) d prec ltac:(lia) Hp) as Hlead.
  rewrite <- Em in Hlead.
  destruct (round_nearest_even_locates _ _ H1) as (Hr & [Hq1 Hq2] & Hfl).
  set (mr := SpecFloat.round_nearest_even (SpecFloat.shr_m mrs')
               (SpecFloat.loc_of_shr_record mrs')) in *.
  assert (Hpow : (2 ^ prec = 2 * 2 ^ (prec - 1))%Z).
  { rewrite <- Z.pow_succ_r by lia. f_equal. lia. }
  destruct (renormalize mr e1)
    as (m & e & Emm & Eee & Hdm & Herange & Hval & _).
  { lia. } { unfold e1. lia. }
  destruct (SpecFloat.shr_fexp prec emax mr e1 SpecFloat.loc_Exact)
    as [mrs'' e''].
  cbn [fst snd] in Emm, Eee. subst e''. rewrite Emm.
  exists m, e. split; [reflexivity|]. split; [exact Hdm|].
  split; [fold e1; lia|].
  set (t' := (x * pow2 (- ex) * pow2 (- (d - prec)))%Q) in *.
  set (eps := pow2 (- prec)).
  assert (Hx : (x == t' * pow2 e1)%Q).
  { unfold t'. rewrite <- !Qmult_assoc, <- !pow2_add.
    replace (- ex + (- (d - prec) + e1))%Z with 0%Z by (unfold e1; lia).
    rewrite pow2_0. ring. }
  assert (Heps : (eps * inject_Z (2 ^ (prec - 1)) == 1 # 2)%Q).
  { unfold eps. rewrite <- pow2_Z, <- pow2_add by lia.
    replace (- prec + (prec - 1))%Z with (-1)%Z by lia. reflexivity. }
  assert (Hhalf : (1 # 2 <= eps * t')%Q).
  { rewrite <- Heps. apply Qmult_le_l; [apply pow2_pos|].
    apply Qle_trans with (inject_Z (SpecFloat.shr_m mrs')); [|exact Hfl].
    rewrite <- Zle_Qle. lia. }
  pose proof (pow2_pos e1) as Hu.
  assert (Hlo : ((t' * (1 - eps)) * pow2 e1 <= inject_Z mr * pow2 e1)%Q).
  { apply Qmult_le_compat_r; lra. }
  assert (Hhi : (inject_Z mr * pow2 e1 <= (t' * (1 + eps)) * pow2 e1)%Q).
  { apply Qmult_le_compat_r; lra. }
  rewrite Hval, Hx. split; lra.
Qed.

Lemma iter_xO (p d : positive) :
  Z.pos (Pos.iter xO p d) = (Z.pos p * 2 ^ Z.pos d)%Z.
Proof.
  induction d as [|d IH] using Pos.peano_ind.
  - cbn. lia.
  - rewrite Pos.iter_succ, Pos2Z.inj_succ, Z.pow_succ_r by lia.
    change (Z.pos (Pos.iter xO p d)~0) with (2 * Z.pos (Pos.iter xO p d))%Z.
    rewrite IH. lia.
Qed.

(** [binary_normalize] of a positive mantissa in the range of normal
    numbers. *)
Lemma binary_normalize_value (p : positive) (ex : Z) :
  (3 - emax - prec <= Z.pos (SpecFloat.digits2_pos p) + ex - prec)%Z ->
  exists (m : positive) (e : Z),
    SpecFloat.binary_normalize prec emax (Z.pos p) ex false =
      (if (e <=? emax - prec)%Z then SpecFloat.S754_finite false m e
       else SpecFloat.S754_infinity false) /\
    Z.pos (SpecFloat.digits2_pos m) = prec /\
    (Z.pos (SpecFloat.digits2_pos p) + ex - prec <= e
     <= Z.pos (SpecFloat.digits2_pos p) + ex - prec + 1)%Z /\
    (inject_Z (Z.pos p) * pow2 ex * (1 - pow2 (- prec))
       <= inject_Z (Z.pos m) * pow2 e /\
     inject_Z (Z.pos m) * pow2 e
       <= inject_Z (Z.pos p) * pow2 ex * (1 + pow2 (- prec)))%Q.
Proof.
  intros Hnorm. pose proof (digits2_pos_spec p) as Hp.
  set (d := Z.pos (SpecFloat.digits2_pos p)) in *.
  cbn [SpecFloat.binary_normalize]. unfold SpecFloat.binary_round.
  fold d. rewrite fexp_normal by lia. unfold SpecFloat.shl_align.
  replace (d + ex - prec - ex)%Z with (d - prec)%Z by lia.
  destruct (d - prec)%Z as [|k|k] eqn:Ek.
  - destruct (binary_round_aux_value (Z.pos p) ex SpecFloat.loc_Exact
                (inject_Z (Z.pos p) * pow2 ex)) as (m & e & H).
    + lia.
    + eapply locates_proper; [|apply locates_exact].
      rewrite <- Qmult_assoc, (Qmult_comm (pow2 ex)), pow2_cancel. ring.
    + cbn [SpecFloat.Zdigits2]. fold d. lia.
    + cbn [SpecFloat.Zdigits2]. fold d. lia.
    + cbn [SpecFloat.Zdigits2] in H. fold d in H. exists m, e. exact H.
  - destruct (binary_round_aux_value (Z.pos p) ex SpecFloat.loc_Exact
                (inject_Z (Z.pos p) * pow2 ex)) as (m & e & H).
    + lia.
    + eapply locates_proper; [|apply locates_exact].
      rewrite <- Qmult_assoc, (Qmult_comm (pow2 ex)), pow2_cancel. ring.
    + cbn [SpecFloat.Zdigits2]. fold d. lia.
    + cbn [SpecFloat.Zdigits2]. fold d. lia.
    + cbn [SpecFloat.Zdigits2] in H. fold d in H. exists m, e. exact H.
  - assert (Hdig : Z.pos (SpecFloat.digits2_pos (Pos.iter xO p k)) = prec).
    { apply digits2_pos_unique; [|lia]. rewrite iter_xO.
      replace (Z.pos k) with (prec - d)%Z by lia.
      assert (H2 : (0 < 2 ^ (prec - d))%Z) by (apply Z.pow_pos_nonneg; lia).
      replace (2 ^ (prec - 1))%Z with (2 ^ (d - 1) * 2 ^ (prec - d))%Z
        by (rewrite <- Z.pow_add_r by lia; f_equal; lia).
      replace (2 ^ prec)%Z with (2 ^ d * 2 ^ (prec - d))%Z
        by (rewrite <- Z.pow_add_r by lia; f_equal; lia).
      split; [apply Z.mul_le_mono_nonneg_r; lia|].
      apply Z.mul_lt_mono_pos_r; lia. }
    destruct (binary_round_aux_value (Z.pos (Pos.iter xO p k))
                (d + ex - prec) SpecFloat.loc_Exact
                (inject_Z (Z.pos p) * pow2 ex)) as (m & e & H).
    + lia.
    + eapply locates_proper; [|apply locates_exact].
      rewrite iter_xO, inject_Z_mult, <- pow2_Z by lia.
      rewrite <- !Qmult_assoc, <- !pow2_add.
      apply Qmult_comp; [reflexivity|]. apply Qpower_comp; [reflexivity|].
      lia.
    + cbn [SpecFloat.Zdigits2]. rewrite Hdig. lia.
    + cbn [SpecFloat.Zdigits2]. rewrite Hdig. lia.
    + cbn [SpecFloat.Zdigits2] in H. rewrite Hdig in H. exists m, e.
      destruct H as (H1 & H2 & H3 & H4).
      split; [exact H1|]. split; [exact H2|]. split; [lia|exact H4].
Qed.

(** A mantissa of [prec] digits with zeros behind it is returned as it
    is. *)
Lemma binary_round_aux_exact (m : positive) (e n : Z) :
  Z.pos (SpecFloat.digits2_pos m) = prec -> (0 <= n)%Z ->
  (3 - emax - prec <= e <= emax - prec)%Z ->
  SpecFloat.binary_round_aux prec emax false (Z.pos m * 2 ^ n) (e - n)
    SpecFloat.loc_Exact = SpecFloat.S754_finite false m e.
Proof.
  intros Hdm Hn He. pose proof (digits2_pos_spec m) as Hm. rewrite Hdm in Hm.
  assert (H2 : (0 < 2 ^ n)%Z) by (apply Z.pow_pos_nonneg; lia).
  destruct (Z.pos m * 2 ^ n)%Z as [|p|p] eqn:Ep; try lia.
  assert (Hdp : Z.pos (SpecFloat.digits2_pos p) = (prec + n)%Z).
  { apply digits2_pos_unique; [|lia]. rewrite <- Ep.
    replace (prec + n - 1)%Z with (prec - 1 + n)%Z by lia.
    rewrite !Z.pow_add_r by lia. nia. }
  unfold SpecFloat.binary_round_aux.
  unfold SpecFloat.shr_fexp at 1. cbn [SpecFloat.Zdigits2].
  rewrite Hdp, fexp_normal by lia.
  replace (prec + n + (e - n) - prec - (e - n))%Z with n by lia.
  destruct (shr_locates (SpecFloat.shr_record_of_loc (Z.pos p)
                           SpecFloat.loc_Exact) (e - n) n
              (inject_Z (Z.pos p))) as (H1 & Em & Ee).
  { cbn. lia. } { lia. } { apply locates_exact. }
  destruct (SpecFloat.shr _ (e - n) n) as [mrs' e'].
  cbn [fst snd] in H1, Em, Ee. subst e'.
  replace (e - n + n)%Z with e by lia.
  rewrite shr_m_of_loc, <- Ep, Z.div_mul in Em by lia.
  destruct (round_nearest_even_locates _ _ H1) as (Hr & [Hq1 Hq2] & _).
  set (mr := SpecFloat.round_nearest_even (SpecFloat.shr_m mrs')
               (SpecFloat.loc_of_shr_record mrs')) in *.
  assert (Hmr : mr = Z.pos m).
  { assert (Ht : (inject_Z (Z.pos p) * pow2 (- n) == inject_Z (Z.pos m))%Q).
    { rewrite <- Ep, inject_Z_mult, <- pow2_Z, <- Qmult_assoc by lia.
      rewrite (Qmult_comm (pow2 n)), pow2_cancel. ring. }
    rewrite Em in Hr.
    destruct (Z.eq_dec mr (Z.pos m)) as [|Hne]; [done|exfalso].
    assert (E : mr = (Z.pos m + 1)%Z) by lia.
    rewrite E, inject_Z_plus in Hq1. change (inject_Z 1) with 1%Q in Hq1.
    lra. }
  rewrite Hmr.
  destruct (renormalize (Z.pos m) e) as (m' & e' & Emm & Eee & _ & _ & _ & Hsame).
  { lia. } { lia. }
  destruct (Hsame ltac:(lia)) as [Em' ->].
  destruct (SpecFloat.shr_fexp prec emax (Z.pos m) e SpecFloat.loc_Exact)
    as [mrs'' e''].
  cbn [fst snd] in Emm, Eee. subst e''. rewrite Emm.
  injection Em' as ->.
  destruct (Z.leb_spec e (emax - prec)); [done|lia].
Qed.

Lemma inject_Z_pos (z : Z) : (0 < z)%Z -> (0 < inject_Z z)%Q.
Proof. intros H. change 0%Q with (inject_Z 0). by rewrite <- Zlt_Qlt. Qed.

Lemma inject_Z_nonneg (z : Z) : (0 <= z)%Z -> (0 <= inject_Z z)%Q.
Proof. intros H. change 0%Q with (inject_Z 0). by rewrite <- Zle_Qle. Qed.

(** The location of a quotient from the remainder of the division. *)
Lemma new_location_locates (my r q : Z) (t : Q) :
  (0 < my)%Z -> (0 <= r < my)%Z ->
  (t * inject_Z my == inject_Z (q * my + r))%Q ->
  locates t (SpecFloat.shr_record_of_loc q (SpecFloat.new_location my r)).
Proof.
  intros Hmy Hr Ht.
  rewrite inject_Z_plus, inject_Z_mult in Ht.
  assert (HY : (0 < inject_Z my)%Q) by (by apply inject_Z_pos).
  assert (HR : (0 <= inject_Z r)%Q) by (apply inject_Z_nonneg; lia).
  assert (Hzero : r = 0%Z -> (t == inject_Z q)%Q).
  { intros ->. apply (proj1 (Qmult_inj_r _ _ (inject_Z my) ltac:(lra))).
    rewrite Ht. change (inject_Z 0) with 0%Q. ring. }
  assert (E3 : (inject_Z r < inject_Z my)%Q) by (rewrite <- Zlt_Qlt; lia).
  assert (Hlt : (2 * r < my)%Z -> (2 * inject_Z r < inject_Z my)%Q).
  { intros H. change 2%Q with (inject_Z 2).
    by rewrite <- inject_Z_mult, <- Zlt_Qlt. }
  assert (Hgt : (my < 2 * r)%Z -> (inject_Z my < 2 * inject_Z r)%Q).
  { intros H. change 2%Q with (inject_Z 2).
    by rewrite <- inject_Z_mult, <- Zlt_Qlt. }
  unfold SpecFloat.new_location.
  destruct (Z.even my) eqn:Eev.
  - unfold SpecFloat.new_location_even.
    destruct (Z.eqb_spec r 0) as [Hr0|Hr0]; [exact (Hzero Hr0)|].
    assert (HR' : (0 < inject_Z r)%Q) by (apply inject_Z_pos; lia).
    destruct (Z.compare_spec (2 * r) my) as [Heq|H|H];
      unfold locates; cbn.
    + assert (E2 : (2 * inject_Z r == inject_Z my)%Q).
      { rewrite <- Heq, inject_Z_mult. reflexivity. }
      apply (proj1 (Qmult_inj_r _ _ (inject_Z my) ltac:(lra))).
      rewrite Ht. lra.
    + specialize (Hlt H). split; nra.
    + specialize (Hgt H). split; nra.
  - unfold SpecFloat.new_location_odd.
    destruct (Z.eqb_spec r 0) as [Hr0|Hr0]; [exact (Hzero Hr0)|].
    assert (HR' : (0 < inject_Z r)%Q) by (apply inject_Z_pos; lia).
    assert (Hodd : (2 * r <> my)%Z).
    { intros <-. rewrite Z.even_mul in Eev. discriminate Eev. }
    destruct (Z.compare_spec (2 * r + 1) my) as [Heq|H|H];
      unfold locates; cbn.
    + specialize (Hlt ltac:(lia)). split; nra.
    + specialize (Hlt ltac:(lia)). split; nra.
    + specialize (Hgt ltac:(lia)). split; nra.
Qed.

Lemma digits2_pos_between (p : positive) (a b : Z) :
  (2 ^ a <= Z.pos p < 2 ^ b)%Z -> (0 <= a)%Z ->
  (a < Z.pos (SpecFloat.digits2_pos p) <= b)%Z.
Proof.
  intros [Hlo Hhi] Ha. pose proof (digits2_pos_spec p) as [Hlo' Hhi'].
  set (d := Z.pos (SpecFloat.digits2_pos p)) in *.
  assert (Hd : (0 < d)%Z) by (unfold d; lia).
  split.
  - destruct (Z.lt_ge_cases a d) as [|Hge]; [done|].
    assert (2 ^ d <= 2 ^ a)%Z by (apply Z.pow_le_mono_r; lia). lia.
  - destruct (Z.le_gt_cases d b) as [|Hgt]; [done|].
    assert (2 ^ b <= 2 ^ (d - 1))%Z by (apply Z.pow_le_mono_r; lia). lia.
Qed.

(** The quotient of two positive normal numbers. *)
Lemma SFdiv_value (m1 m2 : positive) (e1 e2 : Z) :
  Z.pos (SpecFloat.digits2_pos m1) = prec ->
  Z.pos (SpecFloat.digits2_pos m2) = prec ->
  (3 - emax - prec <= e1 - e2 - prec)%Z ->
  exists (m : positive) (e : Z),
    SpecFloat.SFdiv prec emax (SpecFloat.S754_finite false m1 e1)
      (SpecFloat.S754_finite false m2 e2) =
      (if (e <=? emax - prec)%Z then SpecFloat.S754_finite false m e
       else SpecFloat.S754_infinity false) /\
    Z.pos (SpecFloat.digits2_pos m) = prec /\
    (e1 - e2 - prec <= e <= e1 - e2 - prec + 2)%Z /\
    (inject_Z (Z.pos m1) * pow2 e1 * (1 - pow2 (- prec))
       <= inject_Z (Z.pos m) * pow2 e * (inject_Z (Z.pos m2) * pow2 e2) /\
     inject_Z (Z.pos m) * pow2 e * (inject_Z (Z.pos m2) * pow2 e2)
       <= inject_Z (Z.pos m1) * pow2 e1 * (1 + pow2 (- prec)))%Q.
Proof.
  intros Hd1 Hd2 Hnorm.
  pose proof (digits2_pos_spec m1) as Hm1. rewrite Hd1 in Hm1.
  pose proof (digits2_pos_spec m2) as Hm2. rewrite Hd2 in Hm2.
  assert (HP : (0 < 2 ^ (prec - 1))%Z) by (apply Z.pow_pos_nonneg; lia).
  assert (Hpow : (2 ^ prec = 2 * 2 ^ (prec - 1))%Z).
  { rewrite <- Z.pow_succ_r by lia. f_equal. lia. }
  cbn [SpecFloat.SFdiv xorb]. unfold SpecFloat.SFdiv_core_binary.
  cbn [SpecFloat.Zdigits2]. rewrite Hd1, Hd2.
  rewrite fexp_normal by lia. rewrite Z.min_l by lia.
  set (e' := (prec + e1 - (prec + e2) - prec)%Z).
  replace (e1 - e2 - e')%Z with prec by (unfold e'; lia).
  assert (Hm' : match prec with
                | Z.pos _ => Z.shiftl (Z.pos m1) prec
                | 0%Z => Z.pos m1
                | Z.neg _ => 0%Z
                end = (Z.pos m1 * 2 ^ prec)%Z).
  { destruct prec; [lia| |lia]. by rewrite Z.shiftl_mul_pow2. }
  rewrite Hm'.
  pose proof (Z_div_mod (Z.pos m1 * 2 ^ prec) (Z.pos m2) ltac:(lia)) as Hdiv.
  destruct (Z.div_eucl (Z.pos m1 * 2 ^ prec) (Z.pos m2)) as [q r].
  destruct Hdiv as [Hqr Hr].
  assert (Hq : (2 ^ (prec - 1) <= q < 2 ^ (prec + 1))%Z).
  { rewrite Z.pow_add_r, Z.pow_1_r by lia. rewrite Hpow in *.
    generalize dependent (2 ^ (prec - 1))%Z. intros P. intros. nia. }
  destruct q as [|q|q]; try lia.
  destruct (digits2_pos_between q (prec - 1) (prec + 1) Hq ltac:(lia))
    as [Hdq1 Hdq2].
  set (X := (inject_Z (Z.pos m1) * pow2 e1)%Q).
  set (Y := (inject_Z (Z.pos m2) * pow2 e2)%Q).
  assert (HY : (0 < Y)%Q).
  { unfold Y. apply Qmult_lt_0_compat; [by apply inject_Z_pos|apply pow2_pos]. }
  destruct (binary_round_aux_value (Z.pos q) e'
              (SpecFloat.new_location (Z.pos m2) r) (X / Y))
    as (m & e & Hres & Hdm & He & Hlo & Hhi).
  - lia.
  - apply new_location_locates; [lia|lia|].
    rewrite Z.mul_comm, <- Hqr, inject_Z_mult, <- pow2_Z by lia.
    unfold X, Y, Qdiv. rewrite Qinv_mult_distr.
    assert (E2 : (pow2 e1 * / pow2 e2 * pow2 (- e') == pow2 prec)%Q).
    { unfold pow2 at 2. rewrite <- Qpower_opp. fold (pow2 (- e2)).
      rewrite <- !pow2_add. apply Qpower_comp; [reflexivity|].
      unfold e'. lia. }
    rewrite <- E2.
    assert (Hne : ~ (inject_Z (Z.pos m2) == 0)%Q).
    { pose proof (inject_Z_pos (Z.pos m2) ltac:(lia)). lra. }
    field. split; [|exact Hne]. pose proof (pow2_pos e2). unfold pow2 in *. lra.
  - cbn [SpecFloat.Zdigits2]. lia.
  - cbn [SpecFloat.Zdigits2]. unfold e'. lia.
  - cbn [SpecFloat.Zdigits2] in He. exists m, e.
    split; [exact Hres|]. split; [exact Hdm|].
    split; [unfold e' in He; lia|].
    assert (EX : (X / Y * Y == X)%Q).
    { unfold Qdiv. rewrite <- Qmult_assoc, (Qmult_comm (/ Y)).
      rewrite Qmult_inv_r by lra. ring. }
    set (v := (inject_Z (Z.pos m) * pow2 e)%Q) in *.
    set (x := (X / Y)%Q) in *.
    assert (H1 : (x * (1 - pow2 (- prec)) * Y <= v * Y)%Q)
      by (apply Qmult_le_compat_r; lra).
    assert (H2 : (v * Y <= x * (1 + pow2 (- prec)) * Y)%Q)
      by (apply Qmult_le_compat_r; lra).
    rewrite <- EX. split; lra.
Qed.

Hypothesis Hemax : (3 <= emax)%Z.

(** A normal number divided by itself is one. *)
Lemma SFdiv_same (m one : positive) (e : Z) :
  Z.pos (SpecFloat.digits2_pos m) = prec ->
  Z.pos one = (2 ^ (prec - 1))%Z ->
  SpecFloat.SFdiv prec emax (SpecFloat.S754_finite false m e)
    (SpecFloat.S754_finite false m e) =
  SpecFloat.S754_finite false one (1 - prec).
Proof.
  intros Hd Hone.
  assert (Hpow : (2 ^ prec = Z.pos one * 2 ^ 1)%Z).
  { rewrite Hone, <- Z.pow_add_r by lia. f_equal. lia. }
  cbn [SpecFloat.SFdiv xorb]. unfold SpecFloat.SFdiv_core_binary.
  cbn [SpecFloat.Zdigits2]. rewrite Hd.
  rewrite fexp_normal by lia. rewrite Z.min_l by lia.
  replace (e - e - (prec + e - (prec + e) - prec))%Z with prec by lia.
  assert (Hm' : match prec with
                | Z.pos _ => Z.shiftl (Z.pos m) prec
                | 0%Z => Z.pos m
                | Z.neg _ => 0%Z
                end = (Z.pos m * 2 ^ prec)%Z).
  { destruct prec; [lia| |lia]. by rewrite Z.shiftl_mul_pow2. }
  rewrite Hm'.
  pose proof (Z_div_mod (Z.pos m * 2 ^ prec) (Z.pos m) ltac:(lia)) as Hdiv.
  destruct (Z.div_eucl (Z.pos m * 2 ^ prec) (Z.pos m)) as [q r].
  destruct Hdiv as [Hqr Hr].
  assert (Hq : q = (2 ^ prec)%Z /\ r = 0%Z).
  { assert (E : (Z.pos m * (2 ^ prec - q) = r)%Z) by lia.
    destruct (Z.lt_trichotomy q (2 ^ prec)) as [Hlt|[Heq|Hgt]].
    - assert (Z.pos m * 1 <= Z.pos m * (2 ^ prec - q))%Z
        by (apply Z.mul_le_mono_nonneg_l; lia). lia.
    - subst q. lia.
    - assert (Z.pos m * (2 ^ prec - q) <= Z.pos m * (-1))%Z
        by (apply Z.mul_le_mono_nonneg_l; lia). lia. }
  destruct Hq as [-> ->].
  assert (Hloc : SpecFloat.new_location (Z.pos m) 0 = SpecFloat.loc_Exact).
  { unfold SpecFloat.new_location. by destruct (Z.even (Z.pos m)). }
  rewrite Hloc, Hpow.
  replace (prec + e - (prec + e) - prec)%Z with (1 - prec - 1)%Z by lia.
  apply binary_round_aux_exact; [|lia|lia].
  apply digits2_pos_unique; [|lia]. rewrite Hone, Hpow, Hone. lia.
Qed.

(** A normal number times one is the number. *)
Lemma SFmul_one (m one : positive) (e : Z) :
  Z.pos (SpecFloat.digits2_pos m) = prec ->
  Z.pos one = (2 ^ (prec - 1))%Z ->
  (3 - emax - prec <= e <= emax - prec)%Z ->
  SpecFloat.SFmul prec emax (SpecFloat.S754_finite false m e)
    (SpecFloat.S754_finite false one (1 - prec)) =
  SpecFloat.S754_finite false m e.
Proof.
  intros Hd Hone He. cbn [SpecFloat.SFmul xorb].
  rewrite Pos2Z.inj_mul, Hone.
  replace (e + (1 - prec))%Z with (e - (prec - 1))%Z by lia.
  apply binary_round_aux_exact; [done|lia|lia].
Qed.

End Rounding.

(** ** The quotient of two counters *)

Lemma size_t_digits (p : positive) :
  (Z.pos p < 2 ^ 64)%Z -> (0 < Z.pos (SpecFloat.digits2_pos p) <= 64)%Z.
Proof.
  intros H. split; [lia|].
  apply (digits2_pos_between p 0 64); [|lia]. cbn. lia.
Qed.

(** A counter as a [double]: a normal number within [2^-53] of it. *)
Lemma size_t_to_double_value (p : positive) :
  (Z.pos p < 2 ^ 64)%Z ->
  exists (m : positive) (e : Z),
    size_t_to_double (N.pos p) = SpecFloat.S754_finite false m e /\
    Z.pos (SpecFloat.digits2_pos m) = 53%Z /\ (-52 <= e <= 12)%Z /\
    (inject_Z (Z.pos p) * (1 - (1 # 9007199254740992))
       <= inject_Z (Z.pos m) * pow2 e /\
     inject_Z (Z.pos m) * pow2 e
       <= inject_Z (Z.pos p) * (1 + (1 # 9007199254740992)))%Q.
Proof.
  intros Hp. destruct (size_t_digits p Hp) as [Hd1 Hd2].
  destruct (binary_normalize_value 53 1024 ltac:(lia) p 0 ltac:(lia))
    as (m & e & Hres & Hdm & He & Hlo & Hhi).
  exists m, e. unfold size_t_to_double, binary64.
  change (Z.of_N (N.pos p)) with (Z.pos p). rewrite Hres.
  destruct (Z.leb_spec e (1024 - 53)); [|lia].
  split; [done|]. split; [done|]. split; [lia|].
  change (pow2 (Z.opp 53)) with (1 # 9007199254740992)%Q in *. change (pow2 0) with 1%Q in *.
  split; lra.
Qed.

Lemma binary64_one :
  binary64 1 0 = SpecFloat.S754_finite false 4503599627370496 (-52).
Proof. reflexivity. Qed.

(** The quotient of two counters that are not zero, as the program
    computes it: a positive [float] within [2^-23] of the exact quotient,
    relatively. *)
Lemma quotient_value (n d : positive) :
  (Z.pos n < 2 ^ 64)%Z -> (Z.pos d < 2 ^ 64)%Z ->
  exists (m : positive) (e : Z),
    quotient (N.pos n) (N.pos d) = SpecFloat.S754_finite false m e /\
    (inject_Z (Z.pos n) * (1 - (1 # 8388608))
       <= inject_Z (Z.pos m) * pow2 e * inject_Z (Z.pos d) /\
     inject_Z (Z.pos m) * pow2 e * inject_Z (Z.pos d)
       <= inject_Z (Z.pos n) * (1 + (1 # 8388608)))%Q.
Proof.
  intros Hn Hd.
  destruct (size_t_to_double_value n Hn) as (ma & ea & Ea & Hda & Hea & Ha).
  destruct (size_t_to_double_value d Hd) as (mb & eb & Eb & Hdb & Heb & Hb).
  unfold quotient, float_div. rewrite Ea, Eb, binary64_one.
  rewrite (SFmul_one 53 1024) by (done || lia).
  destruct (SFdiv_value 53 1024 ltac:(lia) ma mb ea eb Hda Hdb ltac:(lia))
    as (mq & eq & Eq & Hdq & Heq & Hq).
  rewrite Eq. destruct (Z.leb_spec eq (1024 - 53)); [|lia].
  cbn [double_to_float SpecFloat.cond_Zopp].
  destruct (binary_normalize_value 24 128 ltac:(lia) mq eq ltac:(lia))
    as (m & e & Ev & _ & He & Hv).
  rewrite Ev. destruct (Z.leb_spec e (128 - 24)); [|lia].
  exists m, e. split; [done|].
  change (pow2 (Z.opp 53)) with (1 # 9007199254740992)%Q in *.
  change (pow2 (Z.opp 24)) with (1 # 16777216)%Q in *.
  set (A := (inject_Z (Z.pos ma) * pow2 ea)%Q) in *.
  set (B := (inject_Z (Z.pos mb) * pow2 eb)%Q) in *.
  set (Q := (inject_Z (Z.pos mq) * pow2 eq)%Q) in *.
  set (V := (inject_Z (Z.pos m) * pow2 e)%Q) in *.
  pose proof (inject_Z_pos (Z.pos n) ltac:(lia)) as HN.
  pose proof (inject_Z_pos (Z.pos d) ltac:(lia)) as HD.
  set (N := inject_Z (Z.pos n)) in *. set (D := inject_Z (Z.pos d)) in *.
  assert (HQ : (0 < Q)%Q).
  { unfold Q. apply Qmult_lt_0_compat; [apply inject_Z_pos; lia|].
    apply pow2_pos. }
  assert (F1 : (V * D <= Q * (1 + (1 # 16777216)) * D)%Q)
    by (apply Qmult_le_compat_r; lra).
  assert (F2 : (Q * (1 - (1 # 16777216)) * D <= V * D)%Q)
    by (apply Qmult_le_compat_r; lra).
  assert (F3 : (Q * (D * (1 - (1 # 9007199254740992))) <= Q * B)%Q)
    by (apply Qmult_le_l; lra).
  assert (F4 : (Q * B <= Q * (D * (1 + (1 # 9007199254740992))))%Q)
    by (apply Qmult_le_l; lra).
  split; lra.
Qed.

(** A numerator of zero gives zero, whatever the denominator. *)
Lemma quotient_zero (d : positive) :
  quotient 0 (N.pos d) = SpecFloat.S754_zero false.
Proof.
  unfold quotient, float_div, size_t_to_double. rewrite binary64_one.
  change (binary64 (Z.of_N 0) 0) with (SpecFloat.S754_zero false).
  cbn [SpecFloat.SFmul xorb].
  destruct (binary_normalize_value 53 1024 ltac:(lia) d 0)
    as (m & e & Hres & _).
  { pose proof (Pos2Z.is_pos (SpecFloat.digits2_pos d)). lia. }
  unfold binary64. change (Z.of_N (N.pos d)) with (Z.pos d). rewrite Hres.
  by destruct (e <=? 1024 - 53)%Z.
Qed.

(** A counter divided by itself gives one. *)
Lemma quotient_same (n : positive) :
  (Z.pos n < 2 ^ 64)%Z ->
  quotient (N.pos n) (N.pos n) = SpecFloat.S754_finite false 8388608 (-23).
Proof.
  intros Hn.
  destruct (size_t_to_double_value n Hn) as (ma & ea & Ea & Hda & Hea & _).
  unfold quotient, float_div. rewrite Ea, binary64_one.
  rewrite (SFmul_one 53 1024) by (done || lia).
  rewrite (SFdiv_same 53 1024 ltac:(lia) ltac:(lia) ma 4503599627370496)
    by done.
  reflexivity.
Qed.

Lemma near_quotient (v n d : Q) :
  (0 < d)%Q ->
  (n * (1 - (1 # 8388608)) <= v * d /\ v * d <= n * (1 + (1 # 8388608)))%Q ->
  near v (n / d).
Proof.
  intros Hd [Hlo Hhi]. unfold near.
  assert (E : (n / d * d == n)%Q).
  { unfold Qdiv. rewrite <- Qmult_assoc, (Qmult_comm (/ d)).
    rewrite Qmult_inv_r by lra. ring. }
  set (x := (n / d)%Q) in *. rewrite <- E in Hlo, Hhi.
  split.
  - apply (proj1 (Qmult_le_r _ _ d Hd)). lra.
  - apply (proj1 (Qmult_le_r _ _ d Hd)). lra.
Qed.

(** The value of a quotient of counters. *)
Lemma quotient_near (n d : N) :
  n < 2 ^ 64 -> d < 2 ^ 64 -> d <> 0 ->
  exists q : Q,
    float_value (quotient n d) = Finite q /\
    near q (inject_Z (Z.of_N n) / inject_Z (Z.of_N d)) /\
    (n = 0 -> (q == 0)%Q) /\ (n <> 0 -> (0 < q)%Q).
Proof.
  intros Hn Hd Hd0. destruct d as [|d]; [done|].
  pose proof (inject_Z_pos (Z.pos d) ltac:(lia)) as HD.
  destruct n as [|n].
  - rewrite quotient_zero. exists 0%Q. split; [done|].
    split; [|split; [done|done]].
    unfold near. change (inject_Z (Z.of_N 0)) with 0%Q.
    unfold Qdiv. rewrite Qmult_0_l. lra.
  - destruct (quotient_value n d) as (m & e & Eq & Hb); [lia|lia|].
    rewrite Eq. cbn [float_value SpecFloat.cond_Zopp].
    eexists. split; [reflexivity|]. fold (pow2 e).
    split; [|split; [done|]].
    + apply near_quotient; [exact HD|exact Hb].
    + intros _. apply Qmult_lt_0_compat; [by apply inject_Z_pos|].
      apply pow2_pos.
Qed.

(** ** The three metrics *)

(** The claim as written fails: the metrics are not the exact quotients.
    With 15 wrong acceptances among 1000 payloads [pe] is the [float]
    [16106127 / 2^30], not [15 / 1000]; and when the reduced automaton
    accepts 40 payloads and the target 55, [pe] is positive, while
    [(accepted_reduced - accepted_target) / total] is negative. *)
Lemma metrics_are_rounded :
  pe sample_stats = Finite (16106127 # 1073741824) /\
  ~ (16106127 # 1073741824 == 15 # 1000)%Q /\
  pe wrapped_stats = Finite (18446744949882880 # 1) /\
  (inject_Z (Z.of_N (accepted_reduced wrapped_stats) -
             Z.of_N (accepted_target wrapped_stats))
   / inject_Z (Z.of_N (total wrapped_stats)) < 0)%Q.
Proof.
  split; [vm_compute; reflexivity|]. split; [discriminate|].
  split; [vm_compute; reflexivity|]. reflexivity.
Qed.

(** C5.  The three metrics are computed in floating point from [size_t]
    operands: each operand becomes a [double], the quotient is taken in
    [double] and stored in a [float].  With counters that are [size_t]
    values and denominators that are not zero, each metric is a finite
    [float] within [2^-23], relatively, of the quotient of its operands:
    [(accepted_reduced - accepted_target) mod 2^64] over [total],
    [wrongly_classified] over [total], and [correctly_classified] over
    [(correctly_classified + wrongly_classified) mod 2^64].  The difference
    and the sum are the mathematical ones when they do not wrap. *)
Theorem derived_metrics (aggr : ErrorStats) :
  counters_fit aggr ->
  total aggr <> 0 ->
  size_add (correctly_classified aggr) (wrongly_classified aggr) <> 0 ->
  exists q_pe q_ce q_cls : Q,
    pe aggr = Finite q_pe /\
    ce aggr = Finite q_ce /\
    cls_ratio aggr = Finite q_cls /\
    near q_pe (inject_Z ((Z.of_N (accepted_reduced aggr) -
                          Z.of_N (accepted_target aggr)) mod 2 ^ 64)
               / inject_Z (Z.of_N (total aggr))) /\
    (accepted_target aggr <= accepted_reduced aggr ->
     near q_pe (inject_Z (Z.of_N (accepted_reduced aggr) -
                          Z.of_N (accepted_target aggr))
                / inject_Z (Z.of_N (total aggr)))) /\
    near q_ce (inject_Z (Z.of_N (wrongly_classified aggr))
               / inject_Z (Z.of_N (total aggr))) /\
    near q_cls (inject_Z (Z.of_N (correctly_classified aggr))
                / inject_Z (Z.of_N ((correctly_classified aggr +
                                     wrongly_classified aggr) mod SIZE_MAX1))) /\
    (correctly_classified aggr + wrongly_classified aggr < SIZE_MAX1 ->
     near q_cls (inject_Z (Z.of_N (correctly_classified aggr))
                 / inject_Z (Z.of_N (correctly_classified aggr) +
                             Z.of_N (wrongly_classified aggr)))).
Proof.
  intros (Ht & Hat & Har & Hwc & Hcc) Ht0 Hs. unfold pe, ce, cls_ratio.
  destruct (quotient_near (wrong_acceptances aggr) (total aggr))
    as (q_pe & Epe & Hpe & _);
    [apply size_sub_bounded|exact Ht|exact Ht0|].
  destruct (quotient_near (wrongly_classified aggr) (total aggr))
    as (q_ce & Ece & Hce & _); [exact Hwc|exact Ht|exact Ht0|].
  destruct (quotient_near (correctly_classified aggr)
              (size_add (correctly_classified aggr)
                        (wrongly_classified aggr)))
    as (q_cls & Ecls & Hcls & _);
    [exact Hcc|apply size_add_bounded|exact Hs|].
  exists q_pe, q_ce, q_cls.
  split; [exact Epe|]. split; [exact Ece|]. split; [exact Ecls|].
  clear Epe Ece Ecls. unfold wrong_acceptances in Hpe.
  split; [rewrite size_sub_Z in Hpe; exact Hpe|]. split.
  { intros Hle. rewrite size_sub_no_wrap in Hpe by assumption.
    rewrite N2Z.inj_sub in Hpe by assumption. exact Hpe. }
  split; [exact Hce|]. split; [exact Hcls|].
  intros Hsum. unfold size_add in Hcls.
  rewrite N.mod_small in Hcls by assumption.
  rewrite N2Z.inj_add in Hcls. exact Hcls.
Qed.

Lemma derived_metrics_witness :
  counters_fit sample_stats /\
  total sample_stats <> 0 /\
  size_add (correctly_classified sample_stats)
           (wrongly_classified sample_stats) <> 0 /\
  exists q_pe q_ce q_cls : Q,
    pe sample_stats = Finite q_pe /\
    ce sample_stats = Finite q_ce /\
    cls_ratio sample_stats = Finite q_cls /\
    near q_pe (inject_Z 15 / inject_Z 1000) /\
    near q_ce (inject_Z 15 / inject_Z 1000) /\
    near q_cls (inject_Z 985 / inject_Z 1000).
Proof.
  assert (Hfit : counters_fit sample_stats).
  { unfold counters_fit, SIZE_MAX1. cbn. lia. }
  split; [exact Hfit|].
  split; [vm_compute; discriminate|]. split; [vm_compute; discriminate|].
  destruct (derived_metrics sample_stats Hfit)
    as (q_pe & q_ce & q_cls & Hpe & Hce & Hcls & _ & Hq1 & Hq2 & _ & Hq3).
  - vm_compute; discriminate.
  - vm_compute; discriminate.
  - exists q_pe, q_ce, q_cls.
    split; [exact Hpe|]. split; [exact Hce|]. split; [exact Hcls|].
    split; [|split].
    + apply Hq1. vm_compute; discriminate.
    + exact Hq2.
    + apply Hq3. reflexivity.
Defined.

(** C6.  When the target automaton accepts more payloads than the reduced
    one, the difference wraps: [wrong_acceptances] is [2^64] minus the
    excess, and [pe] is a positive [float] within [2^-23], relatively, of
    that number over [total], not the negative quotient of the signed
    difference. *)
Theorem wrong_acceptances_wraps (aggr : ErrorStats) :
  accepted_reduced aggr < accepted_target aggr ->
  accepted_target aggr < SIZE_MAX1 ->
  total aggr <> 0 ->
  total aggr < SIZE_MAX1 ->
  wrong_acceptances aggr =
    SIZE_MAX1 - (accepted_target aggr - accepted_reduced aggr) /\
  exists q : Q,
    pe aggr = Finite q /\
    near q (inject_Z (2 ^ 64 - (Z.of_N (accepted_target aggr) -
                                Z.of_N (accepted_reduced aggr)))
            / inject_Z (Z.of_N (total aggr))) /\
    (0 < q)%Q /\
    (inject_Z (Z.of_N (accepted_reduced aggr) -
               Z.of_N (accepted_target aggr))
     / inject_Z (Z.of_N (total aggr)) < 0)%Q.
Proof.
  intros Hlt Ht Htot Htb.
  pose proof (size_sub_wrap _ _ Hlt Ht) as Hw.
  split; [exact Hw|]. unfold pe.
  destruct (quotient_near (wrong_acceptances aggr) (total aggr))
    as (q & Eq & Hq & _ & Hpos);
    [apply size_sub_bounded|exact Htb|exact Htot|].
  exists q. split; [exact Eq|].
  unfold wrong_acceptances in Hq, Hpos. rewrite Hw in Hq, Hpos.
  unfold SIZE_MAX1 in *.
  assert (Hz : Z.of_N (2 ^ 64 - (accepted_target aggr - accepted_reduced aggr))
               = (2 ^ 64 - (Z.of_N (accepted_target aggr) -
                            Z.of_N (accepted_reduced aggr)))%Z).
  { rewrite !N2Z.inj_sub by lia. reflexivity. }
  rewrite Hz in Hq. split; [exact Hq|]. split; [apply Hpos; lia|].
  apply Qlt_shift_div_r.
  - apply inject_Z_pos. lia.
  - rewrite Qmult_0_l. rewrite <- (Zlt_Qlt _ 0). lia.
Qed.

Lemma wrong_acceptances_wraps_witness :
  accepted_reduced wrapped_stats < accepted_target wrapped_stats /\
  accepted_target wrapped_stats < SIZE_MAX1 /\
  total wrapped_stats <> 0 /\
  wrong_acceptances wrapped_stats = 18446744073709551601 /\
  exists q : Q,
    pe wrapped_stats = Finite q /\
    near q (inject_Z 18446744073709551601 / inject_Z 1000) /\ (0 < q)%Q.
Proof.
  split; [reflexivity|]. split; [reflexivity|].
  split; [vm_compute; discriminate|].
  destruct (wrong_acceptances_wraps wrapped_stats)
    as (Hw & q & Hq & Hnear & Hpos & _).
  - reflexivity.
  - reflexivity.
  - vm_compute; discriminate.
  - reflexivity.
  - split; [rewrite Hw; reflexivity|]. exists q.
    split; [exact Hq|]. split; [exact Hnear|exact Hpos].
Defined.

(** * Frames of a capture file *)

Lemma get_payload_bound packet header k :
  outcome (get_payload packet header) = Ok k -> k <= caplen header.
Proof.
  rewrite get_payload_outcome.
  destruct (outcome (skip_headers _ packet)) as [[offset|]| |];
    intros [= <-]; [|lia].
  destruct (N.ltb_spec (caplen header) offset); lia.
Qed.

Lemma payload_len_positive header k :
  caplen header < 2 ^ 32 -> k <= caplen header ->
  (0 < payload_len header k)%Z ->
  (payload_len header k < 2 ^ 31)%Z /\
  (Z.of_N k + payload_len header k = Z.of_N (caplen header))%Z.
Proof.
  unfold payload_len, to_int. intros Hc Hk Hpos.
  assert (Hd : (0 <= Z.of_N (caplen header) - Z.of_N k < 2 ^ 32)%Z) by lia.
  destruct (Z_lt_le_dec (Z.of_N (caplen header) - Z.of_N k) (2 ^ 31))
    as [Hs|Hl].
  - rewrite Z.mod_small in * by lia. lia.
  - exfalso.
    replace (Z.of_N (caplen header) - Z.of_N k + 2 ^ 31)%Z
      with (Z.of_N (caplen header) - Z.of_N k - 2 ^ 31 + 1 * 2 ^ 32)%Z
      in Hpos by lia.
    rewrite Z_mod_plus_full, Z.mod_small in Hpos by lia. lia.
Qed.

Lemma delivered_from_further f frames c :
  delivered_from frames c -> delivered_from (f :: frames) c.
Proof.
  intros (Hl & f' & Hin & Hp & Ho). split; [done|]. exists f'.
  split; [by apply list_elem_of_further|done].
Qed.

(** X1.  Every call that [process_payload] makes hands over a payload that
    is not empty, shorter than [2^31] bytes and ends exactly at the captured
    length of the frame it was taken from; and there are at most [count]
    calls.  This holds for the calls made before a faulting frame as well. *)
Theorem process_payload_calls pcap_open_offline capturefile count frames r :
  pcap_open_offline capturefile = Some frames ->
  Forall u32_caplen frames ->
  process_payload pcap_open_offline capturefile count = Value r ->
  N.of_nat (length (fst r)) <= count /\
  Forall (delivered_from frames) (fst r).
Proof.
  unfold process_payload. intros -> Hu [= <-]. revert count.
  induction frames as [|f frames IH]; intros count; cbn [process_frames].
  - cbn. split; [lia|constructor].
  - apply Forall_cons in Hu as [Hf Hu]. specialize (IH Hu).
    destruct (N.eqb_spec count 0) as [->|Hc]; [cbn; split; [lia|constructor]|].
    destruct (outcome (get_payload (frame_packet f) (frame_header f)))
      as [k| |] eqn:Ek; try (cbn; split; [lia|constructor]).
    destruct (Z.ltb_spec 0 (payload_len (frame_header f) k)) as [Hpos|Hle].
    + destruct (IH (count - 1)) as [Hn Hall]. cbn [fst length]. split; [lia|].
      constructor.
      * apply get_payload_bound in Ek.
        destruct (payload_len_positive _ _ Hf Ek Hpos) as [Hlt Hsum].
        split; [cbn; lia|]. exists f. split; [apply list_elem_of_here|done].
      * eapply Forall_impl; [exact Hall|]. apply delivered_from_further.
    + destruct (IH count) as [Hn Hall]. split; [done|].
      eapply Forall_impl; [exact Hall|]. apply delivered_from_further.
Qed.

(** X2.  When no frame of the file faults, the calls are those of the first
    [count] frames that have a payload, in file order: a frame without
    payload is passed over and does not use up the count. *)
Theorem process_frames_take (frames : list frame) (count : N) :
  Forall (fun f => exists k,
            outcome (get_payload (frame_packet f) (frame_header f)) = Ok k)
         frames ->
  process_frames frames count =
  (take (N.to_nat count) (omap call_of frames), Ok tt).
Proof.
  revert count. induction frames as [|f frames IH]; intros count Hall.
  - cbn. by rewrite take_nil.
  - apply Forall_cons in Hall as [[k Hk] Hall]. cbn [process_frames].
    change (omap call_of (f :: frames))
      with (match call_of f with
            | Some c => c :: omap call_of frames
            | None => omap call_of frames
            end).
    unfold call_of at 1. rewrite Hk.
    destruct (N.eqb_spec count 0) as [->|Hc].
    { cbn. by destruct (0 <? _)%Z. }
    destruct (0 <? payload_len (frame_header f) k)%Z.
    + rewrite (IH (count - 1) Hall). cbn [fst snd].
      replace (N.to_nat count) with (S (N.to_nat (count - 1))) by lia.
      done.
    + by apply IH.
Qed.


Lemma process_payload_calls_witness :
  sample_capture "sample.pcap" = Some sample_frames /\
  Forall u32_caplen sample_frames /\
  process_payload sample_capture "sample.pcap" 2 =
    Value ([ {| call_packet := vlan_tcp_frame; call_offset := 58;
                call_len := 8 |};
             {| call_packet := nested_frame; call_offset := 82;
                call_len := 8 |} ], Ok tt) /\
  Forall (delivered_from sample_frames)
    [ {| call_packet := vlan_tcp_frame; call_offset := 58; call_len := 8 |};
      {| call_packet := nested_frame; call_offset := 82; call_len := 8 |} ].
Proof.
  assert (Hopen : sample_capture "sample.pcap" = Some sample_frames)
    by reflexivity.
  assert (Hu : Forall u32_caplen sample_frames)
    by (repeat constructor).
  assert (Hrun : process_payload sample_capture "sample.pcap" 2 =
    Value ([ {| call_packet := vlan_tcp_frame; call_offset := 58;
                call_len := 8 |};
             {| call_packet := nested_frame; call_offset := 82;
                call_len := 8 |} ], Ok tt))
    by (vm_compute; reflexivity).
  split; [exact Hopen|]. split; [exact Hu|]. split; [exact Hrun|].
  exact (proj2 (process_payload_calls _ _ _ _ _ Hopen Hu Hrun)).
Defined.
Lemma process_frames_take_witness :
  Forall (fun f => exists k,
            outcome (get_payload (frame_packet f) (frame_header f)) = Ok k)
         sample_frames /\
  process_frames sample_frames 2 =
  ([ {| call_packet := vlan_tcp_frame; call_offset := 58; call_len := 8 |};
     {| call_packet := nested_frame; call_offset := 82; call_len := 8 |} ],
   Ok tt).
Proof.
  assert (H : Forall (fun f => exists k,
            outcome (get_payload (frame_packet f) (frame_header f)) = Ok k)
         sample_frames).
  { repeat constructor; eexists; reflexivity. }
  split; [exact H|].
  rewrite (process_frames_take sample_frames 2 H). reflexivity.
Defined.

(** ** The least payload offset *)

Lemma link_layer_offset packet offset ty :
  outcome (link_layer packet) = Ok (offset, ty) ->
  offset = sizeof_ether_header \/ offset = sizeof_vlan_ethhdr.
Proof.
  unfold link_layer. rewrite outcome_bind.
  destruct (outcome (load16_ntohs packet off_ether_type)) as [ty0| |];
    try discriminate.
  destruct (ETHERTYPE_VLAN =? ty0).
  - rewrite outcome_bind.
    destruct (outcome (load16_ntohs packet off_vlan_ether_type)) as [ty1| |];
      try discriminate.
    cbn. intros [= <- _]. by right.
  - cbn. intros [= <- _]. by left.
Qed.

Lemma network_layer_offset packet offset ty offset' p :
  offset <= sizeof_vlan_ethhdr ->
  outcome (network_layer packet offset ty) = Ok (Some (offset', p)) ->
  offset + sizeof_ip <= offset' /\
  offset' <= N.of_nat (length packet) + 40.
Proof.
  unfold network_layer. intros Ho H.
  repeat split_protocol; try (read_ok H); cbn in H; try discriminate H;
    injection H as <- <-; destruct Ev as [Hm _]; unfold in_memory in Hm;
    autounfold with hdr in *; rewrite size_add_small;
    unfold SIZE_MAX1; lia.
Qed.

(** Within a buffer that fits the address space, a pass never moves the
    offset backwards, and leaves it within 40 bytes of the readable bytes
    when it asks for another pass. *)
Lemma l4_body_forward packet offset p r :
  addressable packet ->
  offset <= N.of_nat (length packet) + 40 ->
  outcome (l4_body packet offset p) = Ok r ->
  match r with
  | Again offset' _ =>
      offset <= offset' /\ offset' <= N.of_nat (length packet) + 40
  | Leave offset' _ => offset <= offset'
  | ReturnEnd => True
  end.
Proof.
  unfold addressable, l4_body, SIZE_MAX1. intros Ha Ho H.
  repeat split_protocol; try (read_ok H); cbn in H; try discriminate H;
    injection H as <-; try done;
    try (destruct Ev as [Hm Hv]; unfold in_memory in Hm);
    autounfold with hdr in *; rewrite size_add_small;
    unfold SIZE_MAX1; try lia.
  all: assert (v / 16 < 16) by (apply N.Div0.div_lt_upper_bound; lia).
  all: generalize dependent (v / 16); intros; lia.
Qed.

Lemma l4_loop_forward packet : forall fuel offset p offset',
  addressable packet ->
  offset <= N.of_nat (length packet) + 40 ->
  outcome (l4_loop fuel packet offset p) = Ok (Some offset') ->
  offset <= offset'.
Proof.
  induction fuel as [|fuel IH]; intros offset p offset' Ha Ho H;
    [discriminate H|].
  cbn [l4_loop] in H. rewrite outcome_bind in H.
  destruct (outcome (l4_body packet offset p)) as [r| |] eqn:Eb;
    try discriminate H.
  pose proof (l4_body_forward _ _ _ _ Ha Ho Eb) as Hf.
  destruct r as [o1 p1|o1 p1|].
  - destruct Hf as [Hle Hb]. specialize (IH _ _ _ Ha Hb H). lia.
  - cbn in H. by injection H as <-.
  - discriminate H.
Qed.

(** X3.  Within a buffer that fits the address space, the payload that
    [get_payload] finds never starts before byte 34 (an Ethernet header and
    an IPv4 header): the result is the end of the capture or an offset of at
    least 34.  A frame of which at most 34 bytes were captured has no
    payload. *)
Theorem get_payload_minimum_offset packet header k :
  addressable packet ->
  outcome (get_payload packet header) = Ok k ->
  (k = caplen header \/ 34 <= k) /\
  (caplen header <= 34 -> k = caplen header).
Proof.
  intros Ha Hk.
  assert (H : k = caplen header \/ 34 <= k); [|split; [done|]].
  - rewrite get_payload_outcome, skip_headers_outcome in Hk.
    destruct (outcome (link_layer packet)) as [[o ty]| |] eqn:El;
      try discriminate Hk.
    destruct (outcome (network_layer packet o ty)) as [[[o1 p]|]| |] eqn:En;
      try discriminate Hk; [|injection Hk as <-; by left].
    destruct (outcome (l4_loop _ packet o1 p)) as [[off|]| |] eqn:Ep;
      try discriminate Hk; [|injection Hk as <-; by left].
    injection Hk as <-.
    destruct (N.ltb_spec (caplen header) off); [by left|right].
    apply link_layer_offset in El.
    apply network_layer_offset in En as [Hlo Hhi];
      [|autounfold with hdr in *; lia].
    apply l4_loop_forward in Ep; [|done|done].
    autounfold with hdr in *. lia.
  - intros Hc. apply get_payload_bound in Hk. lia.
Qed.

Lemma get_payload_minimum_offset_witness :
  addressable snap14_frame /\
  outcome (get_payload snap14_frame (hdr 14 62)) = Ok 14 /\
  (14 = caplen (hdr 14 62) \/ 34 <= 14).
Proof.
  split; [vm_compute; discriminate|]. split; [reflexivity|].
  apply (get_payload_minimum_offset snap14_frame (hdr 14 62) 14).
  - vm_compute; discriminate.
  - reflexivity.
Defined.

(** * Printing a payload *)

Lemma B_u8 (c : byte) : B (u8 c) = c.
Proof. unfold B, u8. by rewrite Byte.of_to_N. Qed.

Lemma u8_B (n : N) : n < 256 -> u8 (B n) = n.
Proof.
  intros Hn. unfold B, u8.
  destruct (Byte.of_N n) as [b|] eqn:E.
  - cbn. by apply Byte.to_of_N.
  - apply Byte.of_N_None_iff in E. lia.
Qed.

Lemma isprint_hex_digit d : d < 16 -> isprint (u8 (hex_digit d)) = true.
Proof.
  intros Hd. unfold hex_digit, isprint.
  destruct (N.ltb_spec d 10); rewrite u8_B by lia;
    apply andb_true_iff; split; apply N.leb_le; lia.
Qed.

Lemma print_byte_printable c :
  c < 256 -> Forall (fun b => isprint (u8 b) = true) (print_byte c).
Proof.
  intros Hc. unfold print_byte. destruct (isprint c) eqn:Ep.
  - constructor; [|constructor]. by rewrite u8_B.
  - repeat constructor.
    + apply isprint_hex_digit. apply N.Div0.div_lt_upper_bound. lia.
    + apply isprint_hex_digit. apply N.mod_lt. lia.
Qed.

Lemma print_byte_length c :
  length (print_byte c) = if isprint c then 1%nat else 4%nat.
Proof. unfold print_byte. by destruct (isprint c). Qed.

(** The loop writes the rendering of the bytes from [i] on, one after the
    other. *)
Lemma print_loop_ok : forall n payload i,
  (N.to_nat i + n <= length payload)%nat ->
  outcome (print_loop n payload i) =
  Ok (rendering (take n (drop (N.to_nat i) payload))).
Proof.
  induction n as [|n IH]; intros payload i Hlen; cbn [print_loop].
  - by rewrite take_0.
  - rewrite outcome_bind. unfold load8 at 1. cbn [outcome snd].
    destruct (lookup_lt_is_Some_2 payload (N.to_nat i)) as [b Hb]; [lia|].
    rewrite Hb. rewrite outcome_bind, IH by lia. cbn [outcome snd mret M_ret].
    rewrite (drop_S _ _ _ Hb). unfold rendering.
    cbn [take fmap list_fmap concat].
    replace (N.to_nat (i + 1)) with (S (N.to_nat i)) by lia. done.
Qed.

Lemma print_loop_fault : forall n payload i,
  (N.to_nat i <= length payload < N.to_nat i + n)%nat ->
  outcome (print_loop n payload i) = Fault.
Proof.
  induction n as [|n IH]; intros payload i Hlen; [lia|].
  cbn [print_loop]. rewrite outcome_bind. unfold load8 at 1.
  cbn [outcome snd].
  destruct (payload !! N.to_nat i) as [b|] eqn:Hb; [|done].
  apply lookup_lt_Some in Hb. rewrite outcome_bind, IH by lia. done.
Qed.

Lemma rendering_cons b l : rendering (b :: l) = print_byte (u8 b) ++ rendering l.
Proof. reflexivity. Qed.

Lemma rendering_printable l :
  Forall (fun b => isprint (u8 b) = true) (rendering l).
Proof.
  induction l as [|b l IH]; [constructor|].
  rewrite rendering_cons. apply Forall_app. split; [|done].
  apply print_byte_printable. unfold u8.
  pose proof (Byte.to_N_bounded b). lia.
Qed.

Lemma rendering_length l :
  (length l <= length (rendering l) <= 4 * length l)%nat.
Proof.
  induction l as [|b l IH]; [cbn; lia|].
  rewrite rendering_cons, length_app, print_byte_length. cbn [length].
  destruct (isprint (u8 b)); lia.
Qed.

(** X4.  Whatever bytes the payload holds, [print_readable] writes only
    printable characters followed by one line feed: between one and four
    characters for every byte of the payload.  It faults exactly when
    [length] exceeds the readable bytes. *)
Theorem print_readable_output (payload : list byte) (len : N) :
  (len <= N.of_nat (length payload) ->
   exists body,
     outcome (print_readable payload len) = Ok (body ++ ["010"%byte]) /\
     Forall (fun b => isprint (u8 b) = true) body /\
     (N.to_nat len <= length body <= 4 * N.to_nat len)%nat) /\
  (N.of_nat (length payload) < len ->
   outcome (print_readable payload len) = Fault).
Proof.
  unfold print_readable. split; intros Hlen; rewrite outcome_bind.
  - rewrite print_loop_ok by (cbn; lia).
    change (N.to_nat 0) with 0%nat. rewrite drop_0.
    eexists. split; [reflexivity|]. split; [apply rendering_printable|].
    pose proof (rendering_length (take (N.to_nat len) payload)) as H.
    rewrite length_take in H. lia.
  - rewrite print_loop_fault by (cbn; lia). done.
Qed.

Lemma print_readable_output_witness :
  3 <= N.of_nat (length [B 65; B 0; B 10]) /\
  outcome (print_readable [B 65; B 0; B 10] 3) =
    Ok ([B 65; B 92; B 120; B 48; B 48; B 92; B 120; B 48; B 97]
        ++ ["010"%byte]) /\
  N.of_nat (length [B 65]) < 3 /\
  outcome (print_readable [B 65] 3) = Fault.
Proof.
  destruct (print_readable_output [B 65; B 0; B 10] 3) as [Hok _].
  destruct (print_readable_output [B 65] 3) as [_ Hfault].
  split; [vm_compute; discriminate|]. split; [reflexivity|].
  split; [reflexivity|]. apply Hfault. reflexivity.
Defined.

(** X5.  A payload is written back unchanged, followed by the line feed,
    exactly when all its bytes are printable. *)
Theorem print_readable_echo (payload : list byte) :
  outcome (print_readable payload (N.of_nat (length payload)))
    = Ok (payload ++ ["010"%byte])
  <-> Forall (fun b => isprint (u8 b) = true) payload.
Proof.
  unfold print_readable. rewrite outcome_bind, Nat2N.id.
  rewrite print_loop_ok by (cbn; lia).
  change (N.to_nat 0) with 0%nat. rewrite drop_0, firstn_all.
  cbn [outcome snd mret M_ret]. split.
  - intros [= H]. apply app_inv_tail in H.
    induction payload as [|b l IH]; [constructor|].
    rewrite rendering_cons in H. unfold print_byte at 1 in H.
    destruct (isprint (u8 b)) eqn:Eb.
    + cbn in H. injection H as _ H. constructor; [done|by apply IH].
    + exfalso. apply (f_equal length) in H. cbn in H.
      pose proof (rendering_length l). lia.
  - intros Hall. do 2 f_equal.
    induction Hall as [|b l Hb _ IH]; [done|].
    rewrite rendering_cons. unfold print_byte at 1. rewrite Hb, B_u8.
    cbn. by rewrite IH.
Qed.

Lemma print_readable_echo_witness :
  Forall (fun b => isprint (u8 b) = true) [B 71; B 69; B 84; B 32; B 47] /\
  outcome (print_readable [B 71; B 69; B 84; B 32; B 47] 5)
    = Ok ([B 71; B 69; B 84; B 32; B 47] ++ ["010"%byte]).
Proof.
  assert (H : Forall (fun b => isprint (u8 b) = true)
                     [B 71; B 69; B 84; B 32; B 47])
    by (repeat constructor).
  split; [exact H|].
  exact (proj2 (print_readable_echo [B 71; B 69; B 84; B 32; B 47]) H).
Defined.

(** * Frequencies over a capture *)

(** One call of [label_states], in the form the fold over the payloads
    uses. *)
Lemma label_states_run (E : env) (nfa : FastNfa E) (state_freq : list N)
    (payload : list byte) :
  Forall (fun s => s < state_count E nfa) (parse_word E nfa payload) ->
  (length state_freq <= N.to_nat (state_count E nfa))%nat ->
  (N.to_nat (get_initial_state_idx E nfa) < length state_freq)%nat ->
  exists state_freq',
    label_states E nfa state_freq payload = Some (nfa, state_freq') /\
    length state_freq' = length state_freq /\
    forall (i : nat) (f : N),
      state_freq !! i = Some f ->
      state_freq' !! i =
      Some ((f + bit (bool_decide (N.of_nat i ∈ parse_word E nfa payload))
               + bit (bool_decide
                        (N.of_nat i = get_initial_state_idx E nfa)))
            mod SIZE_MAX1).
Proof.
  intros Hvis Hlen Hinit. unfold label_states.
  destruct (set_bit_foldl (parse_word E nfa payload)
              (replicate (N.to_nat (state_count E nfa)) false))
    as (bm & -> & Hbmlen & Hbm).
  { rewrite length_replicate. eapply Forall_impl; [exact Hvis|].
    cbn. intros s Hs. lia. }
  rewrite length_replicate in Hbmlen. cbn.
  destruct (add_bit_foldl bm (length state_freq) 0 state_freq)
    as (sf1 & -> & Hlen1 & Hsf1); [lia|lia|]. cbn.
  unfold incr.
  destruct (lookup_lt_is_Some_2 sf1 (N.to_nat (get_initial_state_idx E nfa)))
    as [f0 Hf0]; [lia|].
  rewrite Hf0. cbn. eexists. split; [reflexivity|].
  split; [by rewrite length_insert|].
  intros i f Hi.
  set (visited := bit (bool_decide (N.of_nat i ∈ parse_word E nfa payload))).
  assert (Hil : (i < length state_freq)%nat) by (by eapply lookup_lt_Some).
  assert (Hi1 : sf1 !! i = Some (size_add f visited)).
  { rewrite Hsf1, decide_True by lia. rewrite Hi. cbn. do 2 f_equal.
    rewrite Hbm, lookup_replicate_2 by lia. done. }
  destruct (decide (N.of_nat i = get_initial_state_idx E nfa)) as [He|Hne].
  - rewrite <- He, Nat2N.id in *. rewrite list_lookup_insert_eq by lia.
    rewrite bool_decide_eq_true_2 by done.
    rewrite Hi1 in Hf0. injection Hf0 as <-.
    by rewrite size_add_assoc.
  - rewrite list_lookup_insert_ne by lia.
    rewrite bool_decide_eq_false_2 by done. rewrite Hi1. cbn.
    unfold size_add. by rewrite N.add_0_r.
Qed.

Lemma visits_cons (E : env) (nfa : FastNfa E) i p payloads :
  visits E nfa i (p :: payloads) =
  bit (bool_decide (N.of_nat i ∈ parse_word E nfa p))
  + visits E nfa i payloads.
Proof.
  unfold visits. destruct (decide (N.of_nat i ∈ parse_word E nfa p)) as [H|H].
  - rewrite filter_cons_True, bool_decide_eq_true_2 by done. cbn [length bit].
    lia.
  - rewrite filter_cons_False, bool_decide_eq_false_2 by done. cbn [bit]. lia.
Qed.

Lemma count_frequencies_from (E : env) (nfa : FastNfa E) :
  forall (payloads : list (list byte)) (total : N) (state_freq : list N),
  Forall (fun p => Forall (fun s => s < state_count E nfa)
                          (parse_word E nfa p)) payloads ->
  (length state_freq <= N.to_nat (state_count E nfa))%nat ->
  (N.to_nat (get_initial_state_idx E nfa) < length state_freq)%nat ->
  total < SIZE_MAX1 ->
  Forall (fun f => f < SIZE_MAX1) state_freq ->
  exists state_freq',
    foldl (count_payload E) (Some (total, nfa, state_freq)) payloads =
      Some ((total + N.of_nat (length payloads)) mod SIZE_MAX1, nfa,
            state_freq') /\
    length state_freq' = length state_freq /\
    forall (i : nat) (f : N),
      state_freq !! i = Some f ->
      state_freq' !! i =
      Some ((f + visits E nfa i payloads
               + (if bool_decide (N.of_nat i = get_initial_state_idx E nfa)
                  then N.of_nat (length payloads) else 0))
            mod SIZE_MAX1).
Proof.
  induction payloads as [|p payloads IH];
    intros total state_freq Hvis Hlen Hinit Htot Hsmall.
  - exists state_freq. cbn -[N.modulo].
    rewrite N.add_0_r, N.mod_small by done. split; [done|]. split; [done|].
    intros i f Hi. unfold visits. cbn -[N.modulo].
    rewrite Hi. f_equal. symmetry.
    rewrite Forall_lookup in Hsmall. specialize (Hsmall i f Hi).
    case_bool_decide; rewrite !N.add_0_r; by apply N.mod_small.
  - apply Forall_cons in Hvis as [Hp Hvis]. cbn [foldl].
    destruct (label_states_run E nfa state_freq p Hp Hlen Hinit)
      as (sf1 & Hrun & Hlen1 & Hsf1).
    unfold count_payload at 2. cbn. rewrite Hrun. cbn.
    destruct (IH (size_add total 1) sf1) as (sf' & Hfold & Hlen' & Hsf');
      [done|lia|lia|apply N.mod_lt; unfold SIZE_MAX1; lia| |].
    { apply Forall_lookup. intros i x Hx.
      destruct (lookup_lt_is_Some_2 state_freq i) as [f Hf].
      { apply lookup_lt_Some in Hx. lia. }
      rewrite (Hsf1 i f Hf) in Hx. injection Hx as <-.
      apply N.mod_lt. unfold SIZE_MAX1. lia. }
    exists sf'. split; [|split; [lia|]].
    + rewrite Hfold. do 3 f_equal. unfold size_add.
      rewrite N.Div0.add_mod_idemp_l. f_equal. cbn [length]. lia.
    + intros i f Hf. rewrite (Hsf' i _ (Hsf1 i f Hf)). f_equal.
      rewrite visits_cons.
      rewrite <- N.add_assoc, N.Div0.add_mod_idemp_l. f_equal.
      cbn [length]. unfold bit. repeat case_bool_decide; lia.
Qed.

(** X6.  Counting over a capture: when every replay calls the visitor on
    states of the automaton only, the frequency branch ends with [total]
    equal to the number of payloads and, for every state, a counter equal to
    the number of payloads during which the state was visited, with the
    number of payloads added once more for the initial state; all of it in
    [size_t] arithmetic.  The automaton is unchanged. *)
Theorem count_frequencies_counts (E : env) (nfa : FastNfa E)
    (payloads : list (list byte)) :
  Forall (fun p => Forall (fun s => s < state_count E nfa)
                          (parse_word E nfa p)) payloads ->
  get_initial_state_idx E nfa < state_count E nfa ->
  exists state_freq,
    count_frequencies E nfa payloads =
      Some (N.of_nat (length payloads) mod SIZE_MAX1, nfa, state_freq) /\
    length state_freq = N.to_nat (state_count E nfa) /\
    forall i : nat,
      (i < N.to_nat (state_count E nfa))%nat ->
      state_freq !! i =
      Some ((visits E nfa i payloads
             + (if bool_decide (N.of_nat i = get_initial_state_idx E nfa)
                then N.of_nat (length payloads) else 0))
            mod SIZE_MAX1).
Proof.
  intros Hvis Hinit. unfold count_frequencies.
  destruct (count_frequencies_from E nfa payloads 0
              (replicate (N.to_nat (state_count E nfa)) 0))
    as (sf & Hfold & Hlen & Hsf); try done.
  - by rewrite length_replicate.
  - rewrite length_replicate. lia.
  - apply Forall_replicate. unfold SIZE_MAX1. lia.
  - rewrite length_replicate in Hlen. exists sf.
    split; [by rewrite Hfold|]. split; [done|].
    intros i Hi. rewrite (Hsf i 0); [done|].
    by apply lookup_replicate_2.
Qed.

Lemma count_frequencies_counts_witness :
  Forall (fun p => Forall (fun s => s < state_count sample_env sample)
                          (parse_word sample_env sample p))
         [[B 1; B 4]; [B 2]; [B 1; B 0]] /\
  get_initial_state_idx sample_env sample < state_count sample_env sample /\
  exists state_freq,
    count_frequencies sample_env sample [[B 1; B 4]; [B 2]; [B 1; B 0]] =
      Some (3, sample, state_freq) /\
    state_freq !! 0%nat = Some 4 /\
    state_freq !! 1%nat = Some 2 /\
    state_freq !! 2%nat = Some 1.
Proof.
  split; [vm_compute; repeat constructor|]. split; [reflexivity|].
  destruct (count_frequencies_counts sample_env sample
              [[B 1; B 4]; [B 2]; [B 1; B 0]])
    as (sf & Hrun & Hlen & Hsf).
  - vm_compute; repeat constructor.
  - reflexivity.
  - exists sf. split; [exact Hrun|].
    pose proof (Hsf 0%nat) as H0. pose proof (Hsf 1%nat) as H1.
    pose proof (Hsf 2%nat) as H2.
    split; [rewrite H0; [reflexivity|vm_compute; lia]|].
    split; [rewrite H1; [reflexivity|vm_compute; lia]|].
    rewrite H2; [reflexivity|vm_compute; lia].
Defined.

(** * The option loop *)

Section OptionLoop.
Context (E : env).

Lemma option_case_passable o c optarg :
  (exists o', option_case E o c optarg = Next o') <-> passable E (c, optarg).
Proof.
  unfold option_case, passable. cbn [fst snd]. split.
  - intros [o' H].
    repeat case_decide; subst; try discriminate H;
      try (left; set_solver).
    + right. split; [set_solver|].
      destruct (stod E optarg) as [x|]; [|discriminate H]. cbn in H.
      destruct (check_float_default E x) as [[]|] eqn:Ec; [|discriminate H].
      apply check_float_passes in Ec. eauto.
    + right. split; [set_solver|].
      destruct (stod E optarg) as [x|]; [|discriminate H]. cbn in H.
      destruct (check_float_default E x) as [[]|] eqn:Ec; [|discriminate H].
      apply check_float_passes in Ec. eauto.
  - intros [Hc|[Hc (x & Hx & Ha)]].
    + rewrite !elem_of_cons, elem_of_nil in Hc.
      destruct Hc as [->|[->|[->|[]]]]; cbn; eauto.
    + apply (check_float_passes E) in Ha.
      rewrite !elem_of_cons, elem_of_nil in Hc.
      destruct Hc as [->|[->|[]]]; cbn; rewrite Hx; cbn; rewrite Ha; cbn;
        eauto.
Qed.

Ltac leaf :=
  vm_compute (option_weight _);
  repeat (case_decide; try discriminate);
  repeat split; try done; try lia.

(** What one passed option does to the variables. *)
Lemma option_case_effect o c optarg o' :
  option_case E o c optarg = Next o' ->
  opt_cnt o' = (opt_cnt o + option_weight c)%Z /\
  freq_opt o' = freq_opt o || bool_decide (c = "f"%char) /\
  outfile o' = (if decide (c = "o"%char) then optarg else outfile o) /\
  red_type o' = (if decide (c = "t"%char) then optarg else red_type o) /\
  (if decide (c = "p"%char) then stod E optarg = Value (pct o')
   else pct o' = pct o) /\
  (if decide (c = "e"%char) then stod E optarg = Value (eps o')
   else eps o' = eps o).
Proof.
  unfold option_case. intros H.
  destruct (decide (c = "h"%char)) as [->|Hh]; [discriminate H|].
  destruct (decide (c = "o"%char)) as [->|Ho].
  { injection H as <-. cbn. rewrite orb_false_r. by leaf. }
  destruct (decide (c = "f"%char)) as [->|Hf].
  { injection H as <-. cbn. rewrite orb_true_r. by leaf. }
  rewrite (bool_decide_eq_false_2 (c = "f"%char)), orb_false_r by done.
  destruct (decide (c = "e"%char)) as [->|He].
  { destruct (stod E optarg) as [x|]; [|discriminate H]. cbn in H.
    destruct (check_float_default E x) as [[]|]; [|discriminate H].
    cbn in H. injection H as <-. cbn. by leaf. }
  destruct (decide (c = "p"%char)) as [->|Hp].
  { destruct (stod E optarg) as [x|]; [|discriminate H]. cbn in H.
    destruct (check_float_default E x) as [[]|]; [|discriminate H].
    cbn in H. injection H as <-. cbn. by leaf. }
  destruct (decide (c = "t"%char)) as [->|Ht]; [|discriminate H].
  injection H as <-. cbn. by leaf.
Qed.

Lemma option_loop_passable : forall opts o,
  (exists o', option_loop E o opts = Next o') <-> Forall (passable E) opts.
Proof.
  induction opts as [|[c optarg] opts IH]; intros o.
  - split; [constructor|]. cbn. eauto.
  - cbn [option_loop]. rewrite Forall_cons, <- option_case_passable. split.
    + intros [o' H].
      destruct (option_case E o c optarg) as [o1| |] eqn:Ec;
        try discriminate H.
      split; [eauto|]. apply (IH o1). eauto.
    + intros [[o1 Ec] Hall]. rewrite Ec. cbn. by apply IH.
Qed.

Lemma option_loop_effect : forall opts o o',
  option_loop E o opts = Next o' ->
  opt_cnt o' = (opt_cnt o + foldr Z.add 0%Z (option_weight <$> opts.*1))%Z /\
  freq_opt o' = freq_opt o || bool_decide ("f"%char ∈ opts.*1) /\
  outfile o' = default (outfile o) (last_arg "o" opts) /\
  red_type o' = default (red_type o) (last_arg "t" opts) /\
  match last_arg "p" opts with
  | Some a => stod E a = Value (pct o')
  | None => pct o' = pct o
  end /\
  match last_arg "e" opts with
  | Some a => stod E a = Value (eps o')
  | None => eps o' = eps o
  end.
Proof.
  induction opts as [|[c optarg] opts IH]; intros o o' H.
  - injection H as <-. cbn. rewrite orb_false_r.
    repeat split; try done; lia.
  - cbn [option_loop] in H.
    destruct (option_case E o c optarg) as [o1| |] eqn:Ec; try discriminate H.
    cbn in H. apply option_case_effect in Ec as (Hc & Hf & Ho & Ht & Hp & He).
    apply IH in H as (Hc' & Hf' & Ho' & Ht' & Hp' & He').
    cbn [fmap list_fmap fst foldr last_arg].
    split; [lia|]. split.
    { rewrite Hf', Hf, <- orb_assoc. f_equal.
      destruct (decide (c = "f"%char)) as [->|Hne].
      - rewrite (bool_decide_eq_true_2 ("f"%char ∈ _ :: _));
          [done|apply list_elem_of_here].
      - rewrite (bool_decide_eq_false_2 (c = _)) by done. cbn.
        apply bool_decide_ext. rewrite elem_of_cons.
        split; [auto|]. intros [Hq|Hq]; [congruence|done]. }
    split.
    { rewrite Ho', Ho. destruct (last_arg "o" opts); [done|].
      by destruct (decide (c = "o"%char)). }
    split.
    { rewrite Ht', Ht. destruct (last_arg "t" opts); [done|].
      by destruct (decide (c = "t"%char)). }
    split.
    { destruct (last_arg "p" opts); [done|].
      destruct (decide (c = "p"%char)); congruence. }
    { destruct (last_arg "e" opts); [done|].
      destruct (decide (c = "e"%char)); congruence. }
Qed.
End OptionLoop.

(** X7.  The option loop reaches its end exactly when every option is one of
    [-o], [-f], [-t], [-e], [-p] and every argument of [-e] and [-p]
    converts to a value that [check_float] lets through; [-h], an unknown
    option or a rejected value ends [main] before that. *)
Theorem option_loop_passes (E : env) (opts : list (ascii * string)) :
  (exists o, option_loop E initial_options opts = Next o) <->
  Forall (passable E) opts.
Proof. apply option_loop_passable. Qed.

(** X8.  After the loop, every variable holds what the last occurrence of
    its option gave it, or its initial value when the option did not occur:
    the output file, the reduction type, [pct] and [eps]; the frequency
    flag is set exactly when [-f] occurred; and [opt_cnt] is 1 plus one for
    every option plus one more for every option with an argument. *)
Theorem option_loop_last_wins (E : env) (opts : list (ascii * string))
    (o : options) :
  option_loop E initial_options opts = Next o ->
  opt_cnt o = (1 + foldr Z.add 0%Z (option_weight <$> opts.*1))%Z /\
  freq_opt o = bool_decide ("f"%char ∈ opts.*1) /\
  outfile o = default "reduced-nfa.fa" (last_arg "o" opts) /\
  red_type o = default "prune" (last_arg "t" opts) /\
  match last_arg "p" opts with
  | Some a => stod E a = Value (pct o)
  | None => pct o = Finite (-1)
  end /\
  match last_arg "e" opts with
  | Some a => stod E a = Value (eps o)
  | None => eps o = Finite (-1)
  end.
Proof. intros H. by apply option_loop_effect in H. Qed.

Lemma option_loop_passes_witness :
  Forall (passable sample_env) [("p"%char, "0.5"); ("f"%char, "")] /\
  (exists o, option_loop sample_env initial_options
               [("p"%char, "0.5"); ("f"%char, "")] = Next o) /\
  ¬ passable sample_env ("p"%char, "1.5") /\
  ¬ exists o, option_loop sample_env initial_options
                [("f"%char, ""); ("p"%char, "1.5")] = Next o.
Proof.
  assert (H : Forall (passable sample_env)
                [("p"%char, "0.5"); ("f"%char, "")]).
  { constructor.
    - right. split; [cbn; rewrite !elem_of_cons; auto|].
      exists (Finite (1 # 2)). split; [reflexivity|]. right.
      exists (1 # 2)%Q. repeat split; vm_compute; discriminate.
    - constructor; [|constructor]. left. cbn. rewrite !elem_of_cons. auto. }
  split; [exact H|].
  split; [exact (proj2 (option_loop_passes sample_env _) H)|].
  assert (Hbad : ¬ passable sample_env ("p"%char, "1.5")).
  { intros [Hc|[_ (x & Hx & Ha)]].
    - cbn in Hc. rewrite !elem_of_cons, elem_of_nil in Hc.
      destruct Hc as [Hc|[Hc|[Hc|[]]]]; discriminate Hc.
    - injection Hx as <-. destruct Ha as [Hn|(q & [= <-] & _ & Hq)];
        [discriminate Hn|]. vm_compute in Hq. by apply Hq. }
  split; [exact Hbad|].
  intros Hrun. apply (option_loop_passes sample_env) in Hrun.
  apply Forall_cons in Hrun as [_ Hrun].
  apply Forall_cons in Hrun as [Hrun _]. by apply Hbad.
Defined.

Lemma option_loop_last_wins_witness :
  (exists o,
     option_loop sample_env initial_options
       [("p"%char, "0.5"); ("f"%char, ""); ("p"%char, "1");
        ("o"%char, "out.fa")] = Next o /\
     opt_cnt o = 8%Z /\ freq_opt o = true /\ outfile o = "out.fa" /\
     red_type o = "prune" /\ pct o = Finite 1 /\ eps o = Finite (-1)).
Proof.
  eexists. split; [vm_compute; reflexivity|].
  match goal with
  | |- opt_cnt ?o = _ /\ _ =>
      destruct (option_loop_last_wins sample_env
        [("p"%char, "0.5"); ("f"%char, ""); ("p"%char, "1");
         ("o"%char, "out.fa")] o) as (Hc & Hf & Ho & Ht & Hp & He)
  end.
  - vm_compute; reflexivity.
  - repeat split; try assumption; reflexivity.
Defined.

(** * What [main] has read when it calls a reducer *)

Lemma option_weights_nonneg (cs : list ascii) :
  (0 <= foldr Z.add 0%Z (option_weight <$> cs))%Z.
Proof.
  induction cs as [|c cs IH]; cbn; [lia|].
  unfold option_weight at 1. case_bool_decide; lia.
Qed.

Lemma lookup_default (argv : list string) (k : nat) :
  (k < length argv)%nat ->
  argv !! k = Some (default EmptyString (argv !! k)).
Proof.
  intros Hk. by destruct (lookup_lt_is_Some_2 argv k Hk) as [a ->].
Qed.

(** X9.  When [main] calls a reducer, no [-f] was given; the two arguments
    behind the ones that the options account for exist in [argv] and are the
    automaton file and the label file; the automaton was built from the
    first and the labels were read from the second without error; the
    output file could be opened; and the reducer is [prune] or
    [merge_and_prune] according to the last [-t] (or [prune] without
    one). *)
Theorem main_reduces_after_loading (E : env) (argv : list string)
    (opts : list (ascii * string)) nfa labels call :
  main E argv opts = Reduces nfa labels call ->
  let n := Z.to_nat (1 + foldr Z.add 0%Z (option_weight <$> opts.*1)) in
  ("f"%char ∉ opts.*1) /\
  (exists nfa_str pcap,
      argv !! n = Some nfa_str /\ argv !! S n = Some pcap /\
      read_from_file E nfa_str = Value nfa /\
      read_state_labels E nfa pcap = Value labels) /\
  can_open_output E (default "reduced-nfa.fa" (last_arg "o" opts)) = true /\
  match call with
  | call_prune _ _ => default "prune" (last_arg "t" opts) = "prune"
  | call_merge_and_prune _ => default "prune" (last_arg "t" opts) = "merge"
  end.
Proof.
  unfold main. intros H.
  destruct (main_try E argv opts) as [r| |] eqn:Et; try discriminate H.
  subst r. unfold main_try in Et.
  destruct (Z.of_nat (length argv) <? 2)%Z; [discriminate Et|].
  destruct (option_loop E initial_options opts) as [o| |] eqn:Eo;
    try discriminate Et.
  apply option_loop_effect in Eo as (Hc & Hf & Ho & Ht & _ & _).
  cbn [initial_options opt_cnt freq_opt outfile red_type orb] in *.
  cbn in Et.
  destruct (Z.ltb_spec (Z.of_nat (length argv) - opt_cnt o) 2) as [?|Hargs];
    [discriminate Et|].
  pose proof (option_weights_nonneg opts.*1) as Hw.
  destruct (read_from_file E _) as [nfa'|] eqn:En; [|discriminate Et].
  cbn in Et.
  destruct (can_open_output E (outfile o)) eqn:Eout; [|discriminate Et].
  cbn in Et.
  destruct (freq_opt o) eqn:Efreq; [discriminate Et|].
  destruct (read_state_labels E nfa' _) as [labels'|] eqn:El;
    [|discriminate Et].
  cbn in Et. cbv zeta. rewrite <- Hc.
  split.
  { intros Hin. symmetry in Hf. by apply bool_decide_eq_false in Hf. }
  assert (Hcall : nfa' = nfa /\ labels' = labels /\
            match call with
            | call_prune _ _ => red_type o = "prune"
            | call_merge_and_prune _ => red_type o = "merge"
            end).
  { repeat case_decide; try discriminate Et;
      injection Et as <- <- <-; done. }
  destruct Hcall as (-> & -> & Hcall).
  split; [|split; [by rewrite <- Ho|by rewrite <- Ht]].
  eexists _, _. split; [apply lookup_default; lia|].
  split; [|split; [exact En|]].
  - replace (S (Z.to_nat (opt_cnt o))) with (Z.to_nat (opt_cnt o + 1)) by lia.
    apply lookup_default. lia.
  - replace (S (Z.to_nat (opt_cnt o))) with (Z.to_nat (opt_cnt o + 1)) by lia.
    exact El.
Qed.

Lemma main_reduces_after_loading_witness :
  exists labels,
    main sample_env ["reduce"; "-t"; "merge"; "-p"; "0.5"; "sample.fa"; "labels"]
         [("t"%char, "merge"); ("p"%char, "0.5")] =
    Reduces (E := sample_env) sample labels
      (call_merge_and_prune (Finite (1 # 2))) /\
    ["reduce"; "-t"; "merge"; "-p"; "0.5"; "sample.fa"; "labels"] !! 5%nat
      = Some "sample.fa" /\
    read_from_file sample_env "sample.fa" = Value sample /\
    read_state_labels sample_env sample "labels" = Value labels.
Proof.
  assert (Hrun : exists labels,
    main sample_env ["reduce"; "-t"; "merge"; "-p"; "0.5"; "sample.fa"; "labels"]
         [("t"%char, "merge"); ("p"%char, "0.5")] =
    Reduces (E := sample_env) sample labels
      (call_merge_and_prune (Finite (1 # 2)))).
  { eexists. vm_compute. reflexivity. }
  destruct Hrun as [labels Hrun]. exists labels. split; [exact Hrun|].
  destruct (main_reduces_after_loading sample_env _ _ _ _ _ Hrun)
    as (_ & (nfa_str & pcap & Hn & Hp & Hnfa & Hlab) & _ & _).
  injection Hn as <-. injection Hp as <-. auto.
Defined.

(** * Writing the frequencies and reading them back *)

Lemma string_app_nil_l (b : string) : "" +:+ b = b.
Proof. reflexivity. Qed.

Lemma string_app_cons x (a b : string) :
  String x a +:+ b = String x (a +:+ b).
Proof. reflexivity. Qed.

Lemma string_app_assoc (a b c : string) : (a +:+ b) +:+ c = a +:+ b +:+ c.
Proof.
  induction a as [|x a IH]; [done|].
  by rewrite !string_app_cons, IH.
Qed.

Lemma string_app_nil_r (a : string) : a +:+ "" = a.
Proof.
  induction a as [|x a IH]; [done|]. by rewrite string_app_cons, IH.
Qed.

Lemma all_chars_app P (a b : string) :
  all_chars P (a +:+ b) <-> all_chars P a /\ all_chars P b.
Proof.
  induction a as [|x a IH]; [rewrite string_app_nil_l; cbn; tauto|].
  rewrite string_app_cons. cbn. rewrite IH. tauto.
Qed.

Lemma all_chars_impl (P Q : ascii -> Prop) (s : string) :
  (forall c, P c -> Q c) -> all_chars P s -> all_chars Q s.
Proof. intros H. induction s as [|x s IH]; cbn; [done|]. intuition. Qed.

(** ** Lines *)

Lemma remove_comment_plain (s : string) :
  all_chars (fun c => c <> hash) s -> remove_comment s = s.
Proof.
  induction s as [|x s IH]; cbn; [done|]. intros [Hx Hs].
  rewrite decide_False by done. by rewrite IH.
Qed.

Lemma getlines_from_line (s : string) : forall buf rest,
  all_chars (fun c => c <> newline) s ->
  getlines_from buf (s +:+ String newline rest) =
  (buf +:+ s) :: getlines_from "" rest.
Proof.
  induction s as [|x s IH]; intros buf rest Hs.
  - rewrite string_app_nil_l, string_app_nil_r. cbn.
    by rewrite decide_True.
  - destruct Hs as [Hx Hs]. rewrite string_app_cons. cbn [getlines_from].
    rewrite decide_False by done.
    rewrite IH by done. by rewrite string_app_assoc.
Qed.

Lemma getlines_unlines (ls : list string) :
  Forall (all_chars (fun c => c <> newline)) ls ->
  getlines (unlines ls) = ls.
Proof.
  unfold getlines. induction ls as [|l ls IH]; intros Hls; [done|].
  apply Forall_cons in Hls as [Hl Hls]. cbn [unlines foldr].
  unfold nl. rewrite string_app_cons, string_app_nil_l.
  rewrite getlines_from_line by done. rewrite string_app_nil_l.
  f_equal. by apply IH.
Qed.

(** ** Decimal numbers *)

Lemma pretty_N_char_plain d : plain (pretty_N_char d).
Proof.
  unfold pretty_N_char, plain, newline, hash.
  destruct d as [|p]; [split; discriminate|].
  do 4 (try (destruct p as [p|p|]; try (split; discriminate))).
Qed.

Lemma pretty_N_go_plain x : forall s,
  all_chars plain s -> all_chars plain (pretty_N_go x s).
Proof.
  induction (N.lt_wf_0 x) as [x _ IH]; intros s Hs.
  destruct (decide (x = 0)) as [->|Hx]; [by rewrite pretty_N_go_0|].
  rewrite pretty_N_go_step by lia. apply IH.
  - apply N.div_lt; lia.
  - split; [apply pretty_N_char_plain|done].
Qed.

Lemma to_string_plain n : all_chars plain (to_string n).
Proof.
  unfold to_string, pretty, pretty_N. case_decide.
  - cbn. repeat split; discriminate.
  - by apply pretty_N_go_plain.
Qed.

(** ** The text that is written *)

Section Rows.
Context (state_map state_depth : N -> N) (state_freq : list N).

Lemma frequency_lines_text : forall (l : list nat) (out : string),
  Forall (fun i => (i < length state_freq)%nat) l ->
  foldl (frequency_line state_map state_depth state_freq) (Some out) l =
  Some (out +:+ unlines (row state_map state_depth state_freq <$> l)).
Proof.
  induction l as [|i l IH]; intros out Hl.
  - cbn. by rewrite string_app_nil_r.
  - apply Forall_cons in Hl as [Hi Hl]. cbn [foldl].
    unfold frequency_line at 2. cbn.
    destruct (lookup_lt_is_Some_2 state_freq i Hi) as [f Hf].
    rewrite Hf. cbn. rewrite IH by done. f_equal.
    cbn [fmap list_fmap unlines foldr]. unfold row. rewrite Hf. cbn.
    by rewrite !string_app_assoc.
Qed.

Lemma row_plain i :
  all_chars plain (row state_map state_depth state_freq i).
Proof.
  unfold row. rewrite !all_chars_app.
  repeat split; try apply to_string_plain; discriminate.
Qed.

Lemma row_not_empty i : row state_map state_depth state_freq i <> "".
Proof.
  unfold row. destruct (to_string (state_map (N.of_nat i))); discriminate.
Qed.

Lemma kept_rows (l : list nat) :
  kept_lines (row state_map state_depth state_freq <$> l) =
  row state_map state_depth state_freq <$> l.
Proof.
  induction l as [|i l IH]; [done|]. cbn [fmap list_fmap].
  assert (Hr : remove_comment (row state_map state_depth state_freq i)
               = row state_map state_depth state_freq i).
  { apply remove_comment_plain.
    eapply all_chars_impl; [|apply row_plain]. by intros c [_ Hc]. }
  rewrite kept_lines_kept; rewrite Hr; [|apply row_not_empty].
  f_equal. exact IH.
Qed.

Lemma extract_row (E : env) i :
  reads_back (extract_state E) -> reads_back (extract_ulong E) ->
  state_map (N.of_nat i) < SIZE_MAX1 ->
  Forall (fun f => f < SIZE_MAX1) state_freq ->
  extract_label E (row state_map state_depth state_freq i) =
  Some (entry state_map state_freq i).
Proof.
  intros Hs Hl Hi Hf. unfold extract_label, row, entry.
  assert (Hfi : default 0 (state_freq !! i) < SIZE_MAX1).
  { destruct (state_freq !! i) as [f|] eqn:Ef; cbn.
    - rewrite Forall_forall in Hf. apply Hf.
      by apply list_elem_of_lookup_2 in Ef.
    - unfold SIZE_MAX1. lia. }
  destruct (Hs (state_map (N.of_nat i))
              (to_string (default 0 (state_freq !! i)) +:+ " " +:+
               to_string (state_depth (state_map (N.of_nat i)))) Hi)
    as [-> _].
  cbn.
  destruct (Hl (default 0 (state_freq !! i))
              (to_string (state_depth (state_map (N.of_nat i)))) Hfi)
    as [_ ->].
  done.
Qed.

Lemma extract_rows (E : env) (l : list nat) :
  reads_back (extract_state E) -> reads_back (extract_ulong E) ->
  Forall (fun i => state_map (N.of_nat i) < SIZE_MAX1) l ->
  Forall (fun f => f < SIZE_MAX1) state_freq ->
  omap (extract_label E) (row state_map state_depth state_freq <$> l) =
  entry state_map state_freq <$> l.
Proof.
  intros Hs Hl Hm Hf. induction l as [|i l IH]; [done|].
  apply Forall_cons in Hm as [Hi Hm].
  cbn [fmap list_fmap].
  change (omap (extract_label E)
            (row state_map state_depth state_freq i ::
             (row state_map state_depth state_freq <$> l)))
    with (match extract_label E (row state_map state_depth state_freq i) with
          | Some e => e :: omap (extract_label E)
                             (row state_map state_depth state_freq <$> l)
          | None => omap (extract_label E)
                      (row state_map state_depth state_freq <$> l)
          end).
  rewrite extract_row by done. by rewrite IH.
Qed.
End Rows.

(** ** The round trip *)

Lemma header_not_kept (total : N) (ls : list string) :
  kept_lines (("# Total packets : " +:+ to_string total) :: ls) =
  kept_lines ls.
Proof. by apply kept_lines_ignored. Qed.

Lemma header_one_line (total : N) :
  all_chars (fun c => c <> newline) ("# Total packets : " +:+ to_string total).
Proof.
  apply all_chars_app. split.
  - cbn. repeat split; discriminate.
  - eapply all_chars_impl; [|apply to_string_plain]. by intros c [Hc _].
Qed.

(** X10.  The frequency file can be read back as a label file.  If the
    stream extraction reads back the decimal numbers that are written for
    64-bit values, the state identifiers and the counters written are such
    values, the identifiers are states of the automaton and differ from
    one another, and [state_freq] has one counter per state, then
    [read_state_labels] accepts the text that the frequency branch writes
    and returns the map that gives every written state its counter and
    nothing else; the header line and the depth column play no part. *)
Theorem frequency_file_round_trip (E : env) (nfa : FastNfa E)
    (state_map state_depth : N -> N) (total : N) (state_freq : list N)
    (fname : string) :
  reads_back (extract_state E) ->
  reads_back (extract_ulong E) ->
  (forall i, i < state_count E nfa -> state_map i < SIZE_MAX1) ->
  Forall (fun f => f < SIZE_MAX1) state_freq ->
  length state_freq = N.to_nat (state_count E nfa) ->
  (forall i, i < state_count E nfa -> is_state E nfa (state_map i) = true) ->
  (forall i j, i < state_count E nfa -> j < state_count E nfa ->
               state_map i = state_map j -> i = j) ->
  file_contents E fname =
    write_frequencies E nfa state_map state_depth total state_freq ->
  exists m : gmap N N,
    read_state_labels E nfa fname = Value m /\
    (forall (i : nat) (f : N),
        state_freq !! i = Some f -> m !! state_map (N.of_nat i) = Some f) /\
    (forall s, (forall i, i < state_count E nfa -> state_map i <> s) ->
               m !! s = None).
Proof.
  intros Hs Hl Hfit Hfreq Hlen Hstates Hinj Hfile.
  set (n := N.to_nat (state_count E nfa)) in *.
  set (rows := row state_map state_depth state_freq <$> seq 0 n).
  set (entries := entry state_map state_freq <$> seq 0 n).
  assert (Htext : write_frequencies E nfa state_map state_depth total
                    state_freq =
                  Some (unlines (("# Total packets : " +:+ to_string total)
                                 :: rows))).
  { unfold write_frequencies. fold n. rewrite frequency_lines_text.
    - cbn [unlines foldr]. by rewrite !string_app_assoc.
    - apply Forall_forall. intros i Hi. apply elem_of_seq in Hi. lia. }
  assert (Hlines : label_lines (unlines
            (("# Total packets : " +:+ to_string total) :: rows)) = rows).
  { unfold label_lines. rewrite getlines_unlines.
    - rewrite header_not_kept. apply kept_rows.
    - constructor; [apply header_one_line|].
      apply Forall_fmap, Forall_forall. intros i _. cbn.
      eapply all_chars_impl; [|apply row_plain]. by intros c [Hc _]. }
  assert (Hwf : Forall (well_formed_line E nfa) rows).
  { apply Forall_fmap, Forall_forall. intros i Hi. cbn.
    apply elem_of_seq in Hi.
    unfold well_formed_line.
    rewrite extract_row by (try done; apply Hfit; lia). cbn.
    apply Hstates. lia. }
  unfold read_state_labels. rewrite Hfile, Htext.
  rewrite read_lines_value; fold (label_lines (unlines
    (("# Total packets : " +:+ to_string total) :: rows)));
    rewrite Hlines; [|done].
  unfold rows at 1. rewrite extract_rows; [|done|done| |done].
  2:{ apply Forall_forall. intros i Hi. apply elem_of_seq in Hi.
      apply Hfit. lia. }
  fold entries.
  rewrite foldl_store_label, (right_id_L ∅ (∪)).
  eexists. split; [reflexivity|].
  assert (Hnodup : NoDup (reverse entries).*1).
  { rewrite fmap_reverse, reverse_Permutation. unfold entries.
    rewrite <- list_fmap_compose.
    apply NoDup_fmap_2_strong; [|apply NoDup_seq].
    intros i j Hi Hj. cbn. intros Heq.
    apply elem_of_seq in Hi, Hj.
    apply Hinj in Heq; lia. }
  split.
  - intros i f Hf. apply elem_of_list_to_map_1; [done|].
    apply elem_of_reverse, list_elem_of_fmap. exists i. split.
    + unfold entry. by rewrite Hf.
    + apply elem_of_seq. apply lookup_lt_Some in Hf. lia.
  - intros s Hnone. apply not_elem_of_list_to_map_1.
    rewrite fmap_reverse, elem_of_reverse. unfold entries.
    rewrite <- list_fmap_compose. intros Hin.
    apply list_elem_of_fmap in Hin as (i & -> & Hi). cbn in Hnone.
    apply elem_of_seq in Hi. apply (Hnone (N.of_nat i)); [lia|done].
Qed.

(** ** The decimal extraction of the examples reads back what is written *)

Lemma digit_pretty_N_char d : d < 10 -> digit (pretty_N_char d) = Some d.
Proof.
  intros Hd. destruct d as [|p]; [done|].
  do 4 (try (destruct p as [p|p|]; try done; try lia)).
Qed.

Lemma pretty_N_go_app x : forall s,
  pretty_N_go x s = pretty_N_go x "" +:+ s.
Proof.
  induction (N.lt_wf_0 x) as [x _ IH]; intros s.
  destruct (decide (x = 0)) as [->|Hx]; [by rewrite !pretty_N_go_0|].
  rewrite (pretty_N_go_step x s), (pretty_N_go_step x "") by lia.
  assert (Hlt : x / 10 < x) by (apply N.div_lt; lia).
  rewrite (IH (x / 10) Hlt (String (pretty_N_char (x `mod` 10)) s)).
  rewrite (IH (x / 10) Hlt (String (pretty_N_char (x `mod` 10)) "")).
  by rewrite string_app_assoc.
Qed.

Lemma pretty_N_go_head x : forall s,
  0 < x \/ head_digit s -> head_digit (pretty_N_go x s).
Proof.
  induction (N.lt_wf_0 x) as [x _ IH]; intros s Hs.
  destruct (decide (x = 0)) as [->|Hx].
  - rewrite pretty_N_go_0. destruct Hs as [Hs|Hs]; [lia|done].
  - rewrite pretty_N_go_step by lia. apply IH; [apply N.div_lt; lia|].
    right. cbn. rewrite digit_pretty_N_char; [done|]. apply N.mod_lt. lia.
Qed.

Lemma read_digits_pretty x :
  exists k, forall acc s,
    read_digits acc (pretty_N_go x s) = read_digits (acc * k + x) s.
Proof.
  induction (N.lt_wf_0 x) as [x _ IH].
  destruct (decide (x = 0)) as [->|Hx].
  - exists 1. intros acc s. rewrite pretty_N_go_0. f_equal. lia.
  - destruct (IH (x / 10)) as [k Hk]; [apply N.div_lt; lia|].
    exists (10 * k). intros acc s.
    rewrite pretty_N_go_step, Hk by lia. cbn [read_digits].
    rewrite digit_pretty_N_char by (apply N.mod_lt; lia).
    f_equal. pose proof (N.div_mod x 10 ltac:(lia)). lia.
Qed.

Lemma read_unsigned_head (s : string) :
  head_digit s -> read_unsigned s = Some (read_digits 0 s).
Proof.
  destruct s as [|c t]; [done|]. intros [d Hd]. unfold read_unsigned.
  assert (Hsp : is_space c = false).
  { unfold digit in Hd. unfold is_space.
    destruct (48 <=? N_of_ascii c) eqn:H1; [|done].
    apply N.leb_le in H1.
    destruct (N.eqb_spec (N_of_ascii c) 32); [lia|].
    destruct (N.leb_spec (N_of_ascii c) 13); [lia|].
    by rewrite andb_false_r. }
  cbn [skip_space]. rewrite Hsp, Hd. cbn [read_digits]. rewrite Hd.
  done.
Qed.

Lemma read_unsigned_to_string n rest :
  read_unsigned (to_string n +:+ " " +:+ rest) = Some (n, " " +:+ rest).
Proof.
  unfold to_string, pretty, pretty_N. case_decide as Hn.
  - subst n. reflexivity.
  - rewrite <- pretty_N_go_app.
    rewrite read_unsigned_head by (apply pretty_N_go_head; left; lia).
    destruct (read_digits_pretty n) as [k ->]. reflexivity.
Qed.

Lemma read_unsigned_reads_back : reads_back read_unsigned.
Proof.
  intros n rest _. split; [apply read_unsigned_to_string|].
  change (read_unsigned (" " +:+ to_string n +:+ " " +:+ rest))
    with (read_unsigned (to_string n +:+ " " +:+ rest)).
  apply read_unsigned_to_string.
Qed.

Lemma frequency_file_round_trip_witness :
  reads_back (extract_state written_env) /\
  reads_back (extract_ulong written_env) /\
  Forall (fun f => f < SIZE_MAX1) [4; 2; 1] /\
  length [4; 2; 1] = N.to_nat (state_count written_env sample) /\
  exists m : gmap N N,
    read_state_labels written_env sample "freq" = Value m /\
    m !! 0 = Some 4 /\ m !! 1 = Some 2 /\ m !! 2 = Some 1 /\ m !! 3 = None.
Proof.
  split; [exact read_unsigned_reads_back|].
  split; [exact read_unsigned_reads_back|].
  assert (Hfreq : Forall (fun f => f < SIZE_MAX1) [4; 2; 1])
    by (repeat constructor).
  split; [exact Hfreq|]. split; [reflexivity|].
  destruct (frequency_file_round_trip written_env sample
              (fun s => s) (fun s => s + 1) 3 [4; 2; 1] "freq")
    as (m & Hm & Hsome & Hnone).
  - exact read_unsigned_reads_back.
  - exact read_unsigned_reads_back.
  - intros i Hi. cbn in Hi. unfold SIZE_MAX1. lia.
  - exact Hfreq.
  - reflexivity.
  - intros i Hi. cbn in *. by apply N.ltb_lt.
  - intros i j _ _ Hij. exact Hij.
  - reflexivity.
  - exists m. split; [exact Hm|].
    split; [exact (Hsome 0%nat 4 eq_refl)|].
    split; [exact (Hsome 1%nat 2 eq_refl)|].
    split; [exact (Hsome 2%nat 1 eq_refl)|].
    apply Hnone. intros i Hi ->. cbn in Hi. lia.
Defined.
(** * Frames with a header taken out *)

Lemma cut_length a c packet : (length (cut a c packet) <= length packet)%nat.
Proof. unfold cut. rewrite length_app, length_take, length_drop. lia. Qed.

Lemma addressable_cut a c packet :
  addressable packet -> addressable (cut a c packet).
Proof. unfold addressable. pose proof (cut_length a c packet). lia. Qed.

(** Behind the cut a byte of the shorter buffer is the byte [c] places
    further in the longer one; in front of it the buffers agree. *)
Lemma load8_cut a c packet o f :
  (a <= length packet)%nat -> N.of_nat a <= o ->
  outcome (load8 (cut a c packet) (o + f)) =
  outcome (load8 packet (o + N.of_nat c + f)).
Proof.
  intros Ha Ho. unfold load8, outcome, cut. cbn.
  rewrite lookup_app_r; rewrite length_take; [|lia].
  rewrite lookup_drop.
  replace (a + c + (N.to_nat (o + f) - a `min` length packet))%nat
    with (N.to_nat (o + N.of_nat c + f)) by lia.
  done.
Qed.

Lemma load8_before_cut a c packet i :
  (a <= length packet)%nat -> i < N.of_nat a ->
  load8 (cut a c packet) i = load8 packet i.
Proof.
  intros Ha Hi. unfold load8, cut. f_equal.
  rewrite lookup_app_l by (rewrite length_take; lia).
  by rewrite lookup_take_lt by lia.
Qed.

Lemma l4_body_cut a c packet o p :
  addressable packet -> (a <= length packet)%nat -> N.of_nat a <= o ->
  o + N.of_nat c <= N.of_nat (length packet) + 40 ->
  outcome (l4_body packet (o + N.of_nat c) p) =
  match outcome (l4_body (cut a c packet) o p) with
  | Ok (Again o' p') => Ok (Again (o' + N.of_nat c) p')
  | Ok (Leave o' p') => Ok (Leave (o' + N.of_nat c) p')
  | r => r
  end.
Proof.
  unfold addressable, SIZE_MAX1. intros Hadd Ha Ho Hinv. unfold l4_body.
  repeat split_protocol; rewrite ?outcome_bind, ?load8_cut by done.
  all: try match goal with
    | |- context [outcome (load8 ?q ?i)] =>
        let v := fresh "v" in
        let Ev := fresh "Ev" in
        destruct (outcome (load8 q i)) as [v| |] eqn:Ev; [|done|done];
        apply load8_ok in Ev as [Hm Hv]; unfold in_memory in Hm
    end.
  all: cbn; autounfold with hdr in *; do 2 f_equal.
  all: try assert (v / 16 < 16) by (apply N.Div0.div_lt_upper_bound; lia).
  all: try generalize dependent (v / 16); intros.
  all: rewrite ?size_add_small; unfold SIZE_MAX1; lia.
Qed.

Lemma l4_loop_cut a c packet : forall fuel o p,
  addressable packet -> (a <= length packet)%nat -> N.of_nat a <= o ->
  o + N.of_nat c <= N.of_nat (length packet) + 40 ->
  outcome (l4_loop fuel packet (o + N.of_nat c) p) =
  match outcome (l4_loop fuel (cut a c packet) o p) with
  | Ok (Some k) => Ok (Some (k + N.of_nat c))
  | r => r
  end.
Proof.
  induction fuel as [|fuel IH]; intros o p Hadd Ha Ho Hinv; [done|].
  cbn [l4_loop]. rewrite !outcome_bind.
  pose proof (l4_body_cut a c packet o p Hadd Ha Ho Hinv) as Hb.
  destruct (outcome (l4_body (cut a c packet) o p))
    as [[o' p'|o' p'|]| |] eqn:Eb; rewrite Hb; try done.
  apply l4_body_again in Hb as [Hm Hstep]; [|done].
  unfold in_memory in Hm. autounfold with hdr in Hstep.
  apply IH; try done; lia.
Qed.

(** The loop of the shorter buffer, run with the budget of the longer
    one. *)
Lemma l4_loop_cut_fuel a c packet o p :
  addressable packet ->
  l4_loop (S (length packet)) (cut a c packet) o p =
  l4_loop (S (length (cut a c packet))) (cut a c packet) o p.
Proof.
  intros Hadd. pose proof (cut_length a c packet).
  apply l4_loop_more_fuel; [lia|].
  apply l4_loop_enough_fuel; [by apply addressable_cut|lia].
Qed.

Lemma load16_ok packet i v :
  outcome (load16_ntohs packet i) = Ok v ->
  in_memory packet i /\ in_memory packet (i + 1).
Proof.
  unfold load16_ntohs. rewrite outcome_bind.
  destruct (outcome (load8 packet i)) as [hi| |] eqn:Ehi; try discriminate.
  rewrite outcome_bind.
  destruct (outcome (load8 packet (i + 1))) as [lo| |] eqn:Elo;
    try discriminate.
  intros _. apply load8_ok in Ehi as [? _]. by apply load8_ok in Elo as [? _].
Qed.

(** X11.  An 802.1Q tag moves the payload by its four bytes and changes
    nothing else: for a tagged frame whose inner type is not the VLAN type
    again, [get_payload] ends as it does on the frame without the tag
    (captured with four bytes less), four bytes further on. *)
Theorem get_payload_vlan_tag packet header header' :
  addressable packet ->
  outcome (load16_ntohs packet off_ether_type) = Ok ETHERTYPE_VLAN ->
  outcome (load16_ntohs packet off_vlan_ether_type) <> Ok ETHERTYPE_VLAN ->
  caplen header = caplen header' + 4 ->
  outcome (get_payload packet header) =
  moved 4 (outcome (get_payload (untag packet) header')).
Proof.
  intros Hadd Hty Hinner Hcap.
  assert (Hlen : (14 <= length packet)%nat).
  { apply load16_ok in Hty as [_ H]. unfold in_memory, off_ether_type in H.
    lia. }
  rewrite !get_payload_outcome, !skip_headers_outcome.
  assert (Hin : outcome (load16_ntohs (untag packet) off_ether_type) =
                outcome (load16_ntohs packet off_vlan_ether_type)).
  { unfold load16_ntohs, untag, off_ether_type, off_vlan_ether_type.
    rewrite !outcome_bind.
    rewrite <- (N.add_0_r 12) at 1.
    rewrite (load8_cut 12 4 packet 12 0) by lia.
    change (12 + N.of_nat 4 + 0) with 16.
    destruct (outcome (load8 packet 16)); try done.
    rewrite !outcome_bind.
    rewrite (load8_cut 12 4 packet 12 1) by lia.
    change (12 + N.of_nat 4 + 1) with (16 + 1).
    by destruct (outcome (load8 packet (16 + 1))). }
  assert (Hl : outcome (link_layer packet) =
               match outcome (load16_ntohs packet off_vlan_ether_type) with
               | Ok ty => Ok (sizeof_vlan_ethhdr, ty)
               | Fault => Fault
               | OutOfFuel => OutOfFuel
               end).
  { unfold link_layer. rewrite outcome_bind, Hty.
    change (ETHERTYPE_VLAN =? ETHERTYPE_VLAN) with true. cbv iota.
    rewrite outcome_bind.
    by destruct (outcome (load16_ntohs packet off_vlan_ether_type)). }
  assert (Hl' : outcome (link_layer (untag packet)) =
               match outcome (load16_ntohs packet off_vlan_ether_type) with
               | Ok ty => Ok (sizeof_ether_header, ty)
               | Fault => Fault
               | OutOfFuel => OutOfFuel
               end).
  { unfold link_layer. rewrite outcome_bind, Hin.
    destruct (outcome (load16_ntohs packet off_vlan_ether_type))
      as [ty| |]; try done.
    destruct (N.eqb_spec ETHERTYPE_VLAN ty) as [<-|_]; [done|].
    by rewrite outcome_ret. }
  rewrite Hl, Hl'.
  destruct (outcome (load16_ntohs packet off_vlan_ether_type)) as [ty| |];
    try done.
  unfold network_layer, untag.
  repeat split_protocol; rewrite ?outcome_bind;
    try (cbn; f_equal; lia).
  - rewrite (load8_cut 12 4 packet) by (autounfold with hdr; lia).
    change (sizeof_ether_header + N.of_nat 4) with sizeof_vlan_ethhdr.
    destruct (outcome (load8 packet _)) as [p| |]; try done.
    rewrite !outcome_ret. rewrite <- l4_loop_cut_fuel by done.
    change (size_add sizeof_vlan_ethhdr sizeof_ip) with (34 + N.of_nat 4).
    change (size_add sizeof_ether_header sizeof_ip) with 34.
    rewrite (l4_loop_cut 12 4 packet) by (done || lia).
    destruct (outcome (l4_loop _ (cut 12 4 packet) 34 p)) as [[k|]| |];
      cbn; try done; [|f_equal; lia].
    f_equal. change (N.of_nat 4) with 4.
    destruct (N.ltb_spec (caplen header) (k + 4));
      destruct (N.ltb_spec (caplen header') k); lia.
  - rewrite (load8_cut 12 4 packet) by (autounfold with hdr; lia).
    change (sizeof_ether_header + N.of_nat 4) with sizeof_vlan_ethhdr.
    destruct (outcome (load8 packet _)) as [p| |] eqn:Ep; try done.
    apply load8_ok in Ep as [Hm _]. unfold in_memory in Hm.
    autounfold with hdr in Hm.
    rewrite !outcome_ret. rewrite <- l4_loop_cut_fuel by done.
    change (size_add sizeof_vlan_ethhdr sizeof_ip6_hdr) with (54 + N.of_nat 4).
    change (size_add sizeof_ether_header sizeof_ip6_hdr) with 54.
    rewrite (l4_loop_cut 12 4 packet) by (done || lia).
    destruct (outcome (l4_loop _ (cut 12 4 packet) 54 p)) as [[k|]| |];
      cbn; try done; [|f_equal; lia].
    f_equal. change (N.of_nat 4) with 4.
    destruct (N.ltb_spec (caplen header) (k + 4));
      destruct (N.ltb_spec (caplen header') k); lia.
Qed.

Lemma get_payload_vlan_tag_witness :
  outcome (get_payload vlan_tcp_frame (hdr 66 66)) = Ok 58 /\
  outcome (get_payload vlan_tcp_frame (hdr 66 66)) =
  moved 4 (outcome (get_payload (untag vlan_tcp_frame) (hdr 62 62))).
Proof.
  split; [reflexivity|].
  apply (get_payload_vlan_tag vlan_tcp_frame (hdr 66 66) (hdr 62 62)).
  - vm_compute; discriminate.
  - reflexivity.
  - vm_compute; discriminate.
  - reflexivity.
Defined.

(** X12.  IP-in-IP is unwrapped one level per pass: for an untagged IPv4
    frame that carries protocol 4, [get_payload] ends as it does on the
    frame without the outer IPv4 header (captured with twenty bytes less),
    twenty bytes further on. *)
Theorem get_payload_ipip packet header header' :
  addressable packet ->
  outcome (load16_ntohs packet off_ether_type) = Ok ETHERTYPE_IP ->
  outcome (load8 packet (sizeof_ether_header + off_ip_p)) = Ok IPPROTO_IPIP ->
  caplen header = caplen header' + 20 ->
  outcome (get_payload packet header) =
  moved 20 (outcome (get_payload (decapsulate packet) header')).
Proof.
  intros Hadd Hty Hp Hcap.
  assert (Hlen : (24 <= length packet)%nat).
  { apply load8_ok in Hp as [H _]. unfold in_memory in H.
    autounfold with hdr in H. lia. }
  rewrite !get_payload_outcome, !skip_headers_outcome.
  assert (Hl : forall q, outcome (load16_ntohs q off_ether_type) =
                         Ok ETHERTYPE_IP ->
               outcome (link_layer q) = Ok (sizeof_ether_header, ETHERTYPE_IP)).
  { intros q Hq. unfold link_layer. by rewrite outcome_bind, Hq. }
  assert (Hty' : outcome (load16_ntohs (decapsulate packet) off_ether_type) =
                 Ok ETHERTYPE_IP).
  { rewrite <- Hty. unfold load16_ntohs, decapsulate, off_ether_type.
    by rewrite !(load8_before_cut 14 20 packet) by lia. }
  rewrite (Hl _ Hty), (Hl _ Hty').
  unfold network_layer, decapsulate.
  change (ETHERTYPE_IP =? ETHERTYPE_IP) with true. cbv iota.
  rewrite !outcome_bind, Hp, outcome_ret.
  rewrite (load8_cut 14 20 packet) by (autounfold with hdr; lia).
  change (size_add sizeof_ether_header sizeof_ip) with 34.
  change (l4_loop (S (length packet)) packet 34 IPPROTO_IPIP) with
    (r ← (p ← load8 packet (34 + off_ip_p);
          mret (Again (size_add 34 sizeof_ip) p));
     match r with
     | Again offset l4_proto => l4_loop (length packet) packet offset l4_proto
     | Leave offset _ => mret (Some offset)
     | ReturnEnd => mret None
     end).
  rewrite !outcome_bind.
  change (sizeof_ether_header + N.of_nat 20 + off_ip_p) with (34 + off_ip_p).
  destruct (outcome (load8 packet (34 + off_ip_p))) as [p| |] eqn:Ep;
    try done.
  apply load8_ok in Ep as [Hm _]. unfold in_memory in Hm.
  autounfold with hdr in Hm.
  rewrite !outcome_ret. rewrite <- l4_loop_cut_fuel by done.
  change (size_add 34 sizeof_ip) with (34 + N.of_nat 20).
  rewrite <- (l4_loop_more_fuel packet (length packet) (S (length packet)));
    [|lia|apply l4_loop_enough_fuel; [done|lia]].
  rewrite (l4_loop_cut 14 20 packet) by (done || lia).
  destruct (outcome (l4_loop _ (cut 14 20 packet) 34 p)) as [[k|]| |];
    cbn; try done; [|f_equal; lia].
  f_equal. change (N.of_nat 20) with 20.
  destruct (N.ltb_spec (caplen header) (k + 20));
    destruct (N.ltb_spec (caplen header') k); lia.
Qed.

Lemma get_payload_ipip_witness :
  outcome (get_payload ip4_in_ip4_frame (hdr 82 82)) = Ok 74 /\
  outcome (get_payload ip4_in_ip4_frame (hdr 82 82)) =
  moved 20 (outcome (get_payload (decapsulate ip4_in_ip4_frame) (hdr 62 62))).
Proof.
  split; [reflexivity|].
  apply (get_payload_ipip ip4_in_ip4_frame (hdr 82 82) (hdr 62 62)).
  - vm_compute; discriminate.
  - reflexivity.
  - reflexivity.
  - reflexivity.
Defined.
(** * Frames with one network header *)

Lemma link_layer_plain packet ty :
  outcome (load16_ntohs packet off_ether_type) = Ok ty ->
  ty <> ETHERTYPE_VLAN ->
  outcome (link_layer packet) = Ok (sizeof_ether_header, ty).
Proof.
  intros Hty Hne. unfold link_layer. rewrite outcome_bind, Hty.
  by destruct (N.eqb_spec ETHERTYPE_VLAN ty).
Qed.

(** X13.  An untagged frame with one IPv4 or IPv6 header: behind UDP, ESP,
    ICMP and ICMPv6 the payload starts 8 bytes after the network header,
    behind TCP as many 32-bit words after it as the data offset field says,
    and with any protocol the loop has no branch for the payload is empty;
    an offset behind the captured bytes is cut to their end. *)
Theorem get_payload_transport packet header (v6 : bool) (p : N) :
  outcome (load16_ntohs packet off_ether_type) =
    Ok (if v6 then ETHERTYPE_IPV6 else ETHERTYPE_IP) ->
  outcome (load8 packet (if v6 then 20 else 23)) = Ok p ->
  let o := if v6 then 54 else 34 in
  (p ∈ [IPPROTO_UDP; IPPROTO_ESP; IPPROTO_ICMP; IPPROTO_ICMPV6] ->
   outcome (get_payload packet header) =
   Ok (N.min (caplen header) (o + 8))) /\
  (p = IPPROTO_TCP ->
   forall b, outcome (load8 packet (o + 12)) = Ok b ->
   outcome (get_payload packet header) =
   Ok (N.min (caplen header) (o + 4 * (b / 16)))) /\
  (supported_l4 p = false ->
   outcome (get_payload packet header) = Ok (caplen header)).
Proof.
  intros Hty Hp o.
  assert (Hskip : outcome (skip_headers (S (length packet)) packet) =
                  outcome (l4_loop (S (length packet)) packet o p)).
  { rewrite skip_headers_outcome.
    rewrite (link_layer_plain _ _ Hty) by (by destruct v6).
    destruct v6.
    - change (network_layer packet sizeof_ether_header ETHERTYPE_IPV6)
        with (l4_proto ← load8 packet 20; mret (Some (54, l4_proto)) : M _).
      by rewrite outcome_bind, Hp, outcome_ret.
    - change (network_layer packet sizeof_ether_header ETHERTYPE_IP)
        with (l4_proto ← load8 packet 23; mret (Some (34, l4_proto)) : M _).
      by rewrite outcome_bind, Hp, outcome_ret. }
  rewrite get_payload_outcome, Hskip. cbn [l4_loop]. rewrite outcome_bind.
  assert (Hmin : forall k, (if caplen header <? k then caplen header else k) =
                           N.min (caplen header) k).
  { intros k. destruct (N.ltb_spec (caplen header) k); lia. }
  split; [|split].
  - rewrite !elem_of_cons, elem_of_nil.
    intros [->|[->|[->|[->|[]]]]]; cbn; rewrite Hmin; do 2 f_equal;
      destruct v6; reflexivity.
  - intros -> b Hb. unfold l4_body.
    change (IPPROTO_TCP =? IPPROTO_TCP) with true. cbv iota.
    rewrite outcome_bind. change (o + off_th_off) with (o + 12).
    rewrite Hb. cbn. rewrite Hmin. do 2 f_equal.
    apply load8_ok in Hb as [_ Hb].
    assert (b / 16 < 16) by (apply N.Div0.div_lt_upper_bound; lia).
    generalize dependent (b / 16); intros.
    rewrite size_add_small; unfold SIZE_MAX1; destruct v6; subst o; lia.
  - intros Hu. by rewrite (l4_body_unsupported _ _ _ Hu).
Qed.

Lemma get_payload_transport_witness :
  outcome (get_payload snap14_frame (hdr 62 62)) =
  Ok (N.min 62 (34 + 4 * (80 / 16))).
Proof.
  exact (proj1 (proj2 (get_payload_transport snap14_frame (hdr 62 62) false 6
                         eq_refl eq_refl)) eq_refl 80 eq_refl).
Defined.
(** * The metrics of a reduction without error *)

(** X14.  When the counters report no disagreement (no payload classified
    differently, as many acceptances by the reduced automaton as by the
    target) over a non-empty run with at least one agreement, [pe] and [ce]
    are 0 and [cls_ratio] is 1. *)
Theorem metrics_of_agreement (aggr : ErrorStats) :
  total aggr <> 0 ->
  accepted_reduced aggr = accepted_target aggr ->
  accepted_target aggr < SIZE_MAX1 ->
  wrongly_classified aggr = 0 ->
  correctly_classified aggr <> 0 ->
  correctly_classified aggr < SIZE_MAX1 ->
  exists q_pe q_ce q_cls : Q,
    pe aggr = Finite q_pe /\ ce aggr = Finite q_ce /\
    cls_ratio aggr = Finite q_cls /\
    (q_pe == 0)%Q /\ (q_ce == 0)%Q /\ (q_cls == 1)%Q.
Proof.
  intros Ht Hacc Hb Hw Hc Hcb. unfold pe, ce, cls_ratio, wrong_acceptances.
  rewrite Hacc, Hw, size_sub_no_wrap, N.sub_diag by lia.
  rewrite size_add_small by (rewrite N.add_0_r; exact Hcb).
  rewrite N.add_0_r.
  destruct (total aggr) as [|t]; [by destruct Ht|].
  destruct (correctly_classified aggr) as [|c]; [by destruct Hc|].
  rewrite quotient_zero, quotient_same by (unfold SIZE_MAX1 in Hcb; lia).
  cbn [float_value SpecFloat.cond_Zopp].
  do 3 eexists. do 3 (split; [reflexivity|]).
  split; [reflexivity|]. split; reflexivity.
Qed.

Lemma metrics_of_agreement_witness :
  exists q_pe q_ce q_cls : Q,
    pe (Build_ErrorStats 1000 40 40 0 1000) = Finite q_pe /\
    ce (Build_ErrorStats 1000 40 40 0 1000) = Finite q_ce /\
    cls_ratio (Build_ErrorStats 1000 40 40 0 1000) = Finite q_cls /\
    (q_pe == 0)%Q /\ (q_ce == 0)%Q /\ (q_cls == 1)%Q.
Proof.
  apply (metrics_of_agreement (Build_ErrorStats 1000 40 40 0 1000));
    cbn; (reflexivity || discriminate).
Defined.
(** * When [main] counts frequencies *)

(** X15.  [main] enters the frequency branch exactly when there are at least
    two arguments, the option loop goes through, [-f] is among the options,
    the two arguments behind the options exist, the automaton can be built
    from the first and the output file can be opened.  Neither the
    reduction type nor the contents of the second file play a part: with
    [-f] the argument of [-t] is never looked at and the second file is
    handed on as the capture. *)
Theorem main_frequency_branch (E : env) (argv : list string)
    (opts : list (ascii * string)) (nfa : FastNfa E) (pcap : string) :
  main E argv opts = Frequencies nfa pcap <->
  (2 <= length argv)%nat /\
  Forall (passable E) opts /\
  ("f"%char ∈ opts.*1) /\
  (exists nfa_str,
      argv !! Z.to_nat (1 + foldr Z.add 0%Z (option_weight <$> opts.*1))
        = Some nfa_str /\
      read_from_file E nfa_str = Value nfa) /\
  argv !! S (Z.to_nat (1 + foldr Z.add 0%Z (option_weight <$> opts.*1)))
    = Some pcap /\
  can_open_output E (default "reduced-nfa.fa" (last_arg "o" opts)) = true.
Proof.
  pose proof (option_weights_nonneg opts.*1) as Hw.
  unfold main, main_try. split.
  - intros H.
    destruct (Z.ltb_spec (Z.of_nat (length argv)) 2) as [?|Hargc];
      [discriminate H|].
    destruct (option_loop E initial_options opts) as [o| |] eqn:Eo;
      try discriminate H.
    assert (Hpass : Forall (passable E) opts).
    { apply (option_loop_passable E opts initial_options). eauto. }
    apply option_loop_effect in Eo as (Hc & Hf & Ho & _).
    cbn [initial_options opt_cnt freq_opt outfile orb] in *.
    cbn in H.
    destruct (Z.ltb_spec (Z.of_nat (length argv) - opt_cnt o) 2)
      as [?|Hargs]; [discriminate H|].
    destruct (read_from_file E _) as [nfa'|] eqn:En; [|discriminate H].
    cbn in H.
    destruct (can_open_output E (outfile o)) eqn:Eout; [|discriminate H].
    cbn in H.
    destruct (freq_opt o) eqn:Efreq.
    + injection H as <- <-. rewrite <- Hc.
      split; [lia|]. split; [done|].
      split; [symmetry in Hf; by apply bool_decide_eq_true in Hf|].
      split; [|split; [|by rewrite <- Ho]].
      * eexists. split; [apply lookup_default; lia|exact En].
      * replace (S (Z.to_nat (opt_cnt o)))
          with (Z.to_nat (opt_cnt o + 1)) by lia.
        apply lookup_default. lia.
    + destruct (read_state_labels E nfa' _); [|discriminate H].
      cbn in H. repeat case_decide; discriminate H.
  - intros (Hargc & Hpass & Hf & (nfa_str & Hn & Hread) & Hp & Hout).
    destruct (Z.ltb_spec (Z.of_nat (length argv)) 2) as [?|_]; [lia|].
    apply (option_loop_passable E opts initial_options) in Hpass as [o Eo].
    rewrite Eo.
    apply option_loop_effect in Eo as (Hc & Hfo & Ho & _).
    cbn [initial_options opt_cnt freq_opt outfile orb] in *.
    cbn. rewrite <- Hc in Hn, Hp.
    apply lookup_lt_Some in Hp as Hlt.
    destruct (Z.ltb_spec (Z.of_nat (length argv) - opt_cnt o) 2)
      as [?|_]; [lia|].
    rewrite Hn. cbn. rewrite Hread. cbn. rewrite Ho, Hout. cbn.
    rewrite Hfo, bool_decide_eq_true_2 by done.
    replace (Z.to_nat (opt_cnt o + 1)) with (S (Z.to_nat (opt_cnt o)))
      by lia.
    by rewrite Hp.
Qed.

Lemma main_frequency_branch_witness :
  main sample_env ["reduce"; "-t"; "none"; "-f"; "sample.fa"; "week2.pcap"]
       [("t"%char, "none"); ("f"%char, "")] =
  Frequencies (E := sample_env) sample "week2.pcap" /\
  can_open_output sample_env
    (default "reduced-nfa.fa"
       (last_arg "o" [("t"%char, "none"); ("f"%char, "")])) = true.
Proof.
  assert (Hrun :
    main sample_env ["reduce"; "-t"; "none"; "-f"; "sample.fa"; "week2.pcap"]
         [("t"%char, "none"); ("f"%char, "")] =
    Frequencies (E := sample_env) sample "week2.pcap").
  { vm_compute. reflexivity. }
  split; [exact Hrun|].
  exact (proj2 (proj2 (proj2 (proj2 (proj2
    (proj1 (main_frequency_branch sample_env _ _ _ _) Hrun)))))).
Defined.
(** * The sweep of [par_test.cpp] *)

Lemma threshold_loop_rows (fuel : nat) (iter : Z) :
  (5 < fuel)%nat ->
  threshold_loop fuel iter threshold_init =
  Some ((fun k => (iter, threshold_value k)) <$>
        seqZ 0 (if (iter =? 0)%Z then 1 else 5)).
Proof.
  intros Hfuel. do 6 (destruct fuel as [|fuel]; [lia|]).
  destruct (iter =? 0)%Z eqn:Ei.
  - cbn [threshold_loop]. rewrite Ei. reflexivity.
  - cbn [threshold_loop]. rewrite Ei.
    do 5 (match goal with
          | |- context [threshold_test ?t] =>
              let b := eval vm_compute in (threshold_test t) in
              change (threshold_test t) with b; cbv iota
          end;
          match goal with
          | |- context [threshold_step ?t] =>
              let v := eval vm_compute in (threshold_step t) in
              change (threshold_step t) with v
          end).
    reflexivity.
Qed.

(** X16.  With IEEE arithmetic the inner loop makes exactly five passes for
    every [iter] but the first, which makes one: the sweep prints 51 rows.
    The thresholds are the [float]s next to 0.975, 0.98, 0.985, 0.99 and
    0.995 (adding [0.005] five times brings no rounding error with it), and
    the loop ends because the sixth value is exactly 1. *)
Theorem sweep_rows (fuel : nat) :
  (5 < fuel)%nat ->
  exists rows,
    sweep fuel = Some rows /\
    length rows = 51%nat /\
    rows = concat ((fun iter =>
                      (fun k => (iter, threshold_value k)) <$>
                      seqZ 0 (if (iter =? 0)%Z then 1 else 5)) <$> seqZ 0 11) /\
    (forall k, (0 <= k < 5)%Z ->
       threshold_value k = double_to_float (double_literal (975 + 5 * k) 3)) /\
    threshold_step (threshold_value 4) = binary32 1 0.
Proof.
  intros Hfuel. eexists. split; [|split; [|split; [reflexivity|split]]].
  - unfold sweep.
    assert (Hm : mapM (fun iter => threshold_loop fuel iter threshold_init)
                   (seqZ 0 11) =
                 Some ((fun iter =>
                          (fun k => (iter, threshold_value k)) <$>
                          seqZ 0 (if (iter =? 0)%Z then 1 else 5)) <$>
                       seqZ 0 11)).
    { apply mapM_Some. apply Forall2_fmap_r, Forall_Forall2_diag.
      apply Forall_forall. intros iter _.
      by apply threshold_loop_rows. }
    rewrite Hm. reflexivity.
  - reflexivity.
  - intros k Hk.
    assert (Hc : (k = 0 \/ k = 1 \/ k = 2 \/ k = 3 \/ k = 4)%Z) by lia.
    destruct Hc as [->|[->|[->|[->| ->]]]]; vm_compute; reflexivity.
  - vm_compute. reflexivity.
Qed.

Lemma sweep_rows_witness :
  exists rows, sweep 6 = Some rows /\ length rows = 51%nat.
Proof.
  destruct (sweep_rows 6) as (rows & Hs & Hl & _); [lia|].
  exists rows. by split.
Defined.
